(** * lmtlsssoul terminal art (art.6.py): a shallow embedding and its properties

    The program is a curses animation.  Its simulation core is embedded
    here function by function, keeping the names of the Python source:

    - Python [int] is [Z]; indices that only ever count upwards from a
      non-negative start are [nat].
    - Python [float] is an exact rational [Q] where the code only orders,
      clamps and keeps books.  Where rounding or overflow decides what
      the code does it is modelled: the weighted draw rounds to the
      nearest double, and [uv_to_mask_xy] raises [OverflowError] on mask
      dimensions beyond the doubles.  [math.sin], [math.cos] and
      [math.sqrt] have no rational model: their results enter as
      arbitrary values.
    - [bytes] is [list byte].
    - The excitation grid (a [dict] keyed by [(x, y)]) is a
      [gmap (Z * Z) Q], a spark set is a [gset (Z * Z)].
    - [random.SystemRandom] is a tape of draws with a cursor.
    - What the Unicode database answers about a code point is a record
      of functions; the glyph archive is built for any such record.
    - Code that can raise lives in the monad [py], whose [Raise] carries
      the Python exception. *)

From Stdlib Require Import ZArith QArith Qround Qabs Qminmax Lqa Lia List Bool.
From Stdlib Require Import Sorting.Sorted.
From Stdlib.Strings Require Import Byte Ascii String.
From stdpp Require Import base option gmap sets list.
Import ListNotations.

Local Open Scope Z_scope.

(* ===================================================================== *)
(** * Part I: the embedding                                               *)
(* ===================================================================== *)

(** ** Python outcomes *)

Inductive exn : Set :=
| NameError | IndexError | ValueError | TypeError | ZeroDivisionError
| OverflowError
| OSError
| FuelExhausted. (* not a Python exception: a [while] loop of the model
                    that was given too little fuel *)

Inductive py (A : Type) : Type :=
| Ret (a : A)
| Raise (e : exn).
Arguments Ret {A} a.
Arguments Raise {A} e.

Definition py_bind {A B} (m : py A) (k : A -> py B) : py B :=
  match m with
  | Ret a => k a
  | Raise e => Raise e
  end.

Notation "x <~ m ;; k" := (py_bind m (fun x => k))
  (at level 200, m at level 99, k at level 200, only parsing).

(** ** Rational comparisons as booleans *)

Definition Qltb (a b : Q) : bool := negb (Qle_bool b a).
Definition Qgtb (a b : Q) : bool := Qltb b a.

(** [int(f)] on a float truncates towards zero. *)
Definition py_int_of_float (q : Q) : Z :=
  if Qle_bool 0 q then Qfloor q else Qceiling q.

(** [round(f)] rounds half to even. *)
Definition py_round (q : Q) : Z :=
  let f := Qfloor q in
  let r := (q - inject_Z f)%Q in
  if Qltb r (1 # 2) then f
  else if Qltb (1 # 2) r then f + 1
  else if Z.even f then f else f + 1.

(** ** Doubles

    A Python [float] is an IEEE 754 double.  Most of the program only
    orders and clamps floats, and there the exact rational stands for
    the double.  Where the outcome of a test hangs on the rounding (the
    weighted draw), the operation is done exactly and then rounded to
    the nearest double, ties to even, as the hardware does.  NaN is not
    modelled, and an infinity only where an integer is made of it
    ([py_int_round]). *)

Definition pow2 (e : Z) : Q :=
  if 0 <=? e then inject_Z (2 ^ e) else 1 # Z.to_pos (2 ^ (- e)).

(** For [q <> 0], the [e] with [2^e <= |q| < 2^(e+1)]. *)
Definition binade (q : Q) : Z :=
  let k := Z.log2 (Z.abs (Qnum q)) - Z.log2 (Zpos (Qden q)) in
  if Qle_bool (pow2 k) (Qabs q) then k else k - 1.

(** The double nearest to [q]: 53 significant bits, and steps of
    [2^-1074] below [2^-1022]. *)
Definition float_round (q : Q) : Q :=
  if Qeq_bool q 0 then 0%Q
  else
    let e := Z.max (binade q - 52) (-1074) in
    (inject_Z (py_round (q / pow2 e)) * pow2 e)%Q.

(** [float(n)] on an [int], also where an [int] meets a [float] in an
    arithmetic operation: [OverflowError] from [2**1024 - 2**970] on,
    the first integer that rounds beyond the largest double. *)
Definition float_max_int : Z := 2 ^ 1024 - 2 ^ 970.

Definition py_float_of_int (n : Z) : py Q :=
  if float_max_int <=? Z.abs n then Raise OverflowError
  else Ret (inject_Z n).

(** [range(n)] *)
Definition py_range (n : Z) : list Z := map Z.of_nat (seq 0 (Z.to_nat n)).

(** ** The random source

    [trng = random.SystemRandom()].  [random()] is a float of [[0, 1)],
    [uniform(a, b)] is [a + (b - a) * random()] as in the library, and
    [randint(a, b)] is an integer of [[a, b]]. *)

Record Trng : Type := mkTrng {
  unit_draws : nat -> Q;   (* what successive [random()] calls return *)
  int_draws : nat -> Z;    (* raw integers behind [randint] *)
  taken : nat              (* draws consumed so far *)
}.

Definition trng_next (r : Trng) : Trng :=
  mkTrng (unit_draws r) (int_draws r) (S (taken r)).

Definition trng_random (r : Trng) : Q * Trng :=
  (unit_draws r (taken r), trng_next r).

Definition trng_uniform (a b : Q) (r : Trng) : Q * Trng :=
  ((a + (b - a) * unit_draws r (taken r))%Q, trng_next r).

Definition trng_randint (a b : Z) (r : Trng) : Z * Trng :=
  (a + int_draws r (taken r) mod (b - a + 1), trng_next r).

(** ** Excitation grid and injection (inject_sigil_excitation) *)

(** [excitation_grid.get(k, 0.0)] *)
Definition grid_get (g : gmap (Z * Z) Q) (k : Z * Z) : Q :=
  default 0%Q (g !! k).

Definition out_of_grid (x y width height : Z) : bool :=
  (x <? 0) || (y <? 0) || (width <=? x) || (height <=? y).

Definition neighbors : list (Z * Z) :=
  [(-1, 0); (1, 0); (0, -1); (0, 1); (-1, -1); (1, 1); (-1, 1); (1, -1)].

(** [if v > excitation_grid.get(k, 0.0): excitation_grid[k] = v] *)
Definition raise_cell (g : gmap (Z * Z) Q) (k : Z * Z) (v : Q) : gmap (Z * Z) Q :=
  if Qgtb v (grid_get g k) then <[k := v]> g else g.

(** One iteration of the halo loop, for the neighbour offset [d]. *)
Definition halo_step (x y : Z) (base_intensity : Q) (width height : Z)
    (st : gmap (Z * Z) Q * Trng) (d : Z * Z) : gmap (Z * Z) Q * Trng :=
  let '(g, r) := st in
  let '(u, r) := trng_random r in
  if Qltb u 0.18 then
    let nx := x + fst d in
    let ny := y + snd d in
    if (0 <=? nx) && (nx <? width) && (0 <=? ny) && (ny <? height) then
      let '(f, r) := trng_uniform 0.04 0.18 r in
      let halo := (base_intensity * f)%Q in
      (raise_cell g (nx, ny) halo, r)
    else (g, r)
  else (g, r).

(** The body of [for _ in range(trng.randint(1, 3))], [n] iterations left. *)
Fixpoint spike_trail (n : nat) (dx dy sx sy : Z) (spike : Q) (width height : Z)
    (g : gmap (Z * Z) Q) (r : Trng) : gmap (Z * Z) Q * Trng :=
  match n with
  | O => (g, r)
  | S n' =>
      let sx := sx + dx in
      let sy := sy + dy in
      if out_of_grid sx sy width height then (g, r) (* break *)
      else
        let g := raise_cell g (sx, sy) spike in
        let '(f, r) := trng_uniform 0.45 0.70 r in
        spike_trail n' dx dy sx sy (spike * f)%Q width height g r
  end.

Definition inject_sigil_excitation
    (excitation_grid : gmap (Z * Z) Q) (active_sparks : gset (Z * Z))
    (x y : Z) (base_intensity : Q) (trng : Trng) (width height : Z)
    (with_halo : bool) : gmap (Z * Z) Q * gset (Z * Z) * Trng :=
  if out_of_grid x y width height then (excitation_grid, active_sparks, trng)
  else
    let g := raise_cell excitation_grid (x, y) base_intensity in
    let sparks := {[ (x, y) ]} ∪ active_sparks in
    if negb with_halo then (g, sparks, trng)
    else
      let '(g, r) := fold_left (halo_step x y base_intensity width height)
                               neighbors (g, trng) in
      let '(u, r) := trng_random r in
      if Qltb u 0.12 then
        let '(i, r) := trng_randint 0 (Z.of_nat (List.length neighbors) - 1) r in
        let '(dx, dy) := nth (Z.to_nat i) neighbors (0, 0) in
        let '(f, r) := trng_uniform 0.22 0.42 r in
        let spike := (base_intensity * f)%Q in
        let '(n, r) := trng_randint 1 3 r in
        let '(g, r) := spike_trail (Z.to_nat n) dx dy x y spike width height g r in
        (g, sparks, r)
      else (g, sparks, r).

(** A concrete tape, for running the model on examples. *)
Definition sample_trng : Trng :=
  mkTrng (fun n => 1 # Pos.of_nat (n + 2)) (fun n => Z.of_nat n) 0.

(** Pointwise order on grids: a cell that is present stays present with a
    value that is no smaller, and the value read by [get(k, 0.0)] is no
    smaller. *)
Definition grid_le (g g' : gmap (Z * Z) Q) : Prop :=
  forall k : Z * Z,
    (forall a, g !! k = Some a -> exists b, g' !! k = Some b /\ (a <= b)%Q) /\
    (grid_get g k <= grid_get g' k)%Q.

(** ** The raster decoder (load_pbm_mask) *)

Definition byte_in (b : byte) (set : list byte) : bool :=
  existsb (Byte.eqb b) set.

(** [b" \t\r\n"] *)
Definition pbm_space : list byte := [x20; x09; x0d; x0a].
(** [b"\r\n"] *)
Definition line_end : list byte := [x0d; x0a].

Definition is_pbm_space (b : byte) : bool := byte_in b pbm_space.
Definition not_pbm_space (b : byte) : bool := negb (byte_in b pbm_space).
Definition not_line_end (b : byte) : bool := negb (byte_in b line_end).

(** [data[idx]] for an index that is never negative. *)
Definition getitem (data : list byte) (idx : nat) : py byte :=
  match nth_error data idx with
  | Some b => Ret b
  | None => Raise IndexError
  end.

(** [data[start:stop]] with Python's treatment of negative and
    out-of-range bounds. *)
Definition slice_bound (len i : Z) : Z :=
  if i <? 0 then Z.max 0 (len + i) else Z.min i len.

Definition py_slice (data : list byte) (start stop : Z) : list byte :=
  let len := Z.of_nat (List.length data) in
  let lo := slice_bound len start in
  let hi := slice_bound len stop in
  firstn (Z.to_nat (hi - lo)) (skipn (Z.to_nat lo) data).

(** [while idx < data_len and cond(data[idx]): idx += 1], run on the
    bytes from [idx] on. *)
Fixpoint scan (cond : byte -> bool) (rest : list byte) (idx : nat) : nat :=
  match rest with
  | b :: rest' => if cond b then scan cond rest' (S idx) else idx
  | [] => idx
  end.

Definition advance_while (cond : byte -> bool) (data : list byte) (idx : nat) : nat :=
  scan cond (skipn idx data) idx.

(** [int(token)] on a [bytes] token, as CPython parses it in base 10:
    surrounding white space (tab, LF, VT, FF, CR, space) is stripped, one
    sign is allowed, and the digits may be grouped by single underscores.
    Anything else is a [ValueError], and so is a token of more than
    4300 digits ([sys.get_int_max_str_digits()] as the interpreter
    starts; leading zeros count, the sign and the underscores do not). *)
Definition is_py_space (b : byte) : bool :=
  byte_in b [x09; x0a; x0b; x0c; x0d; x20].

Definition digit_of (b : byte) : option Z :=
  let n := Z.of_N (Byte.to_N b) in
  if (48 <=? n) && (n <=? 57) then Some (n - 48) else None.

Fixpoint int_digits (acc : Z) (after_digit : bool) (bs : list byte) : option Z :=
  match bs with
  | [] => if after_digit then Some acc else None
  | b :: bs' =>
      match digit_of b with
      | Some d => int_digits (10 * acc + d) true bs'
      | None =>
          if Byte.eqb b x5f && after_digit then int_digits acc false bs'
          else None
      end
  end.

Fixpoint lstrip (bs : list byte) : list byte :=
  match bs with
  | b :: bs' => if is_py_space b then lstrip bs' else bs
  | [] => []
  end.

Definition strip (bs : list byte) : list byte :=
  rev (lstrip (rev (lstrip bs))).

Definition int_max_str_digits : Z := 4300.

Definition digit_count (bs : list byte) : Z :=
  Z.of_nat (List.length
              (List.filter (fun b => match digit_of b with
                                     | Some _ => true
                                     | None => false
                                     end) bs)).

(** The digits behind the sign. *)
Definition int_body (ds : list byte) : option Z :=
  if int_max_str_digits <? digit_count ds then None
  else int_digits 0 false ds.

Definition int_literal (bs : list byte) : option Z :=
  match strip bs with
  | x2d :: ds => option_map Z.opp (int_body ds)
  | x2b :: ds => int_body ds
  | ds => int_body ds
  end.

Definition py_int_of_bytes (token : list byte) : py Z :=
  match int_literal token with
  | Some z => Ret z
  | None => Raise ValueError
  end.

Record Mask : Type := mkMask {
  mask_width : Z;
  mask_height : Z;
  mask_row_bytes : Z;
  mask_payload : list byte
}.

(** The header loop
    [while len(size_tokens) < 2 and idx < data_len: ...]. *)
Fixpoint read_size_tokens (fuel : nat) (data : list byte) (idx : nat)
    (size_tokens : list (list byte)) : py (nat * list (list byte)) :=
  let data_len := List.length data in
  if (List.length size_tokens <? 2)%nat && (idx <? data_len)%nat then
    match fuel with
    | O => Raise FuelExhausted
    | S fuel' =>
        let idx := advance_while is_pbm_space data idx in
        if (data_len <=? idx)%nat then Ret (idx, size_tokens) (* break *)
        else
          b <~ getitem data idx ;;
          if Byte.eqb b x23 then (* '#' *)
            let idx := advance_while not_line_end data idx in
            read_size_tokens fuel' data idx size_tokens (* continue *)
          else
            let start := idx in
            let idx := advance_while not_pbm_space data idx in
            read_size_tokens fuel' data idx
              (size_tokens ++ [py_slice data (Z.of_nat start) (Z.of_nat idx)])
    end
  else Ret (idx, size_tokens).

Definition starts_with_P4 (data : list byte) : bool :=
  match data with
  | x50 :: x34 :: _ => true
  | _ => false
  end.

(** [load_pbm_mask(path)]; the argument is what
    [Path(path).read_bytes()] does for that path. *)
Definition load_pbm_mask (read_bytes : py (list byte)) : py (option Mask) :=
  match read_bytes with
  | Raise OSError => Ret None
  | Raise e => Raise e
  | Ret data =>
      if negb (starts_with_P4 data) then Ret None
      else
        let data_len := List.length data in
        hdr <~ read_size_tokens data_len data 2 [] ;;
        let '(idx, size_tokens) := hdr in
        match size_tokens with
        | [token_w; token_h] =>
            match (width <~ py_int_of_bytes token_w ;;
                   height <~ py_int_of_bytes token_h ;;
                   Ret (width, height)) with
            | Raise ValueError => Ret None
            | Raise e => Raise e
            | Ret (width, height) =>
                let idx := advance_while is_pbm_space data idx in
                let row_bytes := (width + 7) / 8 in
                let expected := row_bytes * height in
                let payload :=
                  py_slice data (Z.of_nat idx) (Z.of_nat idx + expected) in
                if negb (Z.of_nat (List.length payload) =? expected) then Ret None
                else Ret (Some (mkMask width height row_bytes payload))
            end
        | _ => Ret None
        end
  end.

(** Byte strings are written as Rocq strings in the examples. *)
Definition bytes_of (s : string) : list byte := list_byte_of_string s.

(** ** The mask registry (refresh_verified_sigil_registry) *)

(** Where assets live: [VERIFIED_SIGIL_PBM_DIR] and [ASSET_DIR]. *)
Inductive Dir : Set := PbmDir | AssetDir.

Definition Path : Type := Dir * string.

Definition grand_seal_name : string := "the_grand_seal_of_lilith.pbm".
Definition LILITH_GRAND_SEAL_PBM : Path := (AssetDir, grand_seal_name).

(** The file system as the registry sees it: [None] when [path.exists()]
    is false, otherwise what [read_bytes()] does. *)
Definition FileSystem : Type := Path -> option (py (list byte)).

Definition read_bytes (fs : FileSystem) (p : Path) : py (list byte) :=
  match fs p with
  | Some r => r
  | None => Raise OSError (* FileNotFoundError *)
  end.

Definition path_exists (fs : FileSystem) (p : Path) : bool :=
  match fs p with Some _ => true | None => false end.

Definition _resolve_registry_pbm_path (fs : FileSystem) (filename : string)
    : option Path :=
  let candidates := [(PbmDir, filename); (AssetDir, filename)] in
  let candidates :=
    if String.eqb filename grand_seal_name
    then LILITH_GRAND_SEAL_PBM :: candidates else candidates in
  List.find (path_exists fs) candidates.

(** One element of the index document's ["sigils"] array, field by field
    as the loop reads it. *)
Record IndexEntry : Type := mkIndexEntry {
  entry_id : py Z;                 (* int(entry.get("id")) *)
  entry_pbm : string;              (* str(entry.get("pbm", "")) *)
  entry_entity : string;           (* str(entry.get("entity", "")) *)
  entry_source_title : string;     (* str(entry.get("source_title", "")) *)
  entry_weight : option (py Q)     (* float(...) of the "weight" key, if present *)
}.

Inductive IndexFile : Type :=
| IndexUnreachable (e : exn)       (* VERIFIED_SIGIL_INDEX_PATH.exists() raises *)
| IndexAbsent                      (* VERIFIED_SIGIL_INDEX_PATH.exists() is false *)
| IndexBroken (e : exn)            (* read_text / json.loads / payload.get raises *)
| IndexSigils (sigils : list IndexEntry).

(** A registry item: [dict(entry)] plus the keys the loop adds.  The
    fallback item has no flag keys, so [e.get(...)] is [None] there. *)
Record RegistryItem : Type := mkItem {
  item_id : Z;
  item_pbm : string;
  item_weight : option (py Q);
  item_mask_path : Path;
  item_is_lilith_grand : option bool;
  item_is_lilith_sigil : option bool
}.

(** The module-level state the registry owns. *)
Record Globals : Type := mkGlobals {
  VERIFIED_SIGIL_REGISTRY : list RegistryItem;
  SIGIL_MASKS_BY_ID : gmap Z Mask;
  ACTIVE_VERIFIED_SIGIL_IDS : list Z;
  ACTIVE_SIGIL_WEIGHT_TABLE : list (Z * Q);
  ACTIVE_SIGIL_TOTAL_WEIGHT : Q;
  MAX_PROCEDURAL_SIGIL_ID : Z;
  LILITH_SIGIL_ID : Z;
  LILITH_GRAND_SEAL_ID : Z
}.

(** The values the module assigns before the first refresh. *)
Definition initial_globals : Globals :=
  mkGlobals [] ∅ [1] [(1, 1%Q)] 1%Q 1 1 1.

Definition LILITH_GRAND_SEAL_RENDER_BONUS : Q := 0.033.

(** [str.lower], [str.strip] and [in] on ASCII text. *)
Definition lower_ascii (c : ascii) : ascii :=
  let n := nat_of_ascii c in
  if (65 <=? n)%nat && (n <=? 90)%nat then ascii_of_nat (n + 32) else c.

Fixpoint lower (s : string) : string :=
  match s with
  | EmptyString => EmptyString
  | String c s' => String (lower_ascii c) (lower s')
  end.

Definition is_str_space (c : ascii) : bool :=
  let n := nat_of_ascii c in
  ((9 <=? n)%nat && (n <=? 13)%nat) || ((28 <=? n)%nat && (n <=? 32)%nat).

Fixpoint str_lstrip (s : string) : string :=
  match s with
  | EmptyString => EmptyString
  | String c s' => if is_str_space c then str_lstrip s' else s
  end.

Fixpoint str_rev (acc s : string) : string :=
  match s with
  | EmptyString => acc
  | String c s' => str_rev (String c acc) s'
  end.

Definition str_strip (s : string) : string :=
  str_rev EmptyString (str_lstrip (str_rev EmptyString (str_lstrip s))).

Fixpoint contains (needle hay : string) : bool :=
  String.prefix needle hay ||
  match hay with
  | EmptyString => false
  | String _ hay' => contains needle hay'
  end.

(** The accumulators of the index loop. *)
Record IndexScan : Type := mkScan {
  scan_registry : list RegistryItem;
  scan_masks : gmap Z Mask;
  detected_lilith_sigil_id : option Z;
  detected_lilith_grand_id : option Z
}.

(** The body of [for entry in payload.get("sigils", [])]. *)
Definition index_entry_step (fs : FileSystem) (acc : IndexScan)
    (entry : IndexEntry) : py IndexScan :=
  sid <~ entry_id entry ;;
  let pbm_name := str_strip (entry_pbm entry) in
  if String.eqb pbm_name "" then Ret acc (* continue *)
  else
    let low := lower (entry_entity entry ++ " " ++ entry_source_title entry
                      ++ " " ++ pbm_name)%string in
    let is_lilith := contains "lilith" low in
    let is_grand := is_lilith && contains "grand" low in
    let is_sigil := is_lilith && contains "sigil" low && negb is_grand in
    match _resolve_registry_pbm_path fs pbm_name with
    | None => Ret acc (* continue *)
    | Some pbm_path =>
        mask <~ load_pbm_mask (read_bytes fs pbm_path) ;;
        match mask with
        | None => Ret acc (* continue *)
        | Some mask =>
            let item := mkItem sid (entry_pbm entry) (entry_weight entry)
                          pbm_path (Some is_grand) (Some is_sigil) in
            Ret (mkScan (scan_registry acc ++ [item])
                        (<[sid := mask]> (scan_masks acc))
                        (if is_sigil then Some sid
                         else detected_lilith_sigil_id acc)
                        (if is_grand then Some sid
                         else detected_lilith_grand_id acc))
        end
    end.

(** The loop; a raise anywhere leaves the [try] block, and the handler
    empties [registry] and [masks] but not the detected ids. *)
Fixpoint index_loop (fs : FileSystem) (acc : IndexScan)
    (sigils : list IndexEntry) : IndexScan :=
  match sigils with
  | [] => acc
  | entry :: rest =>
      match index_entry_step fs acc entry with
      | Ret acc' => index_loop fs acc' rest
      | Raise _ =>
          mkScan [] ∅ (detected_lilith_sigil_id acc)
                 (detected_lilith_grand_id acc)
      end
  end.

(** [if VERIFIED_SIGIL_INDEX_PATH.exists(): try: ... except Exception:
    ...].  The test itself stands outside the [try]: what it raises
    (a [PermissionError] on a directory that cannot be searched, say)
    leaves the function. *)
Definition scan_index (fs : FileSystem) (index : IndexFile) : py IndexScan :=
  let start := mkScan [] ∅ None None in
  match index with
  | IndexUnreachable e => Raise e
  | IndexAbsent => Ret start
  | IndexBroken _ => Ret start
  | IndexSigils sigils => Ret (index_loop fs start sigils)
  end.

(** [registry.sort(key=lambda e: e["id"])]: a stable sort. *)
Fixpoint insert_by_id (e : RegistryItem) (sorted : list RegistryItem)
    : list RegistryItem :=
  match sorted with
  | [] => [e]
  | e' :: rest =>
      if item_id e <=? item_id e' then e :: sorted
      else e' :: insert_by_id e rest
  end.

Definition sort_by_id (registry : list RegistryItem) : list RegistryItem :=
  fold_right insert_by_id [] registry.

Definition truthy (flag : option bool) : bool := default false flag.

(** The loop [for e in registry: ...] that builds the weight table. *)
Fixpoint build_weights (registry : list RegistryItem)
    (weights : list (Z * Q)) (total : Q) : py (list (Z * Q) * Q) :=
  match registry with
  | [] => Ret (weights, total)
  | e :: rest =>
      w <~ match item_weight e with
           | None => Ret 1%Q
           | Some r => r
           end ;;
      let w :=
        if truthy (item_is_lilith_grand e)
        then (1 + LILITH_GRAND_SEAL_RENDER_BONUS)%Q
        else if truthy (item_is_lilith_sigil e) then 1%Q else w in
      let w := Qmax 0.01 w in
      build_weights rest (weights ++ [(item_id e, w)]) (total + w)%Q
  end.

Definition refresh_verified_sigil_registry (fs : FileSystem)
    (index : IndexFile) (G : Globals) : py Globals :=
  sc <~ scan_index fs index ;;
  let registry := scan_registry sc in
  let masks := scan_masks sc in
  (* Fallback minimal registry if index is unavailable. *)
  rm <~ (if negb (Nat.eqb (List.length registry) 0) then Ret (registry, masks)
         else
           mask <~ load_pbm_mask (read_bytes fs LILITH_GRAND_SEAL_PBM) ;;
           match mask with
           | Some mask =>
               Ret ([mkItem (LILITH_SIGIL_ID G) grand_seal_name
                       (Some (Ret 4.2%Q)) LILITH_GRAND_SEAL_PBM None None],
                    ({[ LILITH_SIGIL_ID G := mask ]} : gmap Z Mask))
           | None => Ret (registry, masks)
           end) ;;
  let '(registry, masks) := rm in
  let registry := sort_by_id registry in
  let grand_id :=
    match detected_lilith_grand_id sc with
    | Some i => i
    | None => LILITH_GRAND_SEAL_ID G
    end in
  let sigil_id :=
    match detected_lilith_sigil_id sc, detected_lilith_grand_id sc with
    | Some i, _ => i
    | None, Some i => i
    | None, None => LILITH_SIGIL_ID G
    end in
  match registry with
  | _ :: _ =>
      let ids := map item_id registry in
      wt <~ build_weights registry [] 0%Q ;;
      let '(weights, total) := wt in
      Ret (mkGlobals registry masks ids weights (Qmax total 0.01)
                     (List.last ids 0) sigil_id grand_id)
  | [] =>
      Ret (mkGlobals registry masks [sigil_id] [(sigil_id, 1%Q)] 1%Q
                     sigil_id sigil_id grand_id)
  end.

(** A file system that holds the built-in raster asset and nothing else. *)
Definition only_grand_seal (content : list byte) : FileSystem :=
  fun p => if String.eqb (snd p) grand_seal_name
           then match fst p with
                | AssetDir => Some (Ret content)
                | PbmDir => None
                end
           else None.

(** ** The weighted draw (pick_weighted_sigil_id) *)

(** [for sid, weight in table: roll -= weight; if roll <= 0.0: return sid] *)
Fixpoint weighted_loop (table : list (Z * Q)) (roll : Q) : option Z :=
  match table with
  | [] => None
  | (sid, weight) :: rest =>
      let roll := float_round (roll - weight) in
      if Qle_bool roll 0 then Some sid else weighted_loop rest roll
  end.

Definition pick_weighted_sigil_id (G : Globals) (trng : Trng) : Z * Trng :=
  match ACTIVE_SIGIL_WEIGHT_TABLE G with
  | [] => (LILITH_SIGIL_ID G, trng)
  | table =>
      let '(u, trng) := trng_random trng in
      let roll := float_round (u * ACTIVE_SIGIL_TOTAL_WEIGHT G) in
      match weighted_loop table roll with
      | Some sid => (sid, trng)
      | None => (fst (List.last table (0, 0%Q)), trng)
      end
  end.

(** Cumulative-weight roulette selection as the specification words it:
    the sample is scaled by the total weight, the weights are subtracted
    in table order, and the id is the one at which the running remainder
    becomes [<= 0]; the last id when it never does.  The remainder is
    the one the machine keeps: every product and difference is a double.

    [running_remainder table roll k] is what is left of [roll] once the
    weights of the entries [0 .. k] have been subtracted. *)
Fixpoint running_remainder (table : list (Z * Q)) (roll : Q) (k : nat) : Q :=
  match table with
  | [] => roll
  | (_, weight) :: rest =>
      let roll := float_round (roll - weight) in
      match k with
      | O => roll
      | S k' => running_remainder rest roll k'
      end
  end.

Definition roulette (table : list (Z * Q)) (total u : Q) : Z :=
  let roll := float_round (u * total) in
  match List.find (fun k => Qle_bool (running_remainder table roll k) 0)
                  (seq 0 (List.length table)) with
  | Some k => fst (nth k table (0, 0%Q))
  | None => fst (List.last table (0, 0%Q))
  end.

(** ** Python sequences and arithmetic that can raise *)

(** [l[i]] with Python's negative indices. *)
Definition py_getitem {A : Type} (l : list A) (i : Z) : py A :=
  let len := Z.of_nat (List.length l) in
  let j := if i <? 0 then i + len else i in
  if (0 <=? j) && (j <? len) then
    match nth_error l (Z.to_nat j) with
    | Some a => Ret a
    | None => Raise IndexError
    end
  else Raise IndexError.

(** [a % b] on [int], [a / b] on [float]. *)
Definition py_mod (a b : Z) : py Z :=
  if b =? 0 then Raise ZeroDivisionError else Ret (a mod b).

Definition py_div (a b : Q) : py Q :=
  if Qeq_bool b 0 then Raise ZeroDivisionError else Ret (a / b)%Q.

Fixpoint py_fold {A S : Type} (f : S -> A -> py S) (l : list A) (s : S) : py S :=
  match l with
  | [] => Ret s
  | a :: l' => s' <~ f s a ;; py_fold f l' s'
  end.

(** [any(f(a) for a in l)], and equally a loop that leaves at the first
    hit. *)
Fixpoint py_any {A : Type} (f : A -> py bool) (l : list A) : py bool :=
  match l with
  | [] => Ret false
  | a :: l' => b <~ f a ;; if b then Ret true else py_any f l'
  end.

(** [range(a, b)] *)
Definition py_range2 (a b : Z) : list Z :=
  map (fun i => a + Z.of_nat i) (seq 0 (Z.to_nat (b - a))).

Definition byte_val (b : byte) : Z := Z.of_N (Byte.to_N b).

(** ** The intent gate (main, "Focus/intention proxy") *)

Definition near_pair (b1 b2 : byte) : bool :=
  let delta := Z.abs (byte_val b1 - byte_val b2) in
  (delta <=? 1) || (254 <=? delta).

(** [for _ in range(focus_sample_count): ...], [n] iterations left. *)
Fixpoint focus_loop (n : nat) (entropy_pool : list byte) (focus_stride : Z)
    (cursor convergence_hits : Z) : py Z :=
  match n with
  | O => Ret convergence_hits
  | S n' =>
      let len := Z.of_nat (List.length entropy_pool) in
      b1 <~ py_getitem entropy_pool cursor ;;
      i2 <~ py_mod (cursor + focus_stride) len ;;
      b2 <~ py_getitem entropy_pool i2 ;;
      let convergence_hits :=
        if near_pair b1 b2 then convergence_hits + 1 else convergence_hits in
      let cursor := cursor + focus_stride in
      let cursor := if len <=? cursor then cursor - len else cursor in
      focus_loop n' entropy_pool focus_stride cursor convergence_hits
  end.

Definition focus_sample_count (entropy_pool : list byte) : Z :=
  Z.min 160 (Z.of_nat (List.length entropy_pool)).

Definition focus_stride (entropy_pool : list byte) : Z :=
  Z.max 1 (Z.of_nat (List.length entropy_pool)
           / Z.max 1 (focus_sample_count entropy_pool)).

Record Intent : Type := mkIntent {
  convergence_hits : Z;
  intent_gate_open : bool;
  intent_target : Q;
  intent_dilation' : Q       (* intent_dilation after this frame's update *)
}.

(** Lines 655-676 of main.  [sqrt] stands for [math.sqrt]. *)
Definition intent_gate (sqrt : Q -> Q) (entropy_pool : list byte)
    (intent_dilation : Q) : py Intent :=
  let count := focus_sample_count entropy_pool in
  hits <~ focus_loop (Z.to_nat count) entropy_pool
            (focus_stride entropy_pool) 0 0 ;;
  let gate_open := 4 <=? hits in
  let p_pair := (3 / 256)%Q in
  let expected_hits := (inject_Z count * p_pair)%Q in
  let variance := Qmax (1 # 1000000) (inject_Z count * p_pair * (1 - p_pair)) in
  z_score <~ py_div (inject_Z hits - expected_hits) (sqrt variance) ;;
  let target := Qmax 0 (Qmin 1.5 (z_score / 4)) in
  Ret (mkIntent hits gate_open target
         (intent_dilation + (target - intent_dilation) * 0.08)%Q).

(** The convergence count as the specification words it: over the
    strided sample, the number of positions whose byte and the byte one
    stride further on (wrapping around) differ by at most 1 or at least
    254. *)
Definition strided_position (entropy_pool : list byte) (i : nat) : Z :=
  (Z.of_nat i * focus_stride entropy_pool)
    mod Z.of_nat (List.length entropy_pool).

Definition strided_hit (entropy_pool : list byte) (i : nat) : bool :=
  let len := Z.of_nat (List.length entropy_pool) in
  let p := strided_position entropy_pool i in
  let q := (p + focus_stride entropy_pool) mod len in
  near_pair (nth (Z.to_nat p) entropy_pool x00)
            (nth (Z.to_nat q) entropy_pool x00).

Definition strided_hits (entropy_pool : list byte) : Z :=
  Z.of_nat (List.length
    (List.filter (strided_hit entropy_pool)
       (seq 0 (Z.to_nat (focus_sample_count entropy_pool))))).

(** ** Mask geometry *)

Definition mask_bit (mask : Mask) (mx my : Z) : py Z :=
  if (mx <? 0) || (my <? 0) || (mask_width mask <=? mx)
     || (mask_height mask <=? my) then Ret 0
  else
    b <~ py_getitem (mask_payload mask)
           (my * mask_row_bytes mask + Z.shiftr mx 3) ;;
    Ret (Z.land (Z.shiftr (byte_val b) (7 - Z.land mx 7)) 1).

Definition clamp_index (m size : Z) : Z :=
  if m <? 0 then 0 else if size <=? m then size - 1 else m.

(** [int(round(f))] of a product [f].  A product beyond the largest double
    is an infinity, and [round] raises [OverflowError] on it. *)
Definition py_int_round (f : Q) : py Z :=
  if Qle_bool (inject_Z float_max_int) (Qabs f) then Raise OverflowError
  else Ret (py_round f).

(** [width - 1] and [height - 1] are integers of any size; multiplying a
    float by one converts it to a float first, which raises
    [OverflowError] when it is beyond the doubles. *)
Definition uv_to_mask_xy (u v : Q) (mask : Mask) : py (Z * Z) :=
  w <~ py_float_of_int (mask_width mask - 1) ;;
  let fx := ((u + 1) * 0.5 * w)%Q in
  h <~ py_float_of_int (mask_height mask - 1) ;;
  let fy := ((v + 1) * 0.5 * h)%Q in
  mx <~ py_int_round fx ;;
  my <~ py_int_round fy ;;
  Ret (clamp_index mx (mask_width mask), clamp_index my (mask_height mask)).

Definition ring8 : list (Z * Z) :=
  [(-1, -1); (0, -1); (1, -1); (-1, 0); (1, 0); (-1, 1); (0, 1); (1, 1)].

Definition is_mask_edge (mask : Mask) (mx my : Z) : py bool :=
  b <~ mask_bit mask mx my ;;
  if b =? 0 then Ret false
  else
    (* A point is on a thread edge if at least one neighbor is empty. *)
    py_any (fun o => n <~ mask_bit mask (mx + fst o) (my + snd o) ;;
                     Ret (n =? 0)) ring8.

Definition count_empty (bits : list Z) : Z :=
  Z.of_nat (List.length (List.filter (fun b => b =? 0) bits)).

Definition is_mask_corner (mask : Mask) (mx my : Z) : py bool :=
  b <~ mask_bit mask mx my ;;
  if b =? 0 then Ret false
  else
    o1 <~ mask_bit mask (mx - 1) my ;;
    o2 <~ mask_bit mask (mx + 1) my ;;
    o3 <~ mask_bit mask mx (my - 1) ;;
    o4 <~ mask_bit mask mx (my + 1) ;;
    d1 <~ mask_bit mask (mx - 1) (my - 1) ;;
    d2 <~ mask_bit mask (mx + 1) (my - 1) ;;
    d3 <~ mask_bit mask (mx - 1) (my + 1) ;;
    d4 <~ mask_bit mask (mx + 1) (my + 1) ;;
    let orth_empty := count_empty [o1; o2; o3; o4] in
    let diag_empty := count_empty [d1; d2; d3; d4] in
    Ret ((2 <=? orth_empty) || ((1 <=? orth_empty) && (2 <=? diag_empty))).

Definition is_point_on_mask_thread (u v scale : Q) (mask : Mask) : py bool :=
  if Qltb u (-1) || Qgtb u 1 || Qltb v (-1) || Qgtb v 1 then Ret false
  else
    p <~ uv_to_mask_xy u v mask ;;
    let '(mx, my) := p in
    (* Wider probe preserves corners/crevices at terminal resolution. *)
    let probe := if Qle_bool 24 scale then 1
                 else if Qle_bool 14 scale then 2 else 3 in
    py_any (fun oy =>
      py_any (fun ox =>
        let px := mx + ox in
        let py' := my + oy in
        e <~ is_mask_edge mask px py' ;;
        if e then Ret true else is_mask_corner mask px py')
        (py_range2 (- probe) (probe + 1)))
      (py_range2 (- probe) (probe + 1)).

Definition SIGIL_PHASE_WARP : Q := 0.032.
Definition LOCAL_SIGIL_PHASE_NOISE : Q := 0.16.
Definition FIELD_PHASE_NOISE : Q := 0.26.

Definition is_point_in_sigil (G : Globals) (x y type_id : Z)
    (cx cy scale phase_noise : Q) : py bool :=
  u <~ py_div (inject_Z x - cx) (scale * 2) ;;
  v <~ py_div (inject_Z y - cy) scale ;;
  let u := (u + phase_noise * SIGIL_PHASE_WARP)%Q in
  let v := (v - phase_noise * SIGIL_PHASE_WARP)%Q in
  match SIGIL_MASKS_BY_ID G !! type_id with
  | None => Ret false
  | Some mask => is_point_on_mask_thread u v scale mask
  end.

(** ** The glyph catalog, as far as the compositor reads it

    [catalog_families] lists [SIGIL_BLOCKS[k]] for the keys [k] of
    [RANDOM_FAMILY_KEYS] in order; glyphs are code points. *)

Record Catalog : Type := mkCatalog {
  catalog_families : list (list Z);
  UNIFIED_TEXT_GLYPHS : list Z
}.

Definition get_text_glyph (C : Catalog) (entropy_byte : Z) (entropy_val : Q)
    : py Z :=
  let mix := Z.land (Z.lxor (entropy_byte * 2654435761)
                            (py_int_of_float (entropy_val * 4294967295)))
                    0xFFFFFFFF in
  i <~ py_mod mix (Z.of_nat (List.length (catalog_families C))) ;;
  family <~ py_getitem (catalog_families C) i ;;
  let pool := match family with
              | [] => UNIFIED_TEXT_GLYPHS C
              | _ => family
              end in
  let mix2 := Z.land (Z.lxor (Z.lxor (Z.shiftr mix 13) (Z.shiftl mix 7))
                             (entropy_byte * 7919))
                     0xFFFFFFFF in
  j <~ py_mod mix2 (Z.of_nat (List.length pool)) ;;
  py_getitem pool j.

(** ** Names in scope inside [main]

    A name that [main] never assigns is compiled to a global load: the
    module namespace first, then the builtins, then [NameError]. *)

Inductive pyval : Type :=
| PyInt (z : Z)
| PyFloat (q : Q)
| PyObject.            (* anything that is not a number *)

Definition module_objects : list string :=
  ["__name__"; "__doc__"; "__package__"; "__loader__"; "__spec__";
   "__file__"; "__cached__"; "__builtins__";
   "curses"; "time"; "math"; "os"; "random"; "unicodedata"; "Path";
   "hex_to_rgb_1000"; "LOGO";
   "ACTIVE_VERIFIED_SIGIL_IDS"; "ACTIVE_SIGIL_WEIGHT_TABLE";
   "SIGIL_STROKE_CHARS"; "SIGIL_CORE_CHARS"; "SIGIL_EDGE_CHARS";
   "SIGIL_CLOUD_CHARS"; "ASSET_DIR"; "VERIFIED_SIGIL_ROOT";
   "VERIFIED_SIGIL_INDEX_PATH"; "VERIFIED_SIGIL_PBM_DIR";
   "LILITH_GRAND_SEAL_PBM"; "VERIFIED_SIGIL_REGISTRY"; "SIGIL_MASKS_BY_ID";
   "TEXT_SYMBOL_ALLOWLIST"; "EMOJI_BLOCK_RANGES"; "MYCELIUM_CHARS";
   "is_emoji_like_codepoint"; "is_text_stream_safe_char";
   "_append_printable_range"; "_dedupe_keep_order"; "build_sigil_blocks";
   "SIGIL_BLOCKS"; "BLOCK_KEYS"; "NON_LATIN_BLOCK_KEYS";
   "SIGIL_PRIORITY_BLOCK_KEYS"; "CULTURAL_BLOCK_KEYS"; "RANDOM_FAMILY_KEYS";
   "UNIFIED_TEXT_GLYPHS"; "get_text_glyph"; "get_sigil_stroke_char";
   "inject_sigil_excitation"; "pick_weighted_sigil_id";
   "point_to_line_dist"; "load_pbm_mask"; "mask_bit"; "uv_to_mask_xy";
   "is_point_in_mask"; "is_mask_edge"; "is_mask_corner";
   "is_point_on_mask_thread"; "_resolve_registry_pbm_path";
   "refresh_verified_sigil_registry"; "is_point_in_sigil"; "main"]%string.

Definition module_numbers (G : Globals) : list (string * pyval) :=
  [("PHI", PyFloat 1.618033988749895);
   ("E_CONST", PyFloat 2.718281828459045);
   ("SCHUMANN_BASE", PyFloat 7.83);
   ("URFD_RESONANCE", PyFloat 31.4);
   ("LILITH_SIGIL_ID", PyInt (LILITH_SIGIL_ID G));
   ("LILITH_GRAND_SEAL_ID", PyInt (LILITH_GRAND_SEAL_ID G));
   ("LILITH_RENDER_BONUS", PyFloat 0.03);
   ("LILITH_GRAND_SEAL_RENDER_BONUS", PyFloat LILITH_GRAND_SEAL_RENDER_BONUS);
   ("MERCURY_RENDER_BONUS", PyFloat 0.04);
   ("BASE_CORE_GLYPH_CHANCE", PyFloat 0.05);
   ("MERCURY_CHANCE", PyFloat (Qmin 0.95 (0.05 * (1 + 0.04))));
   ("LILITH_TEXT_CHANCE",
    PyFloat (Qmin (0.95 - Qmin 0.95 (0.05 * (1 + 0.04))) (0.05 * (1 + 0.03))));
   ("ACTIVE_SIGIL_TOTAL_WEIGHT", PyFloat (ACTIVE_SIGIL_TOTAL_WEIGHT G));
   ("MAX_PROCEDURAL_SIGIL_ID", PyInt (MAX_PROCEDURAL_SIGIL_ID G));
   ("SIGIL_PHASE_WARP", PyFloat SIGIL_PHASE_WARP);
   ("LOCAL_SIGIL_PHASE_NOISE", PyFloat LOCAL_SIGIL_PHASE_NOISE);
   ("FIELD_PHASE_NOISE", PyFloat FIELD_PHASE_NOISE)]%string.

Definition module_namespace (G : Globals) : list (string * pyval) :=
  module_numbers G ++ map (fun n => (n, PyObject)) module_objects.

(** The builtin functions, types and constants of Python 3 (the builtin
    exception classes, all capitalised, are left out). *)
Definition builtin_names : list string :=
  ["abs"; "aiter"; "all"; "anext"; "any"; "ascii"; "bin"; "bool";
   "breakpoint"; "bytearray"; "bytes"; "callable"; "chr"; "classmethod";
   "compile"; "complex"; "delattr"; "dict"; "dir"; "divmod"; "enumerate";
   "eval"; "exec"; "filter"; "float"; "format"; "frozenset"; "getattr";
   "globals"; "hasattr"; "hash"; "help"; "hex"; "id"; "input"; "int";
   "isinstance"; "issubclass"; "iter"; "len"; "list"; "locals"; "map";
   "max"; "memoryview"; "min"; "next"; "object"; "oct"; "open"; "ord";
   "pow"; "print"; "property"; "range"; "repr"; "reversed"; "round";
   "set"; "setattr"; "slice"; "sorted"; "staticmethod"; "str"; "sum";
   "super"; "tuple"; "type"; "vars"; "zip"; "__import__";
   "True"; "False"; "None"; "Ellipsis"; "NotImplemented"; "__debug__"]%string.

(** The names [main] assigns (its parameter included): its locals. *)
Definition main_locals : list string :=
  ["stdscr"; "startup_key_guard_until"; "color_logo"; "t0"; "trng";
   "entropy_buildup"; "gate_threshold"; "active_pulses"; "pulse_duration";
   "coherence_walker"; "target_coherence"; "excitation_grid";
   "active_sparks"; "active_sigils"; "intent_dilation"; "t"; "height";
   "width"; "entropy_pool"; "glitch_x"; "glitch_y"; "t_base"; "t_pulse";
   "sample_size"; "avg_entropy"; "focus_sample_count"; "focus_stride";
   "convergence_hits"; "cursor"; "_"; "b1"; "b2"; "delta";
   "intent_gate_open"; "p_pair"; "expected_hits"; "variance"; "z_score";
   "intent_target"; "effective_gate_threshold"; "global_coherence";
   "base_spawn"; "boost_spawn"; "cx"; "cy"; "t_id"; "dilation_scale";
   "ignite_chance"; "sig"; "rx"; "ry"; "dead_keys"; "excite_decay"; "k";
   "new_sparks"; "spread_chance"; "sx"; "sy"; "dx"; "dy"; "nx"; "ny";
   "local_ent"; "local_phase_noise"; "is_part_of_sigil"; "y"; "y_base";
   "x"; "x_base"; "ent_val"; "ent_byte"; "local_emergence"; "q_x"; "q_y";
   "r_x"; "r_y"; "phase_noise"; "w1"; "w2"; "w3"; "field"; "pulse";
   "char"; "cp"; "excite"; "fragment"; "render_gate"; "sig_idx";
   "sig_byte"; "sig_val"; "p"; "time_since"; "intensity"; "max_radius";
   "r"; "ring_dist"; "toroid_field"; "lightning_char";
   "lightning_intensity"; "arc"; "abs_f"; "offset_x1"; "offset_y1";
   "hash1"; "offset_x2"; "offset_y2"; "hash2"; "logo_height";
   "logo_width"; "start_y"; "start_x"; "i"; "line"; "j"; "screen_y";
   "screen_x"; "display_char"; "style"; "key"]%string.

Fixpoint assoc (name : string) (ns : list (string * pyval)) : option pyval :=
  match ns with
  | [] => None
  | (n, v) :: ns' => if String.eqb n name then Some v else assoc name ns'
  end.

Definition load_global (G : Globals) (name : string) : py pyval :=
  match assoc name (module_namespace G) with
  | Some v => Ret v
  | None =>
      if existsb (String.eqb name) builtin_names then Ret PyObject
      else Raise NameError
  end.

(** ** The compositor's excitation layer (main, "Layer 4 Rendering") *)

Inductive Attr : Set := A_NORMAL | A_BOLD | A_DIM.

(** What the layer does with the cell: [addstr(y, x, char, cp)] (whose
    [curses.error] is swallowed), or [continue] without drawing. *)
Inductive CellDraw : Type :=
| Drawn (char : Z) (color_pair : Z) (attr : Attr)
| Skipped.

(** The body of [if excite > 0:] for the cell [(x, y)]; [w1], [w2], [w3]
    are the cell's interference scalars and [ent_byte] its entropy byte. *)
Definition excitation_override (G : Globals) (C : Catalog)
    (entropy_pool : list byte) (width x y : Z) (t : Q) (w1 w2 w3 : Q)
    (ent_byte : Z) (excite : Q) : py CellDraw :=
  let ent_val := (inject_Z ent_byte / 255)%Q in
  let fragment :=
    Qmin 1 (Qabs (w1 - w2) * 0.56 + Qabs (w2 - w3) * 0.44) in
  let render_gate :=
    (inject_Z (Z.land (ent_byte * 1103515245 + x * 131 + y * 197) 0xFF)
     / 255)%Q in
  max_entropy_len <~ load_global G "max_entropy_len" ;;
  sig_idx <~ match max_entropy_len with
             | PyInt n => py_mod (y * width + x + py_int_of_float (t * 33.8)) n
             | _ => Raise TypeError (* a float or an object is no index *)
             end ;;
  sig <~ py_getitem entropy_pool sig_idx ;;
  let sig_byte := byte_val sig in
  let sig_val := (inject_Z sig_byte / 255)%Q in
  if Qgtb excite 0.82 || (Qgtb excite 0.68 && Qgtb fragment 0.74) then
    char <~ get_text_glyph C sig_byte sig_val ;;
    Ret (Drawn char 7 A_BOLD)
  else if Qgtb excite 0.42 || Qgtb fragment 0.60 then
    if Qgtb render_gate 0.72 then Ret Skipped
    else
      char <~ get_text_glyph C (Z.lxor sig_byte ent_byte)
                ((sig_val + ent_val) * 0.5)%Q ;;
      Ret (Drawn char 6 (if Qgtb ent_val 0.74 then A_BOLD else A_NORMAL))
  else
    if Qgtb render_gate 0.18 then Ret Skipped
    else
      char <~ get_text_glyph C
                (Z.lxor sig_byte (Z.land (Z.shiftr ent_byte 1) 0xFF))
                (sig_val * 0.6 + ent_val * 0.4)%Q ;;
      Ret (Drawn char 2 A_DIM).

(** ** The frame (one turn of [while True:] in main) *)

Record Pulse : Type := mkPulse {
  pulse_start_time : Q;
  pulse_cx : Z;
  pulse_cy : Z
}.

Record Sigil : Type := mkSigil {
  sigil_start_time : Q;
  sigil_cx : Q;
  sigil_cy : Q;
  sigil_scale : Q;
  sigil_type_id : Z;
  sigil_life : Q
}.

(** The state [main] carries from frame to frame. *)
Record MainState : Type := mkState {
  entropy_buildup : Q;
  active_pulses : list Pulse;
  coherence_walker : Q;
  target_coherence : Q;
  excitation_grid : gmap (Z * Z) Q;
  active_sparks : gset (Z * Z);
  active_sigils : list Sigil;
  intent_dilation : Q;
  trng : Trng
}.

Definition initial_state (r : Trng) : MainState :=
  mkState 0 [] 0.5 0.5 ∅ ∅ [] 0 r.

(** What the field generator hands the compositor for one cell.  The
    values come out of [math.sin] and [math.cos] (and, for the last two,
    out of the toroidal override as well), so they are inputs here. *)
Record FieldSample : Type := mkField {
  fs_w1 : Q;
  fs_w2 : Q;
  fs_w3 : Q;
  fs_pulse : Q;             (* [pulse] when the spark seeding reads it *)
  fs_local_emergence : Q    (* [local_emergence] at the same point *)
}.

(** What one frame reads from outside. *)
Record FrameInput : Type := mkInput {
  frame_t : Q;                            (* time.time() - t0 *)
  frame_height : Z;                       (* stdscr.getmaxyx() *)
  frame_width : Z;
  frame_entropy : list byte;              (* os.urandom(width * height) *)
  frame_field : Z -> Z -> FieldSample
}.

Definition gate_threshold : Q := 2.
Definition pulse_duration : Q := 3.

Definition in_grid (x y width height : Z) : bool :=
  (0 <=? x) && (x <? width) && (0 <=? y) && (y <? height).

(** [for sig in active_sigils: if trng.random() < ignite_chance: ...] *)
Definition ignite_step (G : Globals) (width height : Z) (ignite_chance : Q)
    (acc : gmap (Z * Z) Q * gset (Z * Z) * Trng) (sig : Sigil)
    : py (gmap (Z * Z) Q * gset (Z * Z) * Trng) :=
  let '(grid, sparks, r) := acc in
  let '(u, r) := trng_random r in
  if Qltb u ignite_chance then
    let '(a, r) := trng_uniform (- sigil_scale sig * 2) (sigil_scale sig * 2) r in
    let rx := py_int_of_float (sigil_cx sig + a) in
    let '(b, r) := trng_uniform (- sigil_scale sig) (sigil_scale sig) r in
    let ry := py_int_of_float (sigil_cy sig + b) in
    if in_grid rx ry width height then
      hit <~ is_point_in_sigil G rx ry (sigil_type_id sig) (sigil_cx sig)
               (sigil_cy sig) (sigil_scale sig) 0 ;;
      if hit
      then Ret (inject_sigil_excitation grid sparks rx ry 1 r width height false)
      else Ret (grid, sparks, r)
    else Ret (grid, sparks, r)
  else Ret (grid, sparks, r).

(** The decay loops: subtract everywhere, then delete the dead keys. *)
Definition excite_decay (intent_dilation : Q) (gate_open : bool) : Q :=
  Qmax 0.08 (0.12 - (if gate_open then intent_dilation * 0.015 else 0)).

Definition decay_grid (grid : gmap (Z * Z) Q) (decay : Q) : gmap (Z * Z) Q :=
  omap (fun v => if Qle_bool v 0 then None else Some v)
       ((fun v => (v - decay)%Q) <$> grid).

Definition on_any_sigil (G : Globals) (sigils : list Sigil) (x y : Z)
    (phase_noise : Q) : py bool :=
  py_any (fun sig => is_point_in_sigil G x y (sigil_type_id sig)
                       (sigil_cx sig) (sigil_cy sig) (sigil_scale sig)
                       phase_noise) sigils.

(** One candidate of the propagation: the neighbour [d] of the spark [s]. *)
Definition spread_step (G : Globals) (entropy_pool : list byte)
    (sigils : list Sigil) (width height : Z) (spread_chance : Q) (s : Z * Z)
    (acc : gmap (Z * Z) Q * gset (Z * Z) * Trng) (d : Z * Z)
    : py (gmap (Z * Z) Q * gset (Z * Z) * Trng) :=
  let '(grid, new_sparks, r) := acc in
  let nx := fst s + fst d in
  let ny := snd s + snd d in
  if in_grid nx ny width height then
    if match grid !! (nx, ny) with
       | None => true
       | Some v => Qltb v 0.2
       end
    then
      e <~ py_getitem entropy_pool (ny * width + nx) ;;
      let local_ent := (inject_Z (byte_val e) / 255)%Q in
      let local_phase_noise := (local_ent * LOCAL_SIGIL_PHASE_NOISE)%Q in
      is_part_of_sigil <~ on_any_sigil G sigils nx ny local_phase_noise ;;
      if is_part_of_sigil then
        let '(u, r) := trng_random r in
        if Qltb u spread_chance
        then Ret (inject_sigil_excitation grid new_sparks nx ny 0.94 r
                    width height false)
        else Ret (grid, new_sparks, r)
      else Ret acc
    else Ret acc
  else Ret acc.

Definition propagate (G : Globals) (entropy_pool : list byte)
    (sigils : list Sigil) (width height : Z) (spread_chance : Q)
    (active_sparks : gset (Z * Z)) (grid : gmap (Z * Z) Q) (r : Trng)
    : py (gmap (Z * Z) Q * gset (Z * Z) * Trng) :=
  py_fold (fun acc s =>
             py_fold (spread_step G entropy_pool sigils width height
                        spread_chance s) neighbors acc)
          (elements active_sparks) (grid, ∅, r).

(** The cells the render loops visit, in order:
    [for y in range(height - 1): for x in range(width - 1):]. *)
Definition render_cells (height width : Z) : list (Z * Z) :=
  flat_map (fun y => map (fun x => (x, y)) (py_range (width - 1)))
           (py_range (height - 1)).

(** What the pass over one cell does to the state: the excitation layer
    when the cell is excited, otherwise the spark seeding.  The glyphs the
    other layers pick are drawn and forgotten. *)
Definition render_cell (G : Globals) (C : Catalog) (inp : FrameInput)
    (sigils : list Sigil)
    (acc : gmap (Z * Z) Q * gset (Z * Z) * Trng) (c : Z * Z)
    : py (gmap (Z * Z) Q * gset (Z * Z) * Trng) :=
  let '(grid, sparks, r) := acc in
  let '(x, y) := c in
  let width := frame_width inp in
  let height := frame_height inp in
  e <~ py_getitem (frame_entropy inp) (y * width + x) ;;
  let ent_byte := byte_val e in
  let ent_val := (inject_Z ent_byte / 255)%Q in
  let f := frame_field inp x y in
  let phase_noise := (ent_val * FIELD_PHASE_NOISE)%Q in
  let excite := grid_get grid (x, y) in
  if Qgtb excite 0 then
    _ <~ excitation_override G C (frame_entropy inp) width x y (frame_t inp)
           (fs_w1 f) (fs_w2 f) (fs_w3 f) ent_byte excite ;;
    Ret acc (* Override the base field for this cell entirely *)
  else
    (* Spawn new negentropy sparks when conditions are perfect *)
    if Qgtb (fs_pulse f) 0.85 && Qgtb ent_val 0.9
       && Qgtb (fs_local_emergence f) 0.35 then
      hit <~ on_any_sigil G sigils x y phase_noise ;;
      if hit
      then Ret (inject_sigil_excitation grid sparks x y 1 r width height false)
      else Ret acc
    else Ret acc.

Definition sum_bytes (bs : list byte) : Z :=
  fold_right (fun b acc => byte_val b + acc) 0 bs.

(** One frame.  [sqrt] stands for [math.sqrt]. *)
Definition main_frame (sqrt : Q -> Q) (G : Globals) (C : Catalog)
    (inp : FrameInput) (st : MainState) : py MainState :=
  let t := frame_t inp in
  let height := frame_height inp in
  let width := frame_width inp in
  if (height <? 10) || (width <? 40) then Ret st (* "Terminal too small" *)
  else
    let entropy_pool := frame_entropy inp in
    let len := Z.of_nat (List.length entropy_pool) in
    let r := trng st in
    (* Macro glitch: moves the logo only, but draws from the tape. *)
    let '(u, r) := trng_random r in
    let r := if Qltb u 0.05
             then snd (trng_randint (-1) 1 (snd (trng_randint (-2) 2 r)))
             else r in
    let sample_size := Z.min 1000 len in
    mean <~ py_div (inject_Z (sum_bytes (firstn (Z.to_nat sample_size)
                                                entropy_pool)))
                   (inject_Z sample_size) ;;
    let avg_entropy := (mean / 255)%Q in
    it <~ intent_gate sqrt entropy_pool (intent_dilation st) ;;
    let gate_open := intent_gate_open it in
    let dilation := intent_dilation' it in
    let buildup :=
      if Qgtb avg_entropy 0.51
      then (entropy_buildup st + (avg_entropy - 0.5) * 15)%Q
      else Qmax 0 (entropy_buildup st - 0.05) in
    let effective_gate_threshold := Qmax 1.4 (gate_threshold - dilation * 0.25) in
    let '(buildup, pulses, r) :=
      if Qgtb buildup effective_gate_threshold then
        let '(ox, r) := trng_randint ((- width) / 3) (width / 3) r in
        let '(oy, r) := trng_randint ((- height) / 3) (height / 3) r in
        (0%Q, active_pulses st ++ [mkPulse t (width / 2 + ox) (height / 2 + oy)], r)
      else (buildup, active_pulses st, r) in
    let pulses :=
      List.filter (fun p => Qle_bool (t - pulse_start_time p) pulse_duration)
                  pulses in
    let '(u, r) := trng_random r in
    let '(target, r) :=
      if Qltb u 0.02 then trng_uniform 0.15 1.2 r
      else (target_coherence st, r) in
    let walker := (coherence_walker st + (target - coherence_walker st) * 0.02)%Q in
    let '(base_spawn, r) :=
      if Qgtb avg_entropy 0.52
      then let '(u, r) := trng_random r in (Qltb u 0.18, r)
      else (false, r) in
    let '(boost_spawn, r) :=
      if gate_open && Qgtb avg_entropy (0.505 - Qmin 0.01 (dilation * 0.006))
      then let '(u, r) := trng_random r in
           (Qltb u (Qmin 0.12 (0.03 + dilation * 0.04)), r)
      else (false, r) in
    let '(sigils, r) :=
      if base_spawn || boost_spawn then
        let '(cx, r) := trng_uniform (- inject_Z width * 0.5)
                                     (inject_Z width * 1.5) r in
        let '(cy, r) := trng_uniform (- inject_Z height * 0.5)
                                     (inject_Z height * 1.5) r in
        let '(t_id, r) := pick_weighted_sigil_id G r in
        let dilation_scale := (1 + dilation * (if gate_open then 0.20 else 0))%Q in
        let '(sc, r) := trng_uniform (inject_Z height * 0.3)
                                     (inject_Z height * 1.2) r in
        let '(lf, r) := trng_uniform 8 20 r in
        (active_sigils st
           ++ [mkSigil t cx cy (sc * dilation_scale) t_id
                 (lf * (1 + dilation * (if gate_open then 0.30 else 0)))%Q], r)
      else (active_sigils st, r) in
    let sigils :=
      List.filter (fun s => Qle_bool (t - sigil_start_time s) (sigil_life s))
                  sigils in
    let ignite_chance :=
      Qmin 0.80 (0.40 + (if gate_open then dilation * 0.12 else 0)) in
    ig <~ py_fold (ignite_step G width height ignite_chance) sigils
            (excitation_grid st, active_sparks st, r) ;;
    let '(grid, sparks, r) := ig in
    let grid := decay_grid grid (excite_decay dilation gate_open) in
    let spread_chance :=
      Qmin 0.72 (0.56 + (if gate_open then dilation * 0.05 else 0)) in
    pr <~ propagate G entropy_pool sigils width height spread_chance
            sparks grid r ;;
    rd <~ py_fold (render_cell G C inp sigils) (render_cells height width) pr ;;
    let '(grid, sparks, r) := rd in
    Ret (mkState buildup pulses walker target grid sparks sigils dilation r).

(** A run of frames from a given state. *)
Definition run_frames (sqrt : Q -> Q) (G : Globals) (C : Catalog)
    (inputs : list FrameInput) (st : MainState) : py MainState :=
  py_fold (fun st inp => main_frame sqrt G C inp st) inputs st.

(** Every cell that is present holds an intensity of [(0, 1]]. *)
Definition grid_in_range (grid : gmap (Z * Z) Q) : Prop :=
  forall (k : Z * Z) (v : Q), grid !! k = Some v -> (0 < v /\ v <= 1)%Q.

(** A positive stand-in for [math.sqrt], to run the model: the
    arithmetic mean of 1 and [v], which bounds the square root from above. *)
Definition sqrt_upper (v : Q) : Q := ((1 + v) * (1 # 2))%Q.

(** The weights of a table, summed. *)
Definition sum_weights (table : list (Z * Q)) : Q :=
  fold_right Qplus 0%Q (map snd table).

(** The pair of positions the gate compares at step [i], for a given
    stride. *)
Definition hit_at (entropy_pool : list byte) (stride : Z) (i : nat) : bool :=
  let len := Z.of_nat (List.length entropy_pool) in
  let p := (Z.of_nat i * stride) mod len in
  near_pair (nth (Z.to_nat p) entropy_pool x00)
            (nth (Z.to_nat ((p + stride) mod len)) entropy_pool x00).

(** ** A concrete scene, to run frames on

    The registry holds the built-in asset alone, an 8 x 1 raster with
    every pixel set; the viewport is 40 x 10; the entropy buffer is all
    [0xff] and the field generator reports full pulse and emergence
    everywhere, so that spark seeding fires wherever a sigil's outline
    lies.  The tape makes the first frame spawn one sigil at the centre of
    the screen and keeps it from igniting. *)

Definition seal_globals : Globals :=
  match refresh_verified_sigil_registry
          (only_grand_seal (bytes_of "P4 8 1" ++ [x0a; xff])) IndexAbsent
          initial_globals with
  | Ret G => G
  | Raise _ => initial_globals
  end.

Definition scene_tape : Trng :=
  mkTrng (fun n => match n with
                   | 4%nat => 0.1%Q
                   | 6%nat | 7%nat | 8%nat | 9%nat | 10%nat => 0.5%Q
                   | _ => 0.9%Q
                   end)
         (fun _ => 0) 0.

Definition bright_frame (t : Q) : FrameInput :=
  mkInput t 10 40 (repeat xff 400) (fun _ _ => mkField 0 0 0 1 1).

Definition star_catalog : Catalog := mkCatalog [[42]] [42].

(** A second scene: no pulse anywhere, so nothing is seeded; the tape
    spawns a sigil near the right edge and ignites it once, in the last
    column, which the render loops never visit. *)
Definition edge_tape : Trng :=
  mkTrng (fun n => match n with
                   | 4%nat | 11%nat => 0.1%Q
                   | 6%nat => 0.7%Q
                   | 12%nat => 0.6%Q
                   | 7%nat | 8%nat | 9%nat | 10%nat | 13%nat => 0.5%Q
                   | _ => 0.9%Q
                   end)
         (fun _ => 0) 0.

Definition dark_frame (t : Q) : FrameInput :=
  mkInput t 10 40 (repeat xff 400) (fun _ _ => mkField 0 0 0 0 1).

(** A third registry: the built-in asset is the header [P4 99..9 0] with
    four hundred nines, a raster of height 0 and no payload whose width is
    beyond the doubles. *)
Definition wide_seal : list byte :=
  bytes_of "P4 " ++ repeat x39 400 ++ bytes_of " 0".

Definition wide_mask : Mask :=
  mkMask (10 ^ 400 - 1) 0 ((10 ^ 400 + 6) / 8) [].

Definition wide_globals : Globals :=
  match refresh_verified_sigil_registry
          (only_grand_seal wide_seal) IndexAbsent initial_globals with
  | Ret G => G
  | Raise _ => initial_globals
  end.

(** The invariant, on the triple the phases of a frame pass along. *)
Definition triple_in_range (acc : gmap (Z * Z) Q * gset (Z * Z) * Trng) : Prop :=
  grid_in_range acc.1.1.

(** ** The raster format, in words

    [stops cond rest]: a scan for [cond] halts at the front of [rest]. *)
Definition stops (cond : byte -> bool) (rest : list byte) : Prop :=
  match rest with
  | [] => True
  | b :: _ => cond b = false
  end.

(** What the header loop skips between tokens: white space, and comments
    running from [#] to the next CR or LF. *)
Inductive header_gap : list byte -> Prop :=
| gap_nil : header_gap []
| gap_space (b : byte) (gap : list byte) :
    is_pbm_space b = true -> header_gap gap -> header_gap (b :: gap)
| gap_comment (body : list byte) (nl : byte) (gap : list byte) :
    Forall (fun b => not_line_end b = true) body ->
    not_line_end nl = false ->
    header_gap gap ->
    header_gap (x23 :: body ++ nl :: gap).

(** A token: non-empty, free of white space, not starting a comment. *)
Definition pbm_word (token : list byte) : Prop :=
  match token with
  | [] => False
  | b :: rest =>
      is_pbm_space b = false /\ b <> x23 /\
      Forall (fun c => not_pbm_space c = true) rest
  end.

(** [header_tokens toks consumed rest]: [consumed] is made of one gap
    and one token for each token of [toks], each token ending where white
    space or the end of the data follows; [rest] is what comes after. *)
Inductive header_tokens :
    list (list byte) -> list byte -> list byte -> Prop :=
| ht_nil (rest : list byte) : header_tokens [] [] rest
| ht_word (gap token : list byte) (toks : list (list byte))
          (consumed rest : list byte) :
    header_gap gap -> pbm_word token ->
    stops not_pbm_space (consumed ++ rest) ->
    header_tokens toks consumed rest ->
    header_tokens (token :: toks) (gap ++ token ++ consumed) rest.

(** A gap that separates two tokens: it starts with white space. *)
Definition separator (gap : list byte) : Prop :=
  match gap with
  | [] => False
  | b :: gap' => is_pbm_space b = true /\ header_gap gap'
  end.

(** The byte strings the decoder accepts, and the mask it returns for
    them: [P4]; a gap (possibly empty); the width token; a separator; the
    height token; a run of white space, all of it skipped, which may be
    empty only when the data ends there; the payload, which does not start
    with white space; and any further bytes. *)
Definition decodes_to (data : list byte) (m : Mask) : Prop :=
  exists gap1 token_w gap2 token_h spaces tail : list byte,
    data = [x50; x34] ++ gap1 ++ token_w ++ gap2 ++ token_h ++ spaces
           ++ mask_payload m ++ tail /\
    header_gap gap1 /\ pbm_word token_w /\
    separator gap2 /\ pbm_word token_h /\
    Forall (fun b => is_pbm_space b = true) spaces /\
    stops is_pbm_space (mask_payload m ++ tail) /\
    (spaces = [] -> mask_payload m ++ tail = []) /\
    int_literal token_w = Some (mask_width m) /\
    int_literal token_h = Some (mask_height m) /\
    mask_row_bytes m = (mask_width m + 7) / 8 /\
    Z.of_nat (List.length (mask_payload m))
    = mask_row_bytes m * mask_height m.



(** ** Notions for the further properties *)

(** A cell of the viewport. *)
Definition in_viewport (k : Z * Z) (width height : Z) : Prop :=
  0 <= fst k < width /\ 0 <= snd k < height.

(** Chebyshev distance at most [n]. *)
Definition within (n : Z) (k c : Z * Z) : Prop :=
  Z.abs (fst k - fst c) <= n /\ Z.abs (snd k - snd c) <= n.

(** The cells a call may create: those that were there, and viewport
    cells within three steps of the target. *)
Definition reachable (grid : gmap (Z * Z) Q) (x y width height : Z)
    (g : gmap (Z * Z) Q) : Prop :=
  forall k : Z * Z,
    is_Some (g !! k) ->
    is_Some (grid !! k) \/ (in_viewport k width height /\ within 3 k (x, y)).

(** Every [random()] of the tape lies in [[0, 1)]. *)
Definition unit_tape (r : Trng) : Prop :=
  forall n : nat, (0 <= unit_draws r n /\ unit_draws r n < 1)%Q.

(** A mask whose rows are [ceil(width / 8)] bytes and whose payload holds
    [height] of them: what [load_pbm_mask] returns. *)
Definition well_formed (m : Mask) : Prop :=
  mask_row_bytes m = (mask_width m + 7) / 8 /\
  Z.of_nat (List.length (mask_payload m)) = mask_row_bytes m * mask_height m.

(** A mask whose [width - 1] and [height - 1] are within the doubles, so
    that [uv_to_mask_xy] can multiply by them. *)
Definition convertible (m : Mask) : Prop :=
  Z.abs (mask_width m - 1) < float_max_int /\
  Z.abs (mask_height m - 1) < float_max_int.

(** Every entry of the registry has a mask, and every mask is well formed. *)
Definition scan_ok (registry : list RegistryItem) (masks : gmap Z Mask)
    : Prop :=
  (forall item : RegistryItem,
     List.In item registry -> is_Some (masks !! item_id item)) /\
  (forall (sid : Z) (m : Mask), masks !! sid = Some m -> well_formed m).

(** [is_point_in_mask]: any set bit within the probe window. *)
Definition is_point_in_mask (u v scale : Q) (mask : option Mask) : py bool :=
  match mask with
  | None => Ret false
  | Some mask =>
      if Qltb u (-1) || Qgtb u 1 || Qltb v (-1) || Qgtb v 1 then Ret false
      else
        p <~ uv_to_mask_xy u v mask ;;
        let '(mx, my) := p in
        let probe := if Qle_bool 32 scale then 1
                     else if Qle_bool 18 scale then 2 else 3 in
        py_any (fun oy =>
          py_any (fun ox =>
            b <~ mask_bit mask (mx + ox) (my + oy) ;;
            Ret (negb (b =? 0)))
            (py_range2 (- probe) (probe + 1)))
          (py_range2 (- probe) (probe + 1))
  end.

(** The entries [payload.get("sigils", [])] runs over, when the index
    document can be read. *)
Definition index_entries (index : IndexFile) : list IndexEntry :=
  match index with
  | IndexSigils sigils => sigils
  | IndexUnreachable _ | IndexAbsent | IndexBroken _ => []
  end.

(** [float(e.get("weight", 1.0))] does not raise. *)
Definition weight_readable (weight : option (py Q)) : Prop :=
  forall e : exn, weight <> Some (Raise e).

(** ** The glyph archive (build_sigil_blocks)

    Glyphs are code points.  What [str.isprintable], [str.isspace],
    [unicodedata.combining] and [unicodedata.east_asian_width] answer is
    the Unicode database's business: they are fields of a record here. *)

Definition TEXT_SYMBOL_ALLOWLIST : list Z := [0x263F; 0x26B8].

Definition EMOJI_BLOCK_RANGES : list (Z * Z) :=
  [(0x1F1E6, 0x1F1FF);  (* Regional indicators / flags *)
   (0x1F300, 0x1F6FF);  (* Misc emoji + transport *)
   (0x1F900, 0x1FAFF);  (* Supplemental emoji + symbols/pictographs *)
   (0xE0020, 0xE007F)].

Definition is_emoji_like_codepoint (cp : Z) : bool :=
  if existsb (fun r => (fst r <=? cp) && (cp <=? snd r)) EMOJI_BLOCK_RANGES
  then true
  (* Selector + tag controls used for emoji presentation. *)
  else if (cp =? 0xFE0F) || (cp =? 0x200D) then true
  (* Emoji-prone symbol bands, with explicit safe symbol allowlist. *)
  else if (0x2600 <=? cp) && (cp <=? 0x27BF)
  then negb (existsb (Z.eqb cp) TEXT_SYMBOL_ALLOWLIST)
  (* Misc symbols and dingbat-adjacent bands can trigger color emoji fonts. *)
  else if (0x2B00 <=? cp) && (cp <=? 0x2BFF) then true
  else false.

Record Unicode : Type := mkUnicode {
  isprintable : Z -> bool;
  isspace : Z -> bool;
  combining : Z -> Z;
  east_asian_width : Z -> string
}.

Definition is_text_stream_safe_char (U : Unicode) (cp : Z) : bool :=
  if is_emoji_like_codepoint cp then false
  else if negb (isprintable U cp && negb (isspace U cp)) then false
  else if negb (combining U cp =? 0) then false
  (* Exclude wide/full-width glyphs that break single-cell terminal layout. *)
  else if String.eqb (east_asian_width U cp) "W"
          || String.eqb (east_asian_width U cp) "F" then false
  else true.

Definition _append_printable_range (U : Unicode) (target : list Z)
    (start end_ : Z) : list Z :=
  target ++ List.filter (is_text_stream_safe_char U) (py_range2 start (end_ + 1)).

(** The loop of [_dedupe_keep_order], with [seen] as it stands. *)
Fixpoint dedupe_loop (seen : gset Z) (chars : list Z) : list Z :=
  match chars with
  | [] => []
  | char :: rest =>
      if decide (char ∈ seen) then dedupe_loop seen rest
      else char :: dedupe_loop ({[ char ]} ∪ seen) rest
  end.

Definition _dedupe_keep_order (chars : list Z) : list Z := dedupe_loop ∅ chars.

(** The [ranges] table of [build_sigil_blocks], in the order of its keys
    (which is the order of the keys of [blocks]). *)
Definition block_ranges : list (string * list (Z * Z)) :=
  [("latin", [(0x0021, 0x007E); (0x00A1, 0x00FF); (0x0100, 0x024F)]);
   ("greek", [(0x0370, 0x03FF); (0x1F00, 0x1FFF)]);
   ("cyrillic", [(0x0400, 0x052F); (0x2DE0, 0x2DFF)]);
   ("hebrew", [(0x0590, 0x05FF)]);
   ("arabic", [(0x0600, 0x06FF); (0x0750, 0x077F); (0x08A0, 0x08FF)]);
   ("indic", [(0x0900, 0x097F); (0x0980, 0x09FF); (0x0A00, 0x0A7F);
              (0x0A80, 0x0AFF); (0x0B00, 0x0B7F); (0x0B80, 0x0BFF);
              (0x0C00, 0x0C7F); (0x0C80, 0x0CFF); (0x0D00, 0x0D7F);
              (0x0D80, 0x0DFF)]);
   ("southeast_asian", [(0x0E00, 0x0E7F); (0x0E80, 0x0EFF); (0x1000, 0x109F);
                        (0x1780, 0x17FF)]);
   ("east_asian", [(0x3040, 0x30FF); (0x3400, 0x4DBF); (0x4E00, 0x9FFF);
                   (0xAC00, 0xD7AF)]);
   ("african", [(0x1200, 0x137F); (0x2D80, 0x2DDF); (0x2D30, 0x2D7F);
                (0xA500, 0xA63F); (0xA4D0, 0xA4FF)]);
   ("nordic", [(0x1680, 0x169F); (0x16A0, 0x16FF)]);
   ("math", [(0x2200, 0x22FF); (0x27C0, 0x27EF); (0x2980, 0x29FF);
             (0x2A00, 0x2AFF)]);
   ("geometric", [(0x2500, 0x257F); (0x2580, 0x259F); (0x25A0, 0x25FF)]);
   ("alchemical", [(0x1F700, 0x1F77F)]);
   ("deity", []);
   ("occult", [(0x2100, 0x214F)])]%string.

(** [for start, end in block_ranges: _append_printable_range(...)] *)
Definition fill_block (U : Unicode) (ranges : list (Z * Z)) : list Z :=
  fold_left (fun target r => _append_printable_range U target (fst r) (snd r))
            ranges [].

(** [filtered or ["*"]] of the last loop. *)
Definition filtered_or_star (U : Unicode) (chars : list Z) : list Z :=
  match List.filter (is_text_stream_safe_char U) (_dedupe_keep_order chars) with
  | [] => [42]
  | filtered => filtered
  end.

(** The dictionary [build_sigil_blocks] returns, as the list of its items. *)
Definition build_sigil_blocks (U : Unicode) : list (string * list Z) :=
  let blocks :=
    map (fun e => (fst e, fill_block U (snd e))) block_ranges in
  (* Restrict to monochrome-safe core symbols only. *)
  let blocks :=
    map (fun e => (fst e, if String.eqb (fst e) "deity"
                          then snd e ++ [0x263F; 0x26B8] else snd e))
        blocks in
  map (fun e => (fst e, filtered_or_star U (snd e))) blocks.

(** [SIGIL_BLOCKS[k]] for [k] in [RANDOM_FAMILY_KEYS]. *)
Definition random_families (blocks : list (string * list Z)) : list (list Z) :=
  let chosen :=
    List.filter (fun e => match snd e with [] => false | _ => true end)
                blocks in
  map snd (match chosen with [] => blocks | _ => chosen end).

Definition unified_text_glyphs (U : Unicode) (blocks : list (string * list Z))
    : list Z :=
  match _dedupe_keep_order
          (List.filter (is_text_stream_safe_char U) (flat_map snd blocks)) with
  | [] => [42]
  | glyphs => glyphs
  end.

(** The catalog the module builds when it is loaded. *)
Definition module_catalog (U : Unicode) : Catalog :=
  mkCatalog (random_families (build_sigil_blocks U))
            (unified_text_glyphs U (build_sigil_blocks U)).

(** A family as [build_sigil_blocks] leaves it. *)
Definition family_ok (U : Unicode) (family : list Z) : Prop :=
  family <> [] /\ List.NoDup family /\
  (forall c : Z, List.In c family ->
     is_emoji_like_codepoint c = false /\
     (is_text_stream_safe_char U c = true \/ family = [42])).

Definition SIGIL_STROKE_CHARS : list Z :=
  [124; 47; 92; 33; 59; 58; 46; 39; 96; 45; 126].

Definition get_sigil_stroke_char (entropy_byte : Z) (entropy_val : Q) : py Z :=
  let mix := Z.land (Z.lxor (entropy_byte * 1315423911)
                            (py_int_of_float (entropy_val * 1000000)))
                    0xFFFFFFFF in
  i <~ py_mod mix (Z.of_nat (List.length SIGIL_STROKE_CHARS)) ;;
  py_getitem SIGIL_STROKE_CHARS i.

(** ** Notions for the frame properties *)

(** [height < 10 or width < 40]: the frame is skipped. *)
Definition too_small (inp : FrameInput) : bool :=
  (frame_height inp <? 10) || (frame_width inp <? 40).

(** Every spark is a cell of the viewport that holds at least 0.94. *)
Definition sparks_hot (width height : Z) (grid : gmap (Z * Z) Q)
    (sparks : gset (Z * Z)) : Prop :=
  forall k : Z * Z,
    k ∈ sparks ->
    in_viewport k width height /\
    exists v : Q, grid !! k = Some v /\ (0.94 <= v)%Q.

(** [k] is one of the eight neighbours of [s]. *)
Definition adjacent (k s : Z * Z) : Prop :=
  exists d : Z * Z, List.In d neighbors /\ k = (fst s + fst d, snd s + snd d).

(** What the propagation has done so far, against the grid and the
    sparks it started from. *)
Definition spread_from (width height : Z) (grid : gmap (Z * Z) Q)
    (sparks : gset (Z * Z)) (acc : gmap (Z * Z) Q * gset (Z * Z) * Trng)
    : Prop :=
  (forall k : Z * Z,
     k ∈ acc.1.2 ->
     in_viewport k width height /\
     (exists s : Z * Z, s ∈ sparks /\ adjacent k s) /\
     acc.1.1 !! k = Some 0.94%Q /\ (grid_get grid k < 0.2)%Q) /\
  (forall k : Z * Z, k ∉ acc.1.2 -> acc.1.1 !! k = grid !! k).

(** [sum(entropy_pool[:sample_size]) / sample_size] *)
Definition sample_mean (entropy_pool : list byte) : py Q :=
  let sample_size := Z.min 1000 (Z.of_nat (List.length entropy_pool)) in
  py_div (inject_Z (sum_bytes (firstn (Z.to_nat sample_size) entropy_pool)))
         (inject_Z sample_size).

Definition fresh_pulse (t : Q) (p : Pulse) : bool :=
  Qle_bool (t - pulse_start_time p) pulse_duration.

Definition fresh_sigil (t : Q) (s : Sigil) : bool :=
  Qle_bool (t - sigil_start_time s) (sigil_life s).

(** The second half of a frame, from the ignition on, for the values the
    first half has settled: the gate [it], the build-up, the pulses and
    sigils that are left, the coherence target and the tape. *)
Definition frame_tail (G : Globals) (C : Catalog) (inp : FrameInput)
    (st : MainState) (it : Intent) (buildup : Q) (pulses : list Pulse)
    (target : Q) (sigils : list Sigil) (r : Trng) : py MainState :=
  let width := frame_width inp in
  let height := frame_height inp in
  let gate_open := intent_gate_open it in
  let dilation := intent_dilation' it in
  let walker := (coherence_walker st + (target - coherence_walker st) * 0.02)%Q in
  let ignite_chance :=
    Qmin 0.80 (0.40 + (if gate_open then dilation * 0.12 else 0)) in
  ig <~ py_fold (ignite_step G width height ignite_chance) sigils
          (excitation_grid st, active_sparks st, r) ;;
  let '(grid, sparks, r) := ig in
  let grid := decay_grid grid (excite_decay dilation gate_open) in
  let spread_chance :=
    Qmin 0.72 (0.56 + (if gate_open then dilation * 0.05 else 0)) in
  pr <~ propagate G (frame_entropy inp) sigils width height spread_chance
          sparks grid r ;;
  rd <~ py_fold (render_cell G C inp sigils) (render_cells height width) pr ;;
  let '(grid, sparks, r) := rd in
  Ret (mkState buildup pulses walker target grid sparks sigils dilation r).

(** What the first half of a frame settles. *)
Definition frame_head (G : Globals) (inp : FrameInput) (st : MainState)
    (it : Intent) (buildup : Q) (pulses0 : list Pulse) (target : Q)
    (sigils0 : list Sigil) (r0 : Trng) : Prop :=
  let t := frame_t inp in
  let width := frame_width inp in
  let height := frame_height inp in
  let gate_open := intent_gate_open it in
  let dilation := intent_dilation' it in
  unit_draws r0 = unit_draws (trng st) /\
  ((0 <= entropy_buildup st -> 0 <= buildup)%Q /\
   (buildup <= Qmax 1.4 (gate_threshold - dilation * 0.25))%Q) /\
  (pulses0 = active_pulses st \/
   exists ox oy : Z,
     pulses0 = active_pulses st
               ++ [mkPulse t (width / 2 + ox) (height / 2 + oy)] /\
     (- width) / 3 <= ox <= width / 3 /\
     (- height) / 3 <= oy <= height / 3) /\
  (target = target_coherence st \/
   exists n : nat,
     target = (0.15 + (1.2 - 0.15) * unit_draws (trng st) n)%Q) /\
  (sigils0 = active_sigils st \/
   exists (cx cy : Q) (n1 n2 : nat) (rp : Trng),
     sigils0
     = active_sigils st
       ++ [mkSigil t cx cy
             ((inject_Z height * 0.3
               + (inject_Z height * 1.2 - inject_Z height * 0.3)
                 * unit_draws (trng st) n1)
              * (1 + dilation * (if gate_open then 0.20 else 0)))%Q
             (fst (pick_weighted_sigil_id G rp))
             ((8 + (20 - 8) * unit_draws (trng st) n2)
              * (1 + dilation * (if gate_open then 0.30 else 0)))%Q]).
(** What every frame keeps true of the state it hands on. *)
Definition state_ok (st : MainState) : Prop :=
  unit_tape (trng st) /\
  (0 <= intent_dilation st <= 1.5)%Q /\
  (0 <= entropy_buildup st <= 2)%Q /\
  (0.15 <= target_coherence st <= 1.2)%Q /\
  (0.15 <= coherence_walker st <= 1.2)%Q /\
  Forall (fun s => (3 <= sigil_scale s)%Q /\ (8 <= sigil_life s <= 29)%Q)
         (active_sigils st).

(** Every registered mask has a consistent payload and dimensions within
    the doubles. *)
Definition masks_ok (G : Globals) : Prop :=
  forall (sid : Z) (m : Mask),
    SIGIL_MASKS_BY_ID G !! sid = Some m -> well_formed m /\ convertible m.

(** [entropy_pool = os.urandom(width * height)] *)
Definition pool_ok (inp : FrameInput) : Prop :=
  Z.of_nat (List.length (frame_entropy inp))
  = frame_width inp * frame_height inp.

(** [math.sqrt] is positive on positive arguments. *)
Definition sqrt_ok (sqrt : Q -> Q) : Prop :=
  forall v : Q, (0 < v)%Q -> (0 < sqrt v)%Q.

(* ===================================================================== *)
(** * Part II: properties                                                 *)
(* ===================================================================== *)

Lemma Qltb_lt (a b : Q) : Qltb a b = true <-> (a < b)%Q.
Proof.
  unfold Qltb. rewrite negb_true_iff.
  destruct (Qle_bool b a) eqn:E.
  - apply Qle_bool_iff in E. split; [discriminate | lra].
  - split; [intros _ | reflexivity].
    destruct (Qlt_le_dec a b) as [H | H]; [exact H |].
    apply Qle_bool_iff in H. congruence.
Qed.

Lemma Qltb_ge (a b : Q) : Qltb a b = false <-> (b <= a)%Q.
Proof.
  unfold Qltb. rewrite negb_false_iff. apply Qle_bool_iff.
Qed.

(** ** Injection *)

Lemma out_of_grid_true (x y width height : Z) :
  out_of_grid x y width height = true <->
  x < 0 \/ y < 0 \/ x >= width \/ y >= height.
Proof.
  unfold out_of_grid. rewrite !orb_true_iff, !Z.ltb_lt, !Z.leb_le. lia.
Qed.

Lemma out_of_grid_false (x y width height : Z) :
  out_of_grid x y width height = false <->
  0 <= x < width /\ 0 <= y < height.
Proof.
  unfold out_of_grid. rewrite !orb_false_iff, !Z.ltb_ge, !Z.leb_gt. lia.
Qed.

Lemma grid_le_refl (g : gmap (Z * Z) Q) : grid_le g g.
Proof.
  intros k. split; [| lra].
  intros a Ha. exists a. split; [exact Ha | lra].
Qed.

Lemma grid_le_trans (g1 g2 g3 : gmap (Z * Z) Q) :
  grid_le g1 g2 -> grid_le g2 g3 -> grid_le g1 g3.
Proof.
  intros H12 H23 k.
  destruct (H12 k) as [P12 L12], (H23 k) as [P23 L23].
  split; [| lra].
  intros a Ha.
  destruct (P12 a Ha) as (b & Hb & Hab).
  destruct (P23 b Hb) as (c & Hc & Hbc).
  exists c. split; [exact Hc | lra].
Qed.

Lemma raise_cell_le (g : gmap (Z * Z) Q) (k : Z * Z) (v : Q) :
  grid_le g (raise_cell g k v).
Proof.
  unfold raise_cell, Qgtb.
  destruct (Qltb (grid_get g k) v) eqn:E; [| apply grid_le_refl].
  apply Qltb_lt in E.
  intros k'. destruct (decide (k' = k)) as [-> | Hne].
  - unfold grid_get in *. rewrite lookup_insert_eq. simpl. split.
    + intros a Ha. rewrite Ha in E. simpl in E.
      exists v. split; [reflexivity | lra].
    + lra.
  - unfold grid_get. rewrite lookup_insert_ne by congruence. split; [| lra].
    intros a Ha. exists a. split; [exact Ha | lra].
Qed.

Lemma halo_step_le (x y : Z) (b : Q) (width height : Z)
    (g : gmap (Z * Z) Q) (r : Trng) (d : Z * Z) :
  grid_le g (halo_step x y b width height (g, r) d).1.
Proof.
  unfold halo_step, trng_random, trng_uniform.
  repeat match goal with
         | |- context [if ?c then _ else _] => destruct c
         end; simpl; auto using grid_le_refl, raise_cell_le.
Qed.

Lemma halo_fold_le (x y : Z) (b : Q) (width height : Z) (ds : list (Z * Z)) :
  forall (g : gmap (Z * Z) Q) (r : Trng),
    grid_le g (fold_left (halo_step x y b width height) ds (g, r)).1.
Proof.
  induction ds as [| d ds IH]; intros g r; cbn [fold_left].
  - apply grid_le_refl.
  - destruct (halo_step x y b width height (g, r) d) as [g1 r1] eqn:E.
    apply grid_le_trans with g1; [| apply IH].
    change g1 with (g1, r1).1. rewrite <- E. apply halo_step_le.
Qed.

Lemma spike_trail_le (n : nat) (dx dy : Z) (width height : Z) :
  forall (sx sy : Z) (spike : Q) (g : gmap (Z * Z) Q) (r : Trng),
    grid_le g (spike_trail n dx dy sx sy spike width height g r).1.
Proof.
  induction n as [| n IH]; intros sx sy spike g r; simpl.
  - apply grid_le_refl.
  - destruct (out_of_grid (sx + dx) (sy + dy) width height).
    + apply grid_le_refl.
    + unfold trng_uniform.
      apply grid_le_trans with (raise_cell g (sx + dx, sy + dy) spike);
        [apply raise_cell_le | apply IH].
Qed.

Lemma inject_grid_le (grid : gmap (Z * Z) Q) (sparks : gset (Z * Z))
    (x y : Z) (b : Q) (trng : Trng) (width height : Z) (with_halo : bool) :
  grid_le grid
    (inject_sigil_excitation grid sparks x y b trng width height with_halo).1.1.
Proof.
  unfold inject_sigil_excitation.
  destruct (out_of_grid x y width height); [apply grid_le_refl |].
  destruct with_halo; cbn [negb]; [| apply raise_cell_le].
  destruct (fold_left _ neighbors _) as [g1 r1] eqn:Efold.
  assert (Hfold : grid_le grid g1).
  { apply grid_le_trans with (raise_cell grid (x, y) b);
      [apply raise_cell_le |].
    change g1 with (g1, r1).1. rewrite <- Efold. apply halo_fold_le. }
  unfold trng_random.
  destruct (Qltb _ 0.12); [| exact Hfold].
  unfold trng_randint, trng_uniform.
  destruct (nth _ neighbors (0, 0)) as [dx dy].
  destruct (spike_trail _ _ _ _ _ _ _ _ _ _) as [g2 r2] eqn:Espike.
  simpl. apply grid_le_trans with g1; [exact Hfold |].
  change g2 with (g2, r2).1. rewrite <- Espike. apply spike_trail_le.
Qed.

Lemma inject_sparks (grid : gmap (Z * Z) Q) (sparks : gset (Z * Z))
    (x y : Z) (b : Q) (trng : Trng) (width height : Z) (with_halo : bool) :
  (inject_sigil_excitation grid sparks x y b trng width height with_halo).1.2 =
  if out_of_grid x y width height then sparks else {[ (x, y) ]} ∪ sparks.
Proof.
  unfold inject_sigil_excitation.
  destruct (out_of_grid x y width height); [reflexivity |].
  destruct with_halo; cbn [negb]; [| reflexivity].
  destruct (fold_left _ neighbors _) as [g1 r1].
  unfold trng_random, trng_randint, trng_uniform.
  destruct (Qltb _ 0.12); [| reflexivity].
  destruct (nth _ neighbors (0, 0)) as [dx dy].
  destruct (spike_trail _ _ _ _ _ _ _ _ _ _) as [g2 r2].
  reflexivity.
Qed.

(** C10: a call whose target lies outside the grid changes nothing: the
    grid, the spark set and the random source come back as they went in,
    whether or not a halo was asked for. *)
Theorem inject_outside_grid_is_noop
    (grid : gmap (Z * Z) Q) (sparks : gset (Z * Z)) (x y : Z)
    (base_intensity : Q) (trng : Trng) (width height : Z) (with_halo : bool) :
  x < 0 \/ y < 0 \/ x >= width \/ y >= height ->
  inject_sigil_excitation grid sparks x y base_intensity trng width height
    with_halo = (grid, sparks, trng).
Proof.
  intros Hout. apply out_of_grid_true in Hout.
  unfold inject_sigil_excitation. rewrite Hout. reflexivity.
Qed.

Lemma inject_outside_grid_is_noop_witness :
  inject_sigil_excitation {[ (39, 3) := 0.5%Q ]} {[ (39, 3) ]} 40 3 1%Q
    sample_trng 40 10 true
  = ({[ (39, 3) := 0.5%Q ]}, {[ (39, 3) ]}, sample_trng).
Proof.
  apply (inject_outside_grid_is_noop _ _ 40 3 1%Q sample_trng 40 10 true).
  right. right. left. lia.
Defined.

(** C7 does not hold as worded: "the target cell is always added to the
    active-sparks output set" fails for a target outside the grid, here the
    column [x = width] of a 40 x 10 grid, with an empty spark set. *)
Lemma inject_target_outside_is_no_spark :
  (40, 3) ∉ (inject_sigil_excitation ∅ ∅ 40 3 1%Q sample_trng 40 10 true).1.2.
Proof.
  rewrite inject_sparks.
  replace (out_of_grid 40 3 40 10) with true by reflexivity.
  apply not_elem_of_empty.
Qed.

(** C7, as the code has it: injection is a monotone raise.  Every cell that was
    present stays present with a value at least as large, and the value
    read with default 0 never decreases at any cell (target, halo
    neighbour or spike-trail cell alike); the sparks already in the output
    set stay in it; and the target cell joins the output set whenever it
    lies inside the grid. *)
Theorem inject_is_monotone_raise
    (grid : gmap (Z * Z) Q) (sparks : gset (Z * Z)) (x y : Z)
    (base_intensity : Q) (trng : Trng) (width height : Z) (with_halo : bool) :
  let out := inject_sigil_excitation grid sparks x y base_intensity trng
               width height with_halo in
  grid_le grid out.1.1 /\
  sparks ⊆ out.1.2 /\
  (0 <= x < width /\ 0 <= y < height -> (x, y) ∈ out.1.2).
Proof.
  intros out. subst out.
  split; [apply inject_grid_le |].
  rewrite inject_sparks.
  destruct (out_of_grid x y width height) eqn:E.
  - apply out_of_grid_true in E. split; [reflexivity | lia].
  - split; [apply union_subseteq_r | intros _].
    apply elem_of_union_l, elem_of_singleton. reflexivity.
Qed.

Lemma inject_is_monotone_raise_witness :
  (3, 4) ∈ (inject_sigil_excitation {[ (3, 4) := 0.5%Q ]} ∅ 3 4 1%Q
              sample_trng 40 10 true).1.2.
Proof.
  apply (inject_is_monotone_raise {[ (3, 4) := 0.5%Q ]} ∅ 3 4 1%Q
           sample_trng 40 10 true).
  lia.
Defined.

(** ** The raster decoder: examples *)

Example load_pbm_8x1 :
  load_pbm_mask (Ret (bytes_of "P4 8 1" ++ [x0a; xff]))
  = Ret (Some (mkMask 8 1 1 [xff])).
Proof. reflexivity. Qed.

Example load_pbm_comment :
  load_pbm_mask (Ret (bytes_of "P4" ++ [x0a] ++ bytes_of "# made by hand" ++ [x0a]
                      ++ bytes_of "9 2" ++ [x0a; xff; x80; x01; x00]))
  = Ret (Some (mkMask 9 2 2 [xff; x80; x01; x00])).
Proof. reflexivity. Qed.

Example load_pbm_P5 :
  load_pbm_mask (Ret (bytes_of "P5 8 1" ++ [x0a; xff])) = Ret None.
Proof. reflexivity. Qed.

(** No white space is needed between the magic and the width. *)
Example load_pbm_width_right_after_magic :
  load_pbm_mask (Ret (bytes_of "P48 1" ++ [x0a; xff]))
  = Ret (Some (mkMask 8 1 1 [xff])).
Proof. reflexivity. Qed.

(** [int()] takes signs: two negative dimensions whose product of row
    size and height is not negative pass the length check. *)
Example load_pbm_negative_dimensions :
  load_pbm_mask (Ret (bytes_of "P4 -8 -1" ++ [x0a; xff]))
  = Ret (Some (mkMask (-8) (-1) (-1) [xff])).
Proof. reflexivity. Qed.

(** [int()] refuses a token of more than 4300 digits, leading zeros
    included: the decoder returns [None] for a width of 4301 digits and
    a mask for one of 4300. *)
Example load_pbm_long_token :
  load_pbm_mask
    (Ret (bytes_of "P4 " ++ repeat x30 4300 ++ bytes_of "1 0")) = Ret None /\
  load_pbm_mask
    (Ret (bytes_of "P4 " ++ repeat x30 4299 ++ bytes_of "1 0"))
  = Ret (Some (mkMask 1 0 1 [])).
Proof. split; vm_compute; reflexivity. Qed.

(** ** The render loops *)

Lemma in_py_range (n i : Z) : List.In i (py_range n) <-> 0 <= i < n.
Proof.
  unfold py_range. rewrite in_map_iff. split.
  - intros (k & <- & Hk). apply in_seq in Hk. lia.
  - intros Hi. exists (Z.to_nat i). split; [lia |]. apply in_seq. lia.
Qed.

Lemma length_py_range (n : Z) : List.length (py_range n) = Z.to_nat n.
Proof. unfold py_range. now rewrite length_map, length_seq. Qed.

Lemma NoDup_py_range (n : Z) : List.NoDup (py_range n).
Proof.
  unfold py_range. apply Finite.Injective_map_NoDup.
  - intros a b Hab. lia.
  - apply seq_NoDup.
Qed.

Lemma in_render_cells (height width x y : Z) :
  List.In (x, y) (render_cells height width) <->
  0 <= x < width - 1 /\ 0 <= y < height - 1.
Proof.
  unfold render_cells. rewrite in_flat_map. split.
  - intros (y' & Hy' & Hin). apply in_map_iff in Hin.
    destruct Hin as (x' & Heq & Hx'). inversion Heq; subst.
    apply in_py_range in Hy'. apply in_py_range in Hx'. lia.
  - intros [Hx Hy]. exists y. split; [now apply in_py_range |].
    apply in_map_iff. exists x. split; [reflexivity | now apply in_py_range].
Qed.

Lemma length_row_major (row : list Z) (rows : list Z) :
  List.length (flat_map (fun y => map (fun x => (x, y)) row) rows)
  = (List.length rows * List.length row)%nat.
Proof.
  induction rows as [| y rows IH]; simpl; [reflexivity |].
  rewrite length_app, length_map, IH. reflexivity.
Qed.

Lemma NoDup_row_major (row rows : list Z) :
  List.NoDup row -> List.NoDup rows ->
  List.NoDup (flat_map (fun y => map (fun x => (x, y)) row) rows).
Proof.
  intros Hrow Hrows. induction Hrows as [| y rows Hy Hrows IH]; simpl.
  - constructor.
  - apply List.NoDup_app.
    + apply Finite.Injective_map_NoDup; [| exact Hrow].
      intros a b Hab. now inversion Hab.
    + exact IH.
    + intros [x' y'] Hin1 Hin2.
      apply in_map_iff in Hin1. destruct Hin1 as (x1 & Heq & _).
      inversion Heq; subst.
      apply in_flat_map in Hin2. destruct Hin2 as (y2 & Hy2 & Hin2).
      apply in_map_iff in Hin2. destruct Hin2 as (x2 & Heq2 & _).
      inversion Heq2; subst. contradiction.
Qed.

(** C2 does not hold as worded: on a 40 x 10 viewport the loops visit 351 of
    the 400 cells, and the bottom-right cell [(39, 9)] is not among them. *)
Lemma render_skips_last_row_and_column :
  ~ List.In (39, 9) (render_cells 10 40) /\
  List.length (render_cells 10 40) = 351%nat /\
  (351 <> 40 * 10)%nat.
Proof.
  split; [| split].
  - rewrite in_render_cells. lia.
  - reflexivity.
  - discriminate.
Qed.

(** C2, as the code has it: on every frame the render loops range over exactly
    the cells [(x, y)] with [0 <= x < width - 1] and [0 <= y < height - 1],
    each of them once: [(width - 1) * (height - 1)] cells for a viewport
    that is not undersized.  The last row and the last column are never
    evaluated. *)
Theorem render_cells_cover (height width : Z) :
  (forall x y, List.In (x, y) (render_cells height width) <->
               0 <= x < width - 1 /\ 0 <= y < height - 1) /\
  List.NoDup (render_cells height width) /\
  (40 <= width -> 10 <= height ->
   Z.of_nat (List.length (render_cells height width))
   = (width - 1) * (height - 1) /\
   (forall y, ~ List.In (width - 1, y) (render_cells height width)) /\
   (forall x, ~ List.In (x, height - 1) (render_cells height width))).
Proof.
  split; [| split].
  - intros x y. apply in_render_cells.
  - apply NoDup_row_major; apply NoDup_py_range.
  - intros Hw Hh. split; [| split].
    + unfold render_cells. rewrite length_row_major, !length_py_range. lia.
    + intros y. rewrite in_render_cells. lia.
    + intros x. rewrite in_render_cells. lia.
Qed.

Lemma render_cells_cover_witness :
  Z.of_nat (List.length (render_cells 10 40)) = (40 - 1) * (10 - 1).
Proof.
  apply (render_cells_cover 10 40); lia.
Defined.

(** ** The excitation layer *)

Example max_entropy_len_is_no_local :
  existsb (String.eqb "max_entropy_len") main_locals = false.
Proof. reflexivity. Qed.

Lemma max_entropy_len_unbound (G : Globals) :
  load_global G "max_entropy_len" = Raise NameError.
Proof. reflexivity. Qed.

(** C1: the layer does not evaluate.  For every excited cell, whatever
    the entropy buffer, the time, the grid size and the field values, it
    raises [NameError]: [max_entropy_len] is bound nowhere. *)
Theorem excitation_override_raises
    (G : Globals) (C : Catalog) (entropy_pool : list byte) (width x y : Z)
    (t w1 w2 w3 : Q) (ent_byte : Z) (excite : Q) :
  excitation_override G C entropy_pool width x y t w1 w2 w3 ent_byte excite
  = Raise NameError.
Proof.
  unfold excitation_override. rewrite max_entropy_len_unbound. reflexivity.
Qed.

(** ** The weighted draw *)

Lemma find_map_S (f : nat -> bool) (l : list nat) :
  List.find f (map S l) = option_map S (List.find (fun k => f (S k)) l).
Proof.
  induction l as [| k l IH]; cbn [map List.find]; [reflexivity |].
  destruct (f (S k)); [reflexivity | exact IH].
Qed.

Lemma weighted_loop_first_hit (table : list (Z * Q)) :
  forall roll : Q,
    weighted_loop table roll
    = option_map (fun k => fst (nth k table (0, 0%Q)))
        (List.find (fun k => Qle_bool (running_remainder table roll k) 0)
                   (seq 0 (List.length table))).
Proof.
  induction table as [| [sid w] table IH]; intros roll;
    cbn [weighted_loop List.length seq List.find]; [reflexivity |].
  cbn [running_remainder].
  destruct (Qle_bool (float_round (roll - w)) 0); [reflexivity |].
  rewrite <- seq_shift, find_map_S, IH.
  cbn [running_remainder].
  destruct (List.find _ _); reflexivity.
Qed.

Lemma pick_weighted_nonempty (G : Globals) (trng : Trng) (e : Z * Q)
    (rest : list (Z * Q)) :
  ACTIVE_SIGIL_WEIGHT_TABLE G = e :: rest ->
  pick_weighted_sigil_id G trng
  = (roulette (e :: rest) (ACTIVE_SIGIL_TOTAL_WEIGHT G)
       (fst (trng_random trng)), snd (trng_random trng)).
Proof.
  intros Htable. unfold pick_weighted_sigil_id, roulette. rewrite Htable.
  unfold trng_random. cbn [fst snd]. cbv zeta.
  rewrite (weighted_loop_first_hit (e :: rest)).
  destruct (List.find _ _); reflexivity.
Qed.

(** The remainder is the machine's.  With the doubles nearest to 0.1 and
    3.9 as weights, the sample 0.5 of a total of 8 leaves exactly 0 at
    the second entry, which is drawn; subtracting without rounding
    would leave a positive remainder there. *)
Example roulette_rounds_like_the_machine :
  let table := [(1, float_round 0.1); (2, float_round 3.9); (3, 4%Q)] in
  roulette table 8 0.5 = 2 /\
  running_remainder table (float_round (0.5 * 8)) 1 = 0%Q /\
  (0 < 0.5 * 8 - float_round 0.1 - float_round 3.9)%Q.
Proof. vm_compute. repeat split. Qed.

Example roulette_three_entries :
  map (roulette [(4, 1%Q); (7, 1.5%Q); (9, 0.5%Q)] 3%Q)
      [0%Q; 0.25%Q; 0.5%Q; 0.75%Q; 0.875%Q]
  = [4; 4; 7; 7; 9].
Proof. vm_compute. reflexivity. Qed.

(** C8: the weighted draw is cumulative-weight roulette selection.  On a
    non-empty table it scales the sample [u] it draws by the total
    weight, subtracts the weights in table order, and returns the id of
    the first entry at which the running remainder is [<= 0], and the
    last id when there is no such entry; on the singleton table
    [[(1, 1.0)]] it returns id 1 for every sample. *)
Theorem pick_weighted_is_roulette :
  (forall (G : Globals) (trng : Trng) (e : Z * Q) (rest : list (Z * Q)),
     ACTIVE_SIGIL_WEIGHT_TABLE G = e :: rest ->
     pick_weighted_sigil_id G trng
     = (roulette (e :: rest) (ACTIVE_SIGIL_TOTAL_WEIGHT G)
          (fst (trng_random trng)), snd (trng_random trng))) /\
  (forall (G : Globals) (trng : Trng),
     ACTIVE_SIGIL_WEIGHT_TABLE G = [(1, 1%Q)] ->
     fst (pick_weighted_sigil_id G trng) = 1).
Proof.
  split.
  - apply pick_weighted_nonempty.
  - intros G trng Htable.
    unfold pick_weighted_sigil_id. rewrite Htable.
    unfold trng_random. cbn [weighted_loop]. cbv zeta.
    destruct (Qle_bool _ 0); reflexivity.
Qed.

Lemma pick_weighted_is_roulette_witness :
  pick_weighted_sigil_id initial_globals sample_trng
  = (roulette [(1, 1%Q)] 1%Q (1 # 2), trng_next sample_trng) /\
  fst (pick_weighted_sigil_id initial_globals sample_trng) = 1.
Proof.
  split.
  - apply (proj1 pick_weighted_is_roulette initial_globals sample_trng
             (1, 1%Q) []).
    reflexivity.
  - apply (proj2 pick_weighted_is_roulette initial_globals sample_trng).
    reflexivity.
Defined.

(** ** The registry fallback *)

Lemma scan_index_absent (fs : FileSystem) :
  scan_index fs IndexAbsent = Ret (mkScan [] ∅ None None).
Proof. reflexivity. Qed.

(** A raise in the loop empties the registry, but an id detected before
    it is kept. *)
Example scan_index_keeps_detected_id :
  let seal := bytes_of "P4 8 1" ++ [x0a; xff] in
  exists sc : IndexScan,
    scan_index (only_grand_seal seal)
      (IndexSigils
         [mkIndexEntry (Ret 7) grand_seal_name "Lilith" "Grand Seal" None;
          mkIndexEntry (Raise ValueError) "x.pbm" "" "" None])
    = Ret sc /\
    scan_registry sc = [] /\ detected_lilith_grand_id sc = Some 7.
Proof. eexists. split; [reflexivity |]. split; reflexivity. Qed.

(** C3 does not hold as worded: with no index and a decodable built-in asset
    the registry has one entry, and its weight in the table is 4.2. *)
Lemma refresh_fallback_weight_is_not_one :
  exists G' : Globals,
    refresh_verified_sigil_registry
      (only_grand_seal (bytes_of "P4 8 1" ++ [x0a; xff])) IndexAbsent
      initial_globals = Ret G' /\
    List.length (VERIFIED_SIGIL_REGISTRY G') = 1%nat /\
    ACTIVE_SIGIL_WEIGHT_TABLE G' = [(1, 4.2%Q)] /\
    ~ (4.2 == 1)%Q.
Proof.
  eexists. split; [reflexivity |].
  split; [reflexivity |]. split; [reflexivity |].
  intros H. discriminate H.
Qed.

(** C3, as the code has it: when the index document is absent or its
    scan returns with no usable entry (which it does for an unreadable
    or malformed document too) and the built-in default raster asset
    decodes to a mask, the rebuild succeeds and the registry consists of
    exactly one entry, that of the current default id, whose weight in
    the weighted selection table is 4.2 (which is also the total
    weight); its mask is the only one registered. *)
Theorem refresh_fallback_single_entry
    (fs : FileSystem) (index : IndexFile) (G : Globals) (mask : Mask) :
  index = IndexAbsent \/
  (exists sc : IndexScan,
     scan_index fs index = Ret sc /\ scan_registry sc = []) ->
  load_pbm_mask (read_bytes fs LILITH_GRAND_SEAL_PBM) = Ret (Some mask) ->
  exists G' : Globals,
    refresh_verified_sigil_registry fs index G = Ret G' /\
    VERIFIED_SIGIL_REGISTRY G'
    = [mkItem (LILITH_SIGIL_ID G) grand_seal_name (Some (Ret 4.2%Q))
         LILITH_GRAND_SEAL_PBM None None] /\
    ACTIVE_VERIFIED_SIGIL_IDS G' = [LILITH_SIGIL_ID G] /\
    ACTIVE_SIGIL_WEIGHT_TABLE G' = [(LILITH_SIGIL_ID G, 4.2%Q)] /\
    (ACTIVE_SIGIL_TOTAL_WEIGHT G' == 4.2)%Q /\
    SIGIL_MASKS_BY_ID G' = {[ LILITH_SIGIL_ID G := mask ]}.
Proof.
  intros Hindex Hload.
  assert (Hscan : exists sc : IndexScan,
            scan_index fs index = Ret sc /\ scan_registry sc = []).
  { destruct Hindex as [-> | H]; [| exact H].
    eexists. split; reflexivity. }
  destruct Hscan as (sc & Hsc & Hreg).
  unfold refresh_verified_sigil_registry.
  rewrite Hsc. cbn [py_bind]. rewrite Hreg, Hload. cbn.
  eexists. split; [reflexivity |]. cbn.
  repeat split; reflexivity.
Qed.

Lemma refresh_fallback_single_entry_witness :
  exists G' : Globals,
    refresh_verified_sigil_registry
      (only_grand_seal (bytes_of "P4 8 1" ++ [x0a; xff])) IndexAbsent
      initial_globals = Ret G' /\
    VERIFIED_SIGIL_REGISTRY G'
    = [mkItem 1 grand_seal_name (Some (Ret 4.2%Q))
         LILITH_GRAND_SEAL_PBM None None] /\
    ACTIVE_VERIFIED_SIGIL_IDS G' = [1] /\
    ACTIVE_SIGIL_WEIGHT_TABLE G' = [(1, 4.2%Q)] /\
    (ACTIVE_SIGIL_TOTAL_WEIGHT G' == 4.2)%Q /\
    SIGIL_MASKS_BY_ID G' = {[ 1 := mkMask 8 1 1 [xff] ]}.
Proof.
  apply (refresh_fallback_single_entry
           (only_grand_seal (bytes_of "P4 8 1" ++ [x0a; xff])) IndexAbsent
           initial_globals (mkMask 8 1 1 [xff])).
  - left. reflexivity.
  - reflexivity.
Defined.

(** ** The intent gate *)

Lemma py_getitem_in_range {A : Type} (l : list A) (i : Z) (d : A) :
  0 <= i < Z.of_nat (List.length l) ->
  py_getitem l i = Ret (nth (Z.to_nat i) l d).
Proof.
  intros Hi. unfold py_getitem.
  replace (i <? 0) with false by (symmetry; apply Z.ltb_ge; lia).
  replace (0 <=? i) with true by (symmetry; apply Z.leb_le; lia).
  replace (i <? Z.of_nat (List.length l)) with true
    by (symmetry; apply Z.ltb_lt; lia).
  cbn [andb].
  destruct (nth_error l (Z.to_nat i)) as [a |] eqn:E.
  - now rewrite (nth_error_nth _ _ d E).
  - apply nth_error_None in E. lia.
Qed.

Lemma focus_loop_counts (entropy_pool : list byte) (stride : Z) :
  let len := Z.of_nat (List.length entropy_pool) in
  0 < stride <= len ->
  forall (n i : nat) (hits : Z),
    focus_loop n entropy_pool stride ((Z.of_nat i * stride) mod len) hits
    = Ret (hits + Z.of_nat (List.length
                    (List.filter (hit_at entropy_pool stride) (seq i n)))).
Proof.
  intros len Hstride n.
  induction n as [| n IH]; intros i hits; cbn [focus_loop seq List.filter].
  - cbn. f_equal. lia.
  - fold len.
    set (cursor := (Z.of_nat i * stride) mod len).
    assert (Hc : 0 <= cursor < len) by (apply Z.mod_pos_bound; lia).
    rewrite (py_getitem_in_range _ _ x00) by exact Hc.
    cbn [py_bind]. unfold py_mod.
    replace (len =? 0) with false by (symmetry; apply Z.eqb_neq; lia).
    cbn [py_bind].
    assert (Hq : 0 <= (cursor + stride) mod len < len)
      by (apply Z.mod_pos_bound; lia).
    rewrite (py_getitem_in_range _ _ x00) by exact Hq.
    cbn [py_bind].
    assert (Hnext : (if len <=? cursor + stride
                     then cursor + stride - len else cursor + stride)
                    = (Z.of_nat (S i) * stride) mod len).
    { replace (Z.of_nat (S i) * stride) with (Z.of_nat i * stride + stride)
        by lia.
      rewrite <- Z.add_mod_idemp_l by lia. fold cursor.
      destruct (len <=? cursor + stride) eqn:E.
      - apply Z.leb_le in E.
        apply Z.mod_unique with 1; lia.
      - apply Z.leb_gt in E.
        symmetry. apply Z.mod_small. lia. }
    rewrite Hnext, IH.
    unfold hit_at at 2. fold len. fold cursor.
    destruct (near_pair _ _); cbn [List.length]; f_equal; lia.
Qed.

Lemma focus_stride_bounds (entropy_pool : list byte) :
  0 < Z.of_nat (List.length entropy_pool) ->
  0 < focus_stride entropy_pool <= Z.of_nat (List.length entropy_pool).
Proof.
  intros Hlen. unfold focus_stride, focus_sample_count.
  set (len := Z.of_nat (List.length entropy_pool)) in *.
  assert (Hd : 1 <= Z.max 1 (Z.min 160 len)) by lia.
  assert (Hq : len / Z.max 1 (Z.min 160 len) <= len).
  { apply Z.div_le_upper_bound; nia. }
  lia.
Qed.

Lemma focus_loop_strided_hits (entropy_pool : list byte) :
  focus_loop (Z.to_nat (focus_sample_count entropy_pool)) entropy_pool
    (focus_stride entropy_pool) 0 0
  = Ret (strided_hits entropy_pool).
Proof.
  destruct entropy_pool as [| b pool] eqn:Epool.
  - reflexivity.
  - rewrite <- Epool.
    assert (Hlen : 0 < Z.of_nat (List.length entropy_pool))
      by (subst; cbn [List.length]; lia).
    pose proof (focus_loop_counts entropy_pool (focus_stride entropy_pool)
                  (focus_stride_bounds entropy_pool Hlen)
                  (Z.to_nat (focus_sample_count entropy_pool)) 0%nat 0) as H.
    cbn [Z.of_nat Z.mul] in H. rewrite Z.mod_0_l in H by lia.
    rewrite H. reflexivity.
Qed.

(** C9: for every entropy buffer the gate computation returns; the gate
    is open exactly when the convergence count over the strided sample is
    at least 4, and the intent target lies in [[0, 1.5]].  ([math.sqrt] is
    only asked to be positive on positive arguments.) *)
Theorem intent_gate_open_iff_and_target_bounded
    (sqrt : Q -> Q) (entropy_pool : list byte) (intent_dilation : Q) :
  (forall v : Q, (0 < v)%Q -> (0 < sqrt v)%Q) ->
  exists it : Intent,
    intent_gate sqrt entropy_pool intent_dilation = Ret it /\
    convergence_hits it = strided_hits entropy_pool /\
    (intent_gate_open it = true <-> 4 <= strided_hits entropy_pool) /\
    (0 <= intent_target it /\ intent_target it <= 1.5)%Q.
Proof.
  intros Hsqrt. unfold intent_gate.
  rewrite focus_loop_strided_hits. cbn [py_bind].
  set (variance := Qmax _ _).
  assert (Hvar : (0 < variance)%Q).
  { apply Qlt_le_trans with (1 # 1000000)%Q; [reflexivity |].
    apply Q.le_max_l. }
  specialize (Hsqrt variance Hvar).
  unfold py_div.
  destruct (Qeq_bool (sqrt variance) 0) eqn:E.
  { apply Qeq_bool_iff in E. rewrite E in Hsqrt. now apply Qlt_irrefl in Hsqrt. }
  cbn [py_bind]. eexists. split; [reflexivity |].
  cbn [convergence_hits intent_gate_open intent_target].
  split; [reflexivity |]. split.
  - apply Z.leb_le.
  - split.
    + apply Q.le_max_l.
    + apply Q.max_lub; [discriminate | apply Q.le_min_l].
Qed.

Lemma intent_gate_open_iff_and_target_bounded_witness :
  exists it : Intent,
    intent_gate sqrt_upper [x00; x01; x00; x01; x00; x01; x00; x01] 0
    = Ret it /\
    convergence_hits it
    = strided_hits [x00; x01; x00; x01; x00; x01; x00; x01] /\
    (intent_gate_open it = true <->
     4 <= strided_hits [x00; x01; x00; x01; x00; x01; x00; x01]) /\
    (0 <= intent_target it /\ intent_target it <= 1.5)%Q.
Proof.
  apply (intent_gate_open_iff_and_target_bounded sqrt_upper
           [x00; x01; x00; x01; x00; x01; x00; x01] 0).
  intros v Hv. unfold sqrt_upper. lra.
Defined.

Example intent_gate_eight_hits :
  strided_hits [x00; x01; x00; x01; x00; x01; x00; x01] = 8.
Proof. reflexivity. Qed.

(** ** The excitation grid stays in [(0, 1]] *)

Tactic Notation "bind_inv" hyp(H) "as" simple_intropattern(p) ident(E) :=
  match type of H with
  | py_bind ?m _ = Ret _ =>
      destruct m as [p | ?] eqn:E; [cbn [py_bind] in H | discriminate H]
  end.

Lemma py_fold_invariant {A S : Type} (P : S -> Prop) (f : S -> A -> py S) :
  (forall s a s', P s -> f s a = Ret s' -> P s') ->
  forall (l : list A) (s s' : S), P s -> py_fold f l s = Ret s' -> P s'.
Proof.
  intros Hf l. induction l as [| a l IH]; intros s s' Hs H; cbn in H.
  - now inversion H; subst.
  - bind_inv H as s1 E. eapply IH; [| exact H]. eapply Hf; eassumption.
Qed.

Lemma grid_get_nonneg (g : gmap (Z * Z) Q) (k : Z * Z) :
  grid_in_range g -> (0 <= grid_get g k)%Q.
Proof.
  intros Hg. unfold grid_get. destruct (g !! k) as [a |] eqn:E; simpl.
  - apply Qlt_le_weak. now apply (Hg k a).
  - apply Qle_refl.
Qed.

Lemma raise_cell_in_range (g : gmap (Z * Z) Q) (k : Z * Z) (v : Q) :
  grid_in_range g -> (v <= 1)%Q -> grid_in_range (raise_cell g k v).
Proof.
  intros Hg Hv. unfold raise_cell, Qgtb.
  destruct (Qltb (grid_get g k) v) eqn:E; [| exact Hg].
  apply Qltb_lt in E. pose proof (grid_get_nonneg g k Hg) as H0.
  intros k' v' Hk'. destruct (decide (k' = k)) as [-> | Hne].
  - rewrite lookup_insert_eq in Hk'. inversion Hk'; subst. split; lra.
  - rewrite lookup_insert_ne in Hk' by congruence. now apply (Hg k').
Qed.

Lemma empty_in_range : grid_in_range ∅.
Proof. intros k v H. rewrite lookup_empty in H. discriminate. Qed.

Lemma inject_no_halo (grid : gmap (Z * Z) Q) (sparks : gset (Z * Z))
    (x y : Z) (b : Q) (r : Trng) (width height : Z) :
  inject_sigil_excitation grid sparks x y b r width height false
  = if out_of_grid x y width height then (grid, sparks, r)
    else (raise_cell grid (x, y) b, {[ (x, y) ]} ∪ sparks, r).
Proof.
  unfold inject_sigil_excitation.
  destruct (out_of_grid x y width height); reflexivity.
Qed.

Lemma inject_no_halo_in_range (grid : gmap (Z * Z) Q) (sparks : gset (Z * Z))
    (x y : Z) (b : Q) (r : Trng) (width height : Z) :
  grid_in_range grid -> (b <= 1)%Q ->
  grid_in_range
    (inject_sigil_excitation grid sparks x y b r width height false).1.1.
Proof.
  intros Hg Hb. rewrite inject_no_halo.
  destruct (out_of_grid x y width height); cbn [fst];
    [exact Hg | now apply raise_cell_in_range].
Qed.

Lemma decay_grid_lookup (grid : gmap (Z * Z) Q) (decay : Q) (k : Z * Z) (v : Q) :
  decay_grid grid decay !! k = Some v ->
  (0 < v)%Q /\ exists v0 : Q, grid !! k = Some v0 /\ v = (v0 - decay)%Q.
Proof.
  unfold decay_grid. rewrite lookup_omap, lookup_fmap.
  destruct (grid !! k) as [v0 |]; cbn; [| discriminate].
  destruct (Qle_bool (v0 - decay) 0) eqn:E; [discriminate |].
  intros H. inversion H; subst. split.
  - apply Qltb_lt. unfold Qltb. now rewrite E.
  - exists v0. split; reflexivity.
Qed.

Lemma excite_decay_positive (dilation : Q) (gate_open : bool) :
  (0 < excite_decay dilation gate_open)%Q.
Proof.
  unfold excite_decay.
  apply Qlt_le_trans with 0.08%Q; [reflexivity | apply Q.le_max_l].
Qed.

Lemma decay_grid_in_range (grid : gmap (Z * Z) Q) (decay : Q) :
  (0 <= decay)%Q -> grid_in_range grid -> grid_in_range (decay_grid grid decay).
Proof.
  intros Hd Hg k v Hk.
  apply decay_grid_lookup in Hk. destruct Hk as (Hpos & v0 & Hv0 & ->).
  split; [exact Hpos |].
  destruct (Hg k v0 Hv0) as [_ Hle]. lra.
Qed.

Lemma ignite_step_in_range (G : Globals) (width height : Z) (chance : Q)
    (acc acc' : gmap (Z * Z) Q * gset (Z * Z) * Trng) (sig : Sigil) :
  triple_in_range acc ->
  ignite_step G width height chance acc sig = Ret acc' ->
  triple_in_range acc'.
Proof.
  destruct acc as [[grid sparks] r]. unfold triple_in_range, ignite_step.
  cbn [fst]. intros Hg H.
  unfold trng_random, trng_uniform in H.
  destruct (Qltb _ chance); [| now inversion H; subst].
  destruct (in_grid _ _ width height); [| now inversion H; subst].
  bind_inv H as hit E. destruct hit; inversion H; subst; [| exact Hg].
  apply inject_no_halo_in_range; [exact Hg | discriminate].
Qed.

Lemma spread_step_in_range (G : Globals) (entropy_pool : list byte)
    (sigils : list Sigil) (width height : Z) (chance : Q) (s : Z * Z)
    (acc acc' : gmap (Z * Z) Q * gset (Z * Z) * Trng) (d : Z * Z) :
  triple_in_range acc ->
  spread_step G entropy_pool sigils width height chance s acc d = Ret acc' ->
  triple_in_range acc'.
Proof.
  destruct acc as [[grid sparks] r]. unfold triple_in_range, spread_step.
  cbn [fst]. intros Hg H.
  destruct (in_grid _ _ width height); [| now inversion H; subst].
  destruct (match grid !! _ with Some _ => _ | None => _ end);
    [| now inversion H; subst].
  bind_inv H as e E1. bind_inv H as part E2.
  destruct part; [| now inversion H; subst].
  unfold trng_random in H.
  destruct (Qltb _ chance); inversion H; subst; [| exact Hg].
  apply inject_no_halo_in_range; [exact Hg | discriminate].
Qed.

Lemma propagate_in_range (G : Globals) (entropy_pool : list byte)
    (sigils : list Sigil) (width height : Z) (chance : Q)
    (sparks : gset (Z * Z)) (grid : gmap (Z * Z) Q) (r : Trng)
    (acc' : gmap (Z * Z) Q * gset (Z * Z) * Trng) :
  grid_in_range grid ->
  propagate G entropy_pool sigils width height chance sparks grid r = Ret acc' ->
  triple_in_range acc'.
Proof.
  intros Hg H. unfold propagate in H.
  eapply (py_fold_invariant triple_in_range); [| | exact H]; [| exact Hg].
  intros acc s acc1 Hacc Hs.
  eapply (py_fold_invariant triple_in_range); [| exact Hacc | exact Hs].
  intros a d a' Ha Hd. eapply spread_step_in_range; eassumption.
Qed.

Lemma render_cell_in_range (G : Globals) (C : Catalog) (inp : FrameInput)
    (sigils : list Sigil)
    (acc acc' : gmap (Z * Z) Q * gset (Z * Z) * Trng) (c : Z * Z) :
  triple_in_range acc ->
  render_cell G C inp sigils acc c = Ret acc' ->
  triple_in_range acc'.
Proof.
  destruct acc as [[grid sparks] r], c as [x y].
  unfold triple_in_range, render_cell. cbn [fst]. intros Hg H.
  bind_inv H as e E1.
  destruct (Qgtb (grid_get grid (x, y)) 0).
  - bind_inv H as drawn E2. now inversion H; subst.
  - destruct (_ && _); [| now inversion H; subst].
    bind_inv H as hit E2. destruct hit; inversion H; subst; [| exact Hg].
    apply inject_no_halo_in_range; [exact Hg | discriminate].
Qed.

Lemma main_frame_in_range (sqrt : Q -> Q) (G : Globals) (C : Catalog)
    (inp : FrameInput) (st st' : MainState) :
  grid_in_range (excitation_grid st) ->
  main_frame sqrt G C inp st = Ret st' ->
  grid_in_range (excitation_grid st').
Proof.
  intros Hg H. unfold main_frame in H.
  destruct (_ || _); [now inversion H; subst |].
  unfold trng_random at 1 in H. cbn [fst snd] in H.
  bind_inv H as mean Emean. bind_inv H as it Eit.
  repeat match type of H with
         | context [let '(_, _) := ?e in _] => destruct e
         end.
  bind_inv H as ig Eig. destruct ig as [[grid1 sparks1] r1].
  bind_inv H as pr Epr.
  bind_inv H as rd Erd. destruct rd as [[grid3 sparks3] r3].
  inversion H; subst. cbn [excitation_grid].
  assert (H1 : triple_in_range (grid1, sparks1, r1)).
  { eapply (py_fold_invariant triple_in_range); [| | exact Eig]; [| exact Hg].
    intros s a s' Hs Ha. eapply ignite_step_in_range; eassumption. }
  assert (H2 : triple_in_range pr).
  { eapply propagate_in_range; [| exact Epr].
    apply decay_grid_in_range; [| exact H1].
    apply Qlt_le_weak, excite_decay_positive. }
  change (triple_in_range (grid3, sparks3, r3)).
  eapply (py_fold_invariant triple_in_range); [| exact H2 | exact Erd].
  intros s c s' Hs Hc. eapply render_cell_in_range; eassumption.
Qed.

Lemma run_frames_in_range (sqrt : Q -> Q) (G : Globals) (C : Catalog)
    (inputs : list FrameInput) (st st' : MainState) :
  grid_in_range (excitation_grid st) ->
  run_frames sqrt G C inputs st = Ret st' ->
  grid_in_range (excitation_grid st').
Proof.
  intros Hg H. unfold run_frames in H.
  revert Hg H.
  apply (py_fold_invariant (fun s => grid_in_range (excitation_grid s))
           (fun s inp => main_frame sqrt G C inp s)).
  intros s inp s' Hs Hinp. eapply main_frame_in_range; eassumption.
Qed.

(** C6: at the end of every frame of a run that starts with the empty
    grid, every cell present in the excitation grid holds an intensity
    greater than 0 and at most 1.  In particular whatever the decay step
    keeps is greater than 0 (it is the old value less the decay), and the
    injections a frame makes, which carry 1.0 or 0.94 and no halo, keep
    every value in [(0, 1]]. *)
Theorem excitation_in_range_at_frame_end :
  (forall (sqrt : Q -> Q) (G : Globals) (C : Catalog)
          (inputs : list FrameInput) (r : Trng) (st : MainState),
     run_frames sqrt G C inputs (initial_state r) = Ret st ->
     grid_in_range (excitation_grid st)) /\
  (forall (grid : gmap (Z * Z) Q) (decay : Q) (k : Z * Z) (v : Q),
     decay_grid grid decay !! k = Some v ->
     (0 < v)%Q /\ exists v0 : Q, grid !! k = Some v0 /\ v = (v0 - decay)%Q) /\
  (forall (grid : gmap (Z * Z) Q) (sparks : gset (Z * Z)) (x y : Z)
          (base_intensity : Q) (r : Trng) (width height : Z),
     base_intensity = 1%Q \/ base_intensity = 0.94%Q ->
     grid_in_range grid ->
     grid_in_range
       (inject_sigil_excitation grid sparks x y base_intensity r
          width height false).1.1).
Proof.
  split; [| split].
  - intros sqrt G C inputs r st H.
    eapply run_frames_in_range; [| exact H]. apply empty_in_range.
  - apply decay_grid_lookup.
  - intros grid sparks x y b r width height Hb Hg.
    apply inject_no_halo_in_range; [exact Hg |].
    destruct Hb as [-> | ->]; discriminate.
Qed.

Lemma excitation_in_range_at_frame_end_witness :
  match run_frames sqrt_upper seal_globals star_catalog
          [dark_frame 0; dark_frame 0.05; dark_frame 0.1]
          (initial_state edge_tape) with
  | Ret st =>
      (exists v : Q, excitation_grid st !! (39, 5) = Some v /\ (v < 0.7)%Q) /\
      grid_in_range (excitation_grid st)
  | Raise _ => False
  end /\
  match run_frames sqrt_upper seal_globals star_catalog [bright_frame 0]
          (initial_state scene_tape) with
  | Ret st =>
      excitation_grid st !! (20, 5) = Some 1%Q /\
      grid_in_range (excitation_grid st)
  | Raise _ => False
  end /\
  (0 < 1 - 0.12)%Q /\
  grid_in_range
    (inject_sigil_excitation {[ (3, 4) := 0.5%Q ]} ∅ 3 4 0.94 sample_trng
       40 10 false).1.1.
Proof.
  split; [| split; [| split]].
  - assert (L : match run_frames sqrt_upper seal_globals star_catalog
                        [dark_frame 0; dark_frame 0.05; dark_frame 0.1]
                        (initial_state edge_tape) with
                | Ret st =>
                    exists v : Q,
                      excitation_grid st !! (39, 5) = Some v /\ (v < 0.7)%Q
                | Raise _ => False
                end).
    { vm_compute. eexists. split; reflexivity. }
    destruct (run_frames sqrt_upper seal_globals star_catalog
                [dark_frame 0; dark_frame 0.05; dark_frame 0.1]
                (initial_state edge_tape)) as [st | e] eqn:E;
      [| exact L].
    split; [exact L |].
    exact (proj1 excitation_in_range_at_frame_end sqrt_upper seal_globals
             star_catalog _ edge_tape st E).
  - assert (L : match run_frames sqrt_upper seal_globals star_catalog
                        [bright_frame 0] (initial_state scene_tape) with
                | Ret st => excitation_grid st !! (20, 5) = Some 1%Q
                | Raise _ => False
                end) by (vm_compute; reflexivity).
    destruct (run_frames sqrt_upper seal_globals star_catalog
                [bright_frame 0] (initial_state scene_tape)) as [st | e] eqn:E;
      [| exact L].
    split; [exact L |].
    exact (proj1 excitation_in_range_at_frame_end sqrt_upper seal_globals
             star_catalog [bright_frame 0] scene_tape st E).
  - apply (proj1 (proj2 excitation_in_range_at_frame_end)
             {[ (3, 4) := 1%Q ]} 0.12%Q (3, 4) (1 - 0.12)%Q).
    reflexivity.
  - apply (proj2 (proj2 excitation_in_range_at_frame_end)
             {[ (3, 4) := 0.5%Q ]} ∅ 3 4 0.94%Q sample_trng 40 10).
    + right. reflexivity.
    + intros k v Hk. apply lookup_singleton_Some in Hk.
      destruct Hk as [_ <-]. split; [reflexivity | discriminate].
Defined.

(** In the bright scene the second frame meets the cells the first one
    seeded and stops in the excitation layer. *)
Example second_frame_raises :
  run_frames sqrt_upper seal_globals star_catalog
    [bright_frame 0; bright_frame 0.05] (initial_state scene_tape)
  = Raise NameError.
Proof. vm_compute. reflexivity. Qed.

(** ** The raster decoder: the header loop *)

Lemma scan_app (cond : byte -> bool) (run rest : list byte) (idx : nat) :
  Forall (fun b => cond b = true) run -> stops cond rest ->
  scan cond (run ++ rest) idx = (idx + List.length run)%nat.
Proof.
  intros Hrun Hrest. revert idx.
  induction Hrun as [| b run Hb Hrun IH]; intros idx; cbn [app scan List.length].
  - destruct rest as [| c rest]; cbn [scan]; [lia |].
    cbn [stops] in Hrest. rewrite Hrest. lia.
  - rewrite Hb, IH. lia.
Qed.

Lemma span_exists (cond : byte -> bool) (rest : list byte) :
  exists run rest1 : list byte,
    rest = run ++ rest1 /\ Forall (fun b => cond b = true) run /\
    stops cond rest1.
Proof.
  induction rest as [| b rest IH].
  - exists [], []. repeat split; constructor.
  - destruct (cond b) eqn:E.
    + destruct IH as (run & rest1 & -> & Hrun & Hstop).
      exists (b :: run), rest1. repeat split; [constructor |]; assumption.
    + exists [], (b :: rest). repeat split; [constructor | exact E].
Qed.

Lemma advance_while_app (cond : byte -> bool) (pre run rest : list byte) :
  Forall (fun b => cond b = true) run -> stops cond rest ->
  advance_while cond (pre ++ run ++ rest) (List.length pre)
  = (List.length pre + List.length run)%nat.
Proof.
  intros Hrun Hrest. unfold advance_while.
  rewrite skipn_app, skipn_all, Nat.sub_diag. cbn [app skipn].
  now apply scan_app.
Qed.

Lemma advance_while_here (cond : byte -> bool) (pre rest : list byte) :
  stops cond rest ->
  advance_while cond (pre ++ rest) (List.length pre) = List.length pre.
Proof.
  intros Hrest.
  pose proof (advance_while_app cond pre [] rest (List.Forall_nil _) Hrest) as H.
  cbn [app List.length] in H. rewrite H. lia.
Qed.

Lemma getitem_middle (pre : list byte) (b : byte) (rest : list byte) :
  getitem (pre ++ b :: rest) (List.length pre) = Ret b.
Proof.
  unfold getitem. rewrite nth_error_app2 by lia.
  now rewrite Nat.sub_diag.
Qed.

Lemma py_slice_middle (pre mid post : list byte) :
  py_slice (pre ++ mid ++ post) (Z.of_nat (List.length pre))
           (Z.of_nat (List.length pre + List.length mid)) = mid.
Proof.
  unfold py_slice, slice_bound. rewrite !length_app.
  replace (Z.of_nat (List.length pre) <? 0) with false
    by (symmetry; apply Z.ltb_ge; lia).
  replace (Z.of_nat (List.length pre + List.length mid) <? 0) with false
    by (symmetry; apply Z.ltb_ge; lia).
  rewrite !Z.min_l by lia.
  replace (Z.to_nat (Z.of_nat (List.length pre + List.length mid)
                     - Z.of_nat (List.length pre)))
    with (List.length mid) by lia.
  rewrite Nat2Z.id, skipn_app, skipn_all, Nat.sub_diag. cbn [app].
  rewrite skipn_O, firstn_app, firstn_all, Nat.sub_diag. cbn [firstn].
  apply app_nil_r.
Qed.

Lemma is_pbm_space_not (b : byte) :
  not_pbm_space b = negb (is_pbm_space b).
Proof. reflexivity. Qed.

Lemma hash_is_no_line_end : not_line_end x23 = true.
Proof. reflexivity. Qed.

Lemma line_end_is_space (b : byte) :
  not_line_end b = false -> is_pbm_space b = true.
Proof.
  unfold not_line_end, is_pbm_space, byte_in, line_end, pbm_space.
  cbn [existsb]. intros H. apply negb_false_iff in H.
  destruct (Byte.eqb b x0d), (Byte.eqb b x0a);
    rewrite ?orb_true_r; cbn in *; congruence.
Qed.

(** The loop guard, and the four ways one turn of the loop can go. *)

Lemma read_done (fuel : nat) (data : list byte) (idx : nat)
    (toks : list (list byte)) :
  (2 <= List.length toks)%nat \/ (List.length data <= idx)%nat ->
  read_size_tokens fuel data idx toks = Ret (idx, toks).
Proof.
  intros H.
  assert (E : (List.length toks <? 2)%nat && (idx <? List.length data)%nat
              = false).
  { apply andb_false_iff. rewrite !Nat.ltb_ge. lia. }
  destruct fuel; cbn [read_size_tokens]; now rewrite E.
Qed.

Lemma read_turn (fuel : nat) (data : list byte) (idx : nat)
    (toks : list (list byte)) :
  (List.length toks < 2)%nat -> (idx < List.length data)%nat ->
  read_size_tokens (S fuel) data idx toks
  = let idx1 := advance_while is_pbm_space data idx in
    if (List.length data <=? idx1)%nat then Ret (idx1, toks)
    else
      b <~ getitem data idx1 ;;
      if Byte.eqb b x23 then
        read_size_tokens fuel data (advance_while not_line_end data idx1) toks
      else
        read_size_tokens fuel data (advance_while not_pbm_space data idx1)
          (toks ++ [py_slice data (Z.of_nat idx1)
                      (Z.of_nat (advance_while not_pbm_space data idx1))]).
Proof.
  intros Htoks Hidx. cbn [read_size_tokens].
  replace ((List.length toks <? 2)%nat && (idx <? List.length data)%nat)
    with true; [reflexivity |].
  symmetry. apply andb_true_iff. rewrite !Nat.ltb_lt. lia.
Qed.

Lemma read_end (fuel : nat) (pre run : list byte) (toks : list (list byte)) :
  (List.length toks < 2)%nat ->
  Forall (fun b => is_pbm_space b = true) run ->
  read_size_tokens (S fuel) (pre ++ run) (List.length pre) toks
  = Ret (List.length (pre ++ run), toks).
Proof.
  intros Htoks Hrun. destruct run as [| b run].
  - rewrite app_nil_r. apply read_done. right. lia.
  - assert (E : advance_while is_pbm_space (pre ++ b :: run) (List.length pre)
                = List.length (pre ++ b :: run)).
    { pose proof (advance_while_app is_pbm_space pre (b :: run) [] Hrun I) as H.
      rewrite app_nil_r in H. now rewrite H, length_app. }
    rewrite read_turn by (rewrite ?length_app; cbn; lia).
    cbv zeta. rewrite !E. now rewrite Nat.leb_refl.
Qed.

Lemma read_space (fuel : nat) (pre : list byte) (b : byte) (rest : list byte)
    (toks : list (list byte)) :
  (List.length toks < 2)%nat -> is_pbm_space b = true ->
  read_size_tokens (S fuel) (pre ++ b :: rest) (List.length pre) toks
  = read_size_tokens (S fuel) ((pre ++ [b]) ++ rest)
      (List.length (pre ++ [b])) toks.
Proof.
  intros Htoks Hb.
  destruct (span_exists is_pbm_space rest) as (run & rest1 & -> & Hrun & Hstop).
  destruct rest1 as [| c rest1].
  - rewrite app_nil_r.
    rewrite (read_end fuel pre (b :: run)) by (trivial; now constructor).
    rewrite (read_end fuel (pre ++ [b]) run) by trivial.
    now rewrite <- app_assoc.
  - assert (Edata : (pre ++ [b]) ++ run ++ c :: rest1
                    = pre ++ b :: run ++ c :: rest1)
      by now rewrite <- app_assoc.
    assert (E1 : advance_while is_pbm_space (pre ++ b :: run ++ c :: rest1)
                   (List.length pre)
                 = (List.length pre + S (List.length run))%nat).
    { apply (advance_while_app is_pbm_space pre (b :: run) (c :: rest1));
        [now constructor | exact Hstop]. }
    assert (E2 : advance_while is_pbm_space (pre ++ b :: run ++ c :: rest1)
                   (List.length (pre ++ [b]))
                 = (List.length pre + S (List.length run))%nat).
    { rewrite <- Edata.
      rewrite (advance_while_app is_pbm_space (pre ++ [b]) run (c :: rest1))
        by assumption.
      rewrite length_app. cbn. lia. }
    rewrite Edata.
    rewrite !read_turn by (rewrite ?length_app; cbn; rewrite ?length_app; cbn; lia).
    cbv zeta. rewrite !E1, !E2. reflexivity.
Qed.

Lemma read_spaces (fuel : nat) (run : list byte) :
  forall (pre rest : list byte) (toks : list (list byte)),
    (List.length toks < 2)%nat ->
    Forall (fun b => is_pbm_space b = true) run ->
    read_size_tokens (S fuel) (pre ++ run ++ rest) (List.length pre) toks
    = read_size_tokens (S fuel) ((pre ++ run) ++ rest)
        (List.length (pre ++ run)) toks.
Proof.
  induction run as [| b run IH]; intros pre rest toks Htoks Hrun.
  - now rewrite app_nil_r.
  - inversion Hrun as [| ? ? Hb Hrun']; subst.
    cbn [app]. rewrite read_space by assumption.
    rewrite IH by assumption.
    now rewrite <- !app_assoc.
Qed.

Lemma read_comment (fuel : nat) (pre body rest : list byte)
    (toks : list (list byte)) :
  (List.length toks < 2)%nat ->
  Forall (fun b => not_line_end b = true) body -> stops not_line_end rest ->
  read_size_tokens (S fuel) (pre ++ x23 :: body ++ rest) (List.length pre) toks
  = read_size_tokens fuel ((pre ++ x23 :: body) ++ rest)
      (List.length (pre ++ x23 :: body)) toks.
Proof.
  intros Htoks Hbody Hstop.
  assert (Edata : (pre ++ x23 :: body) ++ rest = pre ++ x23 :: body ++ rest)
    by now rewrite <- app_assoc.
  assert (E1 : advance_while is_pbm_space (pre ++ x23 :: body ++ rest)
                 (List.length pre) = List.length pre).
  { apply (advance_while_here is_pbm_space pre (x23 :: body ++ rest)).
    reflexivity. }
  assert (E2 : advance_while not_line_end (pre ++ x23 :: body ++ rest)
                 (List.length pre) = List.length (pre ++ x23 :: body)).
  { rewrite length_app.
    apply (advance_while_app not_line_end pre (x23 :: body) rest);
      [constructor; [reflexivity | assumption] | exact Hstop]. }
  rewrite Edata.
  rewrite read_turn by (rewrite ?length_app; cbn; lia).
  cbv zeta. rewrite !E1.
  replace (List.length (pre ++ x23 :: body ++ rest) <=? List.length pre)%nat
    with false by (symmetry; apply Nat.leb_gt; rewrite length_app; cbn; lia).
  rewrite getitem_middle. cbn [py_bind].
  replace (Byte.eqb x23 x23) with true by reflexivity.
  now rewrite E2.
Qed.

Lemma read_word (fuel : nat) (pre token rest : list byte)
    (toks : list (list byte)) :
  (List.length toks < 2)%nat ->
  pbm_word token -> stops not_pbm_space rest ->
  read_size_tokens (S fuel) (pre ++ token ++ rest) (List.length pre) toks
  = read_size_tokens fuel ((pre ++ token) ++ rest)
      (List.length (pre ++ token)) (toks ++ [token]).
Proof.
  intros Htoks Hword Hstop.
  destruct token as [| b token]; [contradiction |].
  destruct Hword as (Hb & Hhash & Htoken).
  assert (Hrun : Forall (fun c => not_pbm_space c = true) (b :: token)).
  { constructor; [| exact Htoken]. rewrite is_pbm_space_not, Hb. reflexivity. }
  assert (Edata : (pre ++ b :: token) ++ rest = pre ++ b :: token ++ rest)
    by now rewrite <- app_assoc.
  assert (E1 : advance_while is_pbm_space (pre ++ b :: token ++ rest)
                 (List.length pre) = List.length pre).
  { apply (advance_while_here is_pbm_space pre (b :: token ++ rest)).
    exact Hb. }
  assert (E2 : advance_while not_pbm_space (pre ++ b :: token ++ rest)
                 (List.length pre) = List.length (pre ++ b :: token)).
  { rewrite length_app.
    apply (advance_while_app not_pbm_space pre (b :: token) rest); assumption. }
  assert (E3 : py_slice (pre ++ b :: token ++ rest)
                 (Z.of_nat (List.length pre))
                 (Z.of_nat (List.length (pre ++ b :: token))) = b :: token).
  { rewrite length_app.
    apply (py_slice_middle pre (b :: token) rest). }
  rewrite Edata. cbn [app].
  rewrite read_turn by (rewrite ?length_app; cbn; lia).
  cbv zeta. rewrite !E1.
  replace (List.length (pre ++ b :: token ++ rest) <=? List.length pre)%nat
    with false by (symmetry; apply Nat.leb_gt; rewrite length_app; cbn; lia).
  rewrite getitem_middle. cbn [py_bind].
  destruct (Byte.eqb b x23) eqn:Eb;
    [apply Byte.byte_dec_bl in Eb; contradiction |].
  now rewrite !E2, E3.
Qed.

Lemma read_no_fuel (data : list byte) (idx : nat) (toks : list (list byte)) :
  (List.length toks < 2)%nat -> (idx < List.length data)%nat ->
  read_size_tokens 0 data idx toks = Raise FuelExhausted.
Proof.
  intros Htoks Hidx. cbn [read_size_tokens].
  replace ((List.length toks <? 2)%nat && (idx <? List.length data)%nat)
    with true; [reflexivity |].
  symmetry. apply andb_true_iff. rewrite !Nat.ltb_lt. lia.
Qed.

Lemma gap_of_spaces (run gap : list byte) :
  Forall (fun b => is_pbm_space b = true) run -> header_gap gap ->
  header_gap (run ++ gap).
Proof.
  intros Hrun Hgap. induction Hrun as [| b run Hb Hrun IH]; cbn [app].
  - exact Hgap.
  - now apply gap_space.
Qed.

(** The loop works its way through a gap without collecting a token. *)
Lemma read_gap (gap : list byte) :
  header_gap gap ->
  forall (fuel : nat) (pre rest : list byte) (toks : list (list byte)),
    (List.length toks < 2)%nat ->
    (List.length (gap ++ rest) <= fuel)%nat ->
    exists fuel' : nat,
      (List.length rest <= fuel')%nat /\
      read_size_tokens fuel (pre ++ gap ++ rest) (List.length pre) toks
      = read_size_tokens fuel' ((pre ++ gap) ++ rest)
          (List.length (pre ++ gap)) toks.
Proof.
  induction 1 as [| b gap Hb Hgap IH | body nl gap Hbody Hnl Hgap IH];
    intros fuel pre rest toks Htoks Hfuel.
  - exists fuel. split; [exact Hfuel |]. now rewrite app_nil_r.
  - destruct fuel as [| fuel]; [cbn in Hfuel; lia |].
    destruct (IH (S fuel) (pre ++ [b]) rest toks Htoks) as (fuel' & Hf & E).
    { cbn [app List.length] in Hfuel. lia. }
    exists fuel'. split; [exact Hf |].
    replace ((pre ++ [b]) ++ gap) with (pre ++ b :: gap) in E
      by (rewrite <- app_assoc; reflexivity).
    rewrite <- E. cbn [app].
    apply read_space; assumption.
  - destruct fuel as [| fuel]; [cbn in Hfuel; lia |].
    assert (Hlen : (S (List.length body + S (List.length (gap ++ rest)))
                    <= S fuel)%nat).
    { cbn [app List.length] in Hfuel.
      rewrite <- app_assoc, length_app in Hfuel. cbn [app List.length] in Hfuel.
      exact Hfuel. }
    destruct fuel as [| fuel]; [lia |].
    destruct (IH (S fuel) (pre ++ x23 :: body ++ [nl]) rest toks Htoks)
      as (fuel' & Hf & E).
    { lia. }
    exists fuel'. split; [exact Hf |].
    replace ((pre ++ x23 :: body ++ [nl]) ++ gap)
      with (pre ++ x23 :: body ++ nl :: gap) in E
      by (rewrite <- !app_assoc; cbn [app]; rewrite <- app_assoc; reflexivity).
    rewrite <- E. clear E.
    replace (pre ++ (x23 :: body ++ nl :: gap) ++ rest)
      with (pre ++ x23 :: body ++ nl :: gap ++ rest)
      by (cbn [app]; rewrite <- app_assoc; reflexivity).
    rewrite (read_comment (S fuel) pre body (nl :: gap ++ rest))
      by (trivial; exact Hnl).
    replace ((pre ++ x23 :: body) ++ nl :: gap ++ rest)
      with ((pre ++ x23 :: body) ++ nl :: (gap ++ rest)) by reflexivity.
    rewrite (read_space fuel (pre ++ x23 :: body) nl (gap ++ rest))
      by (trivial; now apply line_end_is_space).
    replace ((pre ++ x23 :: body) ++ [nl]) with (pre ++ x23 :: body ++ [nl])
      by (rewrite <- app_assoc; reflexivity).
    reflexivity.
Qed.

(** Completeness of the header loop: given text of the right shape it
    collects the tokens and stops right behind them. *)
Lemma read_header_tokens (new : list (list byte)) (consumed rest : list byte) :
  header_tokens new consumed rest ->
  forall (fuel : nat) (pre : list byte) (toks : list (list byte)),
    (List.length toks + List.length new = 2)%nat ->
    (List.length (consumed ++ rest) <= fuel)%nat ->
    read_size_tokens fuel (pre ++ consumed ++ rest) (List.length pre) toks
    = Ret (List.length (pre ++ consumed), toks ++ new).
Proof.
  induction 1 as [rest | gap token new consumed rest Hgap Hword Hstop Hrest IH];
    intros fuel pre toks Hlen Hfuel.
  - cbn [app]. rewrite !app_nil_r. apply read_done. left.
    cbn [List.length] in Hlen. lia.
  - cbn [List.length] in Hlen.
    assert (Hnonempty : (1 <= List.length token)%nat)
      by (destruct token; [contradiction | cbn; lia]).
    replace ((gap ++ token ++ consumed) ++ rest)
      with (gap ++ token ++ consumed ++ rest) in *
      by (now rewrite <- !app_assoc).
    destruct (read_gap gap Hgap fuel pre (token ++ consumed ++ rest) toks)
      as (fuel' & Hf & E); [lia | exact Hfuel |].
    rewrite E. clear E.
    rewrite length_app in Hf.
    destruct fuel' as [| fuel']; [lia |].
    rewrite (read_word fuel' (pre ++ gap) token (consumed ++ rest))
      by (trivial; lia).
    rewrite (IH fuel' ((pre ++ gap) ++ token) (toks ++ [token])).
    + rewrite <- !app_assoc. reflexivity.
    + rewrite length_app. cbn [List.length]. lia.
    + lia.
Qed.

(** One turn of the loop, by what the text at the cursor looks like:
    nothing but white space; a comment; a token. *)
Lemma read_cases (fuel : nat) (pre rest : list byte) (toks : list (list byte)) :
  (List.length toks < 2)%nat ->
  (Forall (fun b => is_pbm_space b = true) rest /\
   read_size_tokens (S fuel) (pre ++ rest) (List.length pre) toks
   = Ret (List.length (pre ++ rest), toks)) \/
  (exists run body rest2 : list byte,
     rest = run ++ x23 :: body ++ rest2 /\
     Forall (fun b => is_pbm_space b = true) run /\
     Forall (fun b => not_line_end b = true) body /\
     stops not_line_end rest2 /\
     read_size_tokens (S fuel) (pre ++ rest) (List.length pre) toks
     = read_size_tokens fuel ((pre ++ run ++ x23 :: body) ++ rest2)
         (List.length (pre ++ run ++ x23 :: body)) toks) \/
  (exists run token rest2 : list byte,
     rest = run ++ token ++ rest2 /\
     Forall (fun b => is_pbm_space b = true) run /\
     pbm_word token /\
     stops not_pbm_space rest2 /\
     read_size_tokens (S fuel) (pre ++ rest) (List.length pre) toks
     = read_size_tokens fuel ((pre ++ run ++ token) ++ rest2)
         (List.length (pre ++ run ++ token)) (toks ++ [token])).
Proof.
  intros Htoks.
  destruct (span_exists is_pbm_space rest) as (run & rest1 & -> & Hrun & Hstop).
  destruct rest1 as [| b t].
  - left. rewrite app_nil_r. split; [exact Hrun | now apply read_end].
  - right. cbn [stops] in Hstop.
    rewrite (read_spaces fuel run pre (b :: t) toks Htoks Hrun).
    destruct (Byte.eqb b x23) eqn:Eb.
    + left. apply Byte.byte_dec_bl in Eb. subst b.
      destruct (span_exists not_line_end t) as (body & rest2 & -> & Hbody & Hstop2).
      exists run, body, rest2.
      split; [reflexivity |]. split; [exact Hrun |].
      split; [exact Hbody |]. split; [exact Hstop2 |].
      rewrite (read_comment fuel (pre ++ run) body rest2 toks Htoks Hbody Hstop2).
      now rewrite <- !app_assoc.
    + right.
      destruct (span_exists not_pbm_space t) as (tk & rest2 & -> & Htk & Hstop2).
      assert (Hword : pbm_word (b :: tk)).
      { cbn [pbm_word]. repeat split; [exact Hstop | | exact Htk].
        intros ->. discriminate Eb. }
      exists run, (b :: tk), rest2.
      split; [reflexivity |]. split; [exact Hrun |].
      split; [exact Hword |]. split; [exact Hstop2 |].
      change (b :: tk ++ rest2) with ((b :: tk) ++ rest2).
      rewrite (read_word fuel (pre ++ run) (b :: tk) rest2 toks Htoks Hword Hstop2).
      now rewrite <- !app_assoc.
Qed.

(** With as much fuel as there are bytes left, the loop returns. *)
Lemma read_total (fuel : nat) :
  forall (pre rest : list byte) (toks : list (list byte)),
    (List.length rest <= fuel)%nat ->
    exists r : nat * list (list byte),
      read_size_tokens fuel (pre ++ rest) (List.length pre) toks = Ret r.
Proof.
  induction fuel as [| fuel IH]; intros pre rest toks Hfuel.
  - destruct rest; [| cbn in Hfuel; lia].
    eexists. apply read_done. right. rewrite app_nil_r. lia.
  - destruct (le_lt_dec 2 (List.length toks)) as [H2 | H2].
    { eexists. apply read_done. now left. }
    destruct (read_cases fuel pre rest toks H2)
      as [[_ E] | [(run & body & rest2 & -> & _ & _ & _ & E)
                 | (run & token & rest2 & -> & _ & Hword & _ & E)]];
      rewrite E.
    + eexists. reflexivity.
    + apply IH. rewrite !length_app in Hfuel. cbn [List.length] in Hfuel.
      rewrite length_app in Hfuel. lia.
    + apply IH. rewrite !length_app in Hfuel.
      destruct token; [contradiction |]. cbn [List.length] in Hfuel. lia.
Qed.

(** Soundness of the header loop: when it ends with two tokens, the text
    it went through has the shape of a header. *)
Lemma read_two_tokens (fuel : nat) :
  forall (pre rest : list byte) (toks toks' : list (list byte)) (idx' : nat),
    read_size_tokens fuel (pre ++ rest) (List.length pre) toks
    = Ret (idx', toks') ->
    List.length toks' = 2%nat ->
    exists (new : list (list byte)) (consumed rest' : list byte),
      rest = consumed ++ rest' /\ toks' = toks ++ new /\
      idx' = List.length (pre ++ consumed) /\
      header_tokens new consumed rest'.
Proof.
  induction fuel as [| fuel IH]; intros pre rest toks toks' idx' H Hlen'.
  - destruct (le_lt_dec 2 (List.length toks)) as [H2 | H2].
    + rewrite read_done in H by now left. inversion H; subst.
      exists [], [], rest. rewrite !app_nil_r.
      repeat split; constructor.
    + destruct rest as [| b rest].
      * rewrite read_done in H by (right; rewrite app_nil_r; lia).
        inversion H; subst. lia.
      * rewrite read_no_fuel in H by (rewrite ?length_app; cbn; lia).
        discriminate.
  - destruct (le_lt_dec 2 (List.length toks)) as [H2 | H2].
    { rewrite read_done in H by now left. inversion H; subst.
      exists [], [], rest. rewrite !app_nil_r.
      repeat split; constructor. }
    destruct (read_cases fuel pre rest toks H2)
      as [[_ E] | [(run & body & rest2 & -> & Hrun & Hbody & Hstop & E)
                 | (run & token & rest2 & -> & Hrun & Hword & Hstop & E)]];
      rewrite E in H.
    + inversion H; subst. lia.
    + destruct (IH _ _ _ _ _ H Hlen')
        as (new & consumed & rest' & -> & -> & -> & Htokens).
      inversion Htokens
        as [| gap token new' consumed' ? Hgap Hword Hstop' Hrest]; subst.
      { rewrite app_nil_r in Hlen'. lia. }
      (* the text behind the comment starts with its line end *)
      assert (Hgap' : exists nl gap', gap = nl :: gap' /\
                        not_line_end nl = false /\ header_gap gap').
      { destruct Hgap as [| b gap' Hb Hgap' | body' nl' gap' ? ? ?].
        - destruct token as [| b token]; [contradiction |].
          cbn [app stops] in Hstop. destruct Hword as (Hb & _).
          apply line_end_is_space in Hstop. congruence.
        - cbn [app stops] in Hstop. now exists b, gap'.
        - cbn [app stops] in Hstop. discriminate Hstop. }
      destruct Hgap' as (nl & gap' & -> & Hnl & Hgap').
      exists (token :: new'),
             ((run ++ x23 :: body ++ nl :: gap') ++ token ++ consumed'), rest'.
      repeat split.
      * rewrite <- !app_assoc. cbn [app]. rewrite <- !app_assoc. reflexivity.
      * rewrite <- !app_assoc. cbn [app]. rewrite <- !app_assoc. reflexivity.
      * apply ht_word; try assumption.
        apply gap_of_spaces; [exact Hrun |].
        now apply gap_comment.
    + destruct (IH _ _ _ _ _ H Hlen')
        as (new & consumed & rest' & -> & -> & -> & Htokens).
      exists (token :: new), (run ++ token ++ consumed), rest'.
      repeat split.
      * now rewrite <- !app_assoc.
      * now rewrite <- app_assoc.
      * now rewrite <- !app_assoc.
      * apply ht_word; try assumption.
        apply (gap_of_spaces run []) in Hrun; [| constructor].
        now rewrite app_nil_r in Hrun.
Qed.

(** ** The raster decoder: payload and result *)

Lemma py_slice_from (pre rest : list byte) (e : Z) :
  0 <= e ->
  py_slice (pre ++ rest) (Z.of_nat (List.length pre))
           (Z.of_nat (List.length pre) + e)
  = firstn (Z.to_nat e) rest.
Proof.
  intros He. unfold py_slice, slice_bound. rewrite length_app.
  replace (Z.of_nat (List.length pre) <? 0) with false
    by (symmetry; apply Z.ltb_ge; lia).
  replace (Z.of_nat (List.length pre) + e <? 0) with false
    by (symmetry; apply Z.ltb_ge; lia).
  rewrite (Z.min_l (Z.of_nat (List.length pre))) by lia.
  rewrite Nat2Z.id, skipn_app, skipn_all, Nat.sub_diag. cbn [app].
  rewrite skipn_O.
  destruct (Z.le_ge_cases e (Z.of_nat (List.length rest))) as [Hle | Hge].
  - rewrite Z.min_l by lia. f_equal. lia.
  - rewrite Z.min_r by lia.
    rewrite !firstn_all2 by lia. reflexivity.
Qed.

Lemma header_of_decodes (gap1 token_w gap2 token_h spaces rest : list byte) :
  header_gap gap1 -> pbm_word token_w -> separator gap2 -> pbm_word token_h ->
  stops not_pbm_space (spaces ++ rest) ->
  header_tokens [token_w; token_h]
    (gap1 ++ token_w ++ gap2 ++ token_h ++ []) (spaces ++ rest).
Proof.
  intros Hgap1 Hw Hsep Hh Hstop.
  destruct gap2 as [| b gap2]; [contradiction |]. destruct Hsep as [Hb Hgap2].
  apply ht_word; [exact Hgap1 | exact Hw | |].
  - cbn [app stops]. unfold not_pbm_space. fold (is_pbm_space b).
    now rewrite Hb.
  - apply ht_word; [now apply gap_space | exact Hh | exact Hstop | constructor].
Qed.

Lemma decodes_of_header (token_w token_h consumed rest : list byte) :
  header_tokens [token_w; token_h] consumed rest ->
  exists gap1 gap2 : list byte,
    consumed = gap1 ++ token_w ++ gap2 ++ token_h /\
    header_gap gap1 /\ pbm_word token_w /\ separator gap2 /\
    pbm_word token_h /\ stops not_pbm_space rest.
Proof.
  intros H.
  inversion H as [| gap1 ? ? consumed1 ? Hgap1 Hw Hstop1 H1]; subst.
  inversion H1 as [| gap2 ? ? consumed2 ? Hgap2 Hh Hstop2 H2]; subst.
  inversion H2; subst.
  exists gap1, gap2. rewrite app_nil_r.
  split; [reflexivity |]. split; [exact Hgap1 |]. split; [exact Hw |].
  split; [| split; [exact Hh | exact Hstop2]].
  destruct Hgap2 as [| b gap2 Hb Hgap2 | body nl gap2 ? ? ?].
  - destruct token_h as [| b token_h]; [contradiction |].
    destruct Hh as (Hb & _). cbn [app stops] in Hstop1.
    unfold not_pbm_space in Hstop1. fold (is_pbm_space b) in Hstop1.
    rewrite Hb in Hstop1. discriminate.
  - split; assumption.
  - cbn [app stops] in Hstop1. discriminate Hstop1.
Qed.

(** The two directions of the characterisation. *)


Lemma starts_with_P4_inv (data : list byte) :
  starts_with_P4 data = true -> exists rest, data = x50 :: x34 :: rest.
Proof.
  destruct data as [| a [| b rest]]; cbn; try discriminate.
  - destruct a; discriminate.
  - destruct a; try discriminate. destruct b; try discriminate.
    intros _. now exists rest.
Qed.

Lemma load_pbm_mask_sound (data : list byte) (m : Mask) :
  load_pbm_mask (Ret data) = Ret (Some m) -> decodes_to data m.
Proof.
  intros H. unfold load_pbm_mask in H.
  destruct (starts_with_P4 data) eqn:EP4; cbn [negb] in H; [| discriminate].
  apply starts_with_P4_inv in EP4. destruct EP4 as [rest Hdata].
  destruct (read_size_tokens (List.length data) data 2 [])
    as [[idx toks] | e] eqn:Eread; cbn [py_bind] in H; [| discriminate].
  destruct toks as [| token_w [| token_h [| ? ?]]]; try discriminate.
  unfold py_int_of_bytes in H.
  destruct (int_literal token_w) as [w |] eqn:Ew; cbn [py_bind] in H;
    [| discriminate].
  destruct (int_literal token_h) as [h |] eqn:Eh; cbn [py_bind] in H;
    [| discriminate].
  set (expected := (w + 7) / 8 * h) in *.
  destruct (Z.of_nat _ =? expected) eqn:Elen; cbn [negb] in H; [| discriminate].
  apply Z.eqb_eq in Elen.
  (* the header *)
  pose proof Eread as Eread'. rewrite Hdata in Eread'.
  destruct (read_two_tokens _ [x50; x34] rest [] _ _ Eread' eq_refl)
    as (new & consumed & rest' & Hrest & Hnew & Hidx & Htokens).
  clear Eread'.
  cbn [app] in Hnew. subst new.
  destruct (decodes_of_header _ _ _ _ Htokens)
    as (gap1 & gap2 & Hconsumed & Hgap1 & Hw & Hsep & Hh & Hstop).
  (* the white space behind it *)
  destruct (span_exists is_pbm_space rest')
    as (spaces & rest2 & Hrest' & Hspaces & Hstop2).
  set (pre := ([x50; x34] ++ consumed) ++ spaces).
  assert (Hdata' : data = pre ++ rest2).
  { unfold pre. rewrite Hdata, Hrest, Hrest'.
    rewrite <- !app_assoc. reflexivity. }
  assert (Eadv : advance_while is_pbm_space data idx = List.length pre).
  { rewrite Hidx. unfold pre. rewrite (length_app (_ ++ _) spaces).
    rewrite Hdata, Hrest, Hrest'.
    change (x50 :: x34 :: consumed ++ spaces ++ rest2)
      with ([x50; x34] ++ consumed ++ spaces ++ rest2).
    rewrite (app_assoc [x50; x34] consumed).
    apply advance_while_app; assumption. }
  rewrite Eadv in H, Elen.
  assert (He : 0 <= expected) by lia.
  rewrite Hdata' in H, Elen.
  rewrite py_slice_from in H, Elen by exact He.
  rewrite length_firstn in Elen.
  inversion H as [Hm]. clear H. subst m.
  exists gap1, token_w, gap2, token_h, spaces, (skipn (Z.to_nat expected) rest2).
  cbn [mask_payload mask_width mask_height mask_row_bytes].
  rewrite firstn_skipn.
  split.
  { rewrite Hdata, Hrest, Hconsumed, Hrest'.
    rewrite <- !app_assoc. reflexivity. }
  split; [exact Hgap1 |]. split; [exact Hw |]. split; [exact Hsep |].
  split; [exact Hh |]. split; [exact Hspaces |]. split; [exact Hstop2 |].
  split.
  { intros ->. cbn [app] in Hrest'. subst rest'.
    destruct rest2 as [| b rest2]; [reflexivity |].
    cbn [stops] in Hstop, Hstop2. unfold not_pbm_space in Hstop.
    fold (is_pbm_space b) in Hstop. rewrite Hstop2 in Hstop. discriminate. }
  split; [exact Ew |]. split; [exact Eh |]. split; [reflexivity |].
  rewrite length_firstn. exact Elen.
Qed.




(** The decoder on a well-formed header, in closed form. *)
Lemma load_pbm_mask_on_header
    (gap1 token_w gap2 token_h spaces rest : list byte) :
  header_gap gap1 -> pbm_word token_w -> separator gap2 -> pbm_word token_h ->
  Forall (fun b => is_pbm_space b = true) spaces ->
  stops is_pbm_space rest ->
  (spaces = [] -> rest = []) ->
  load_pbm_mask
    (Ret ([x50; x34] ++ gap1 ++ token_w ++ gap2 ++ token_h ++ spaces ++ rest))
  = match int_literal token_w, int_literal token_h with
    | Some w, Some h =>
        let expected := (w + 7) / 8 * h in
        if (0 <=? expected) && (expected <=? Z.of_nat (List.length rest))
        then Ret (Some (mkMask w h ((w + 7) / 8)
                          (firstn (Z.to_nat expected) rest)))
        else Ret None
    | _, _ => Ret None
    end.
Proof.
  intros Hgap1 Hw Hsep Hh Hspaces Hstop Hnone.
  set (consumed := gap1 ++ token_w ++ gap2 ++ token_h ++ []).
  set (data := [x50; x34] ++ gap1 ++ token_w ++ gap2 ++ token_h ++ spaces ++ rest).
  assert (Hdata' : data = [x50; x34] ++ consumed ++ spaces ++ rest).
  { unfold data, consumed. now rewrite <- !app_assoc. }
  assert (Hstop' : stops not_pbm_space (spaces ++ rest)).
  { destruct Hspaces as [| b spaces Hb _].
    - rewrite Hnone by reflexivity. exact I.
    - cbn [app stops]. unfold not_pbm_space. fold (is_pbm_space b).
      now rewrite Hb. }
  pose proof (read_header_tokens _ _ _
                (header_of_decodes gap1 token_w gap2 token_h spaces rest
                   Hgap1 Hw Hsep Hh Hstop')
                (List.length data) [x50; x34] []) as Hread.
  fold consumed in Hread. rewrite <- Hdata' in Hread.
  change (List.length [x50; x34]) with 2%nat in Hread.
  change ([] ++ [token_w; token_h]) with [token_w; token_h] in Hread.
  unfold load_pbm_mask.
  replace (starts_with_P4 data) with true by (rewrite Hdata'; reflexivity).
  cbn [negb].
  rewrite Hread;
    [| reflexivity
     | rewrite Hdata'; rewrite (length_app [x50; x34]); cbn [List.length]; lia].
  cbn [py_bind]. unfold py_int_of_bytes.
  destruct (int_literal token_w) as [w |]; cbn [py_bind]; [| reflexivity].
  destruct (int_literal token_h) as [h |]; cbn [py_bind]; [| reflexivity].
  assert (Eadv : advance_while is_pbm_space data
                   (List.length ([x50; x34] ++ consumed))
                 = List.length (([x50; x34] ++ consumed) ++ spaces)).
  { rewrite Hdata', (length_app (_ ++ _) spaces).
    rewrite (app_assoc [x50; x34] consumed).
    apply advance_while_app; assumption. }
  rewrite Eadv. cbv zeta.
  set (expected := (w + 7) / 8 * h).
  set (pre := ([x50; x34] ++ consumed) ++ spaces).
  assert (Hpre : data = pre ++ rest)
    by (rewrite Hdata'; unfold pre; now rewrite <- !app_assoc).
  rewrite Hpre.
  destruct (0 <=? expected) eqn:E0; cbn [andb].
  - apply Z.leb_le in E0. rewrite py_slice_from by exact E0.
    rewrite length_firstn.
    destruct (expected <=? Z.of_nat (List.length rest)) eqn:E1.
    + apply Z.leb_le in E1.
      replace (Z.of_nat (Z.to_nat expected `min` List.length rest) =? expected)
        with true by (symmetry; apply Z.eqb_eq; lia).
      reflexivity.
    + apply Z.leb_gt in E1.
      replace (Z.of_nat (Z.to_nat expected `min` List.length rest) =? expected)
        with false by (symmetry; apply Z.eqb_neq; lia).
      reflexivity.
  - apply Z.leb_gt in E0.
    replace (Z.of_nat (List.length (py_slice (pre ++ rest)
                         (Z.of_nat (List.length pre))
                         (Z.of_nat (List.length pre) + expected))) =? expected)
      with false by (symmetry; apply Z.eqb_neq; lia).
    reflexivity.
Qed.

Lemma load_pbm_mask_total (data : list byte) :
  load_pbm_mask (Ret data) = Ret None \/
  exists m : Mask, load_pbm_mask (Ret data) = Ret (Some m).
Proof.
  unfold load_pbm_mask.
  destruct (starts_with_P4 data) eqn:EP4; cbn [negb]; [| now left].
  apply starts_with_P4_inv in EP4. destruct EP4 as [rest Hdata].
  destruct (read_total (List.length data) [x50; x34] rest [])
    as [[idx toks] Hread].
  { rewrite Hdata. cbn [List.length]. lia. }
  change ([x50; x34] ++ rest) with (x50 :: x34 :: rest) in Hread.
  rewrite <- Hdata in Hread.
  change (List.length [x50; x34]) with 2%nat in Hread.
  rewrite Hread. cbn [py_bind].
  destruct toks as [| token_w [| token_h [| ? ?]]]; try now left.
  unfold py_int_of_bytes.
  destruct (int_literal token_w); cbn [py_bind]; [| now left].
  destruct (int_literal token_h); cbn [py_bind]; [| now left].
  destruct (negb _); [now left | right; eexists; reflexivity].
Qed.

(** C5: the decoder never raises.  For every byte string it returns a
    mask or [None]; it returns [None] when the file cannot be read, when
    the magic is not [P4] (so for every input that begins with [P5]), when
    a dimension token is no integer literal, and when fewer payload bytes
    are left than [ceil(width / 8) * height]. *)
Theorem load_pbm_mask_never_raises :
  (forall data : list byte,
     load_pbm_mask (Ret data) = Ret None \/
     exists m : Mask, load_pbm_mask (Ret data) = Ret (Some m)) /\
  load_pbm_mask (Raise OSError) = Ret None /\
  (forall data : list byte,
     starts_with_P4 data = false -> load_pbm_mask (Ret data) = Ret None) /\
  (forall rest : list byte,
     load_pbm_mask (Ret (x50 :: x35 :: rest)) = Ret None) /\
  (forall gap1 token_w gap2 token_h spaces rest : list byte,
     header_gap gap1 -> pbm_word token_w -> separator gap2 ->
     pbm_word token_h ->
     Forall (fun b => is_pbm_space b = true) spaces ->
     stops is_pbm_space rest -> (spaces = [] -> rest = []) ->
     (int_literal token_w = None \/ int_literal token_h = None \/
      exists w h : Z,
        int_literal token_w = Some w /\ int_literal token_h = Some h /\
        Z.of_nat (List.length rest) < (w + 7) / 8 * h) ->
     load_pbm_mask
       (Ret ([x50; x34] ++ gap1 ++ token_w ++ gap2 ++ token_h ++ spaces
             ++ rest))
     = Ret None).
Proof.
  split; [apply load_pbm_mask_total |].
  split; [reflexivity |].
  split; [intros data H; unfold load_pbm_mask; now rewrite H |].
  split; [reflexivity |].
  intros gap1 token_w gap2 token_h spaces rest Hgap1 Hw Hsep Hh Hsp Hstop Hnone
         Hbad.
  rewrite load_pbm_mask_on_header by assumption.
  destruct Hbad as [-> | [Hbad | (w & h & -> & -> & Hshort)]].
  - reflexivity.
  - rewrite Hbad. now destruct (int_literal token_w).
  - cbv zeta.
    replace ((w + 7) / 8 * h <=? Z.of_nat (List.length rest)) with false
      by (symmetry; apply Z.leb_gt; lia).
    now rewrite andb_false_r.
Qed.

Lemma load_pbm_mask_never_raises_witness :
  load_pbm_mask (Ret (bytes_of "P5 8 1" ++ [x0a; xff])) = Ret None /\
  load_pbm_mask (Ret (bytes_of "P4 8 x" ++ [x0a; xff])) = Ret None /\
  load_pbm_mask (Ret (bytes_of "P4 16 2" ++ [x0a; xff; xff; xff])) = Ret None.
Proof.
  destruct load_pbm_mask_never_raises as (_ & _ & Hmagic & _ & Hheader).
  split; [| split].
  - apply (Hmagic (bytes_of "P5 8 1" ++ [x0a; xff])). reflexivity.
  - apply (Hheader [x20] [x38] [x20] [x78] [x0a] [xff]).
    + apply gap_space; [reflexivity | constructor].
    + repeat split; [discriminate | constructor].
    + split; [reflexivity | constructor].
    + repeat split; [discriminate | constructor].
    + repeat constructor.
    + reflexivity.
    + discriminate.
    + right. left. reflexivity.
  - apply (Hheader [x20] [x31; x36] [x20] [x32] [x0a] [xff; xff; xff]).
    + apply gap_space; [reflexivity | constructor].
    + repeat split; [discriminate | repeat constructor].
    + split; [reflexivity | constructor].
    + repeat split; [discriminate | constructor].
    + repeat constructor.
    + reflexivity.
    + discriminate.
    + right. right. exists 16, 2. repeat split.
Defined.

(* ===================================================================== *)
(** * Part III: further properties of the code                            *)
(* ===================================================================== *)

(** ** Injection: where it writes and what it writes *)

Lemma raise_cell_lookup (g : gmap (Z * Z) Q) (k k' : Z * Z) (v : Q) :
  k' <> k -> raise_cell g k v !! k' = g !! k'.
Proof.
  intros Hne. unfold raise_cell.
  destruct (Qgtb v (grid_get g k)); [| reflexivity].
  apply lookup_insert_ne. congruence.
Qed.

Lemma raise_cell_is_Some (g : gmap (Z * Z) Q) (k k' : Z * Z) (v : Q) :
  is_Some (raise_cell g k v !! k') -> is_Some (g !! k') \/ k' = k.
Proof.
  destruct (decide (k' = k)) as [-> | Hne]; [now right |].
  rewrite raise_cell_lookup by exact Hne. now left.
Qed.

Lemma raise_cell_reachable (grid : gmap (Z * Z) Q) (x y width height : Z)
    (g : gmap (Z * Z) Q) (k : Z * Z) (v : Q) :
  reachable grid x y width height g ->
  in_viewport k width height -> within 3 k (x, y) ->
  reachable grid x y width height (raise_cell g k v).
Proof.
  intros Hg Hk Hd k' Hk'.
  apply raise_cell_is_Some in Hk'. destruct Hk' as [H | ->].
  - now apply Hg.
  - right. now split.
Qed.

Lemma neighbors_small (d : Z * Z) :
  List.In d neighbors -> Z.abs (fst d) <= 1 /\ Z.abs (snd d) <= 1.
Proof.
  unfold neighbors. cbn [List.In].
  intros H. repeat destruct H as [<- | H]; try contradiction; cbn; lia.
Qed.

Lemma neighbors_nonzero (d : Z * Z) :
  List.In d neighbors -> d <> (0, 0).
Proof.
  unfold neighbors. cbn [List.In].
  intros H. repeat destruct H as [<- | H]; try contradiction; discriminate.
Qed.

Lemma nth_neighbors_small (i : nat) :
  let d := nth i neighbors (0, 0) in
  Z.abs (fst d) <= 1 /\ Z.abs (snd d) <= 1.
Proof.
  do 8 (destruct i as [| i]; [cbn; lia |]). destruct i; cbn; lia.
Qed.

Lemma halo_step_reachable (grid : gmap (Z * Z) Q) (x y : Z) (b : Q)
    (width height : Z) (g : gmap (Z * Z) Q) (r : Trng) (d : Z * Z) :
  List.In d neighbors ->
  reachable grid x y width height g ->
  reachable grid x y width height (halo_step x y b width height (g, r) d).1.
Proof.
  intros Hd Hg. unfold halo_step, trng_random, trng_uniform.
  destruct (Qltb _ 0.18); [| exact Hg].
  destruct (_ && _) eqn:E; [| exact Hg].
  cbn [fst]. apply raise_cell_reachable; [exact Hg | |].
  - rewrite !andb_true_iff, !Z.leb_le, !Z.ltb_lt in E.
    unfold in_viewport. cbn [fst snd]. lia.
  - apply neighbors_small in Hd. unfold within. cbn [fst snd]. lia.
Qed.

Lemma halo_fold_reachable (grid : gmap (Z * Z) Q) (x y : Z) (b : Q)
    (width height : Z) (ds : list (Z * Z)) :
  (forall d, List.In d ds -> List.In d neighbors) ->
  forall (g : gmap (Z * Z) Q) (r : Trng),
    reachable grid x y width height g ->
    reachable grid x y width height
      (fold_left (halo_step x y b width height) ds (g, r)).1.
Proof.
  induction ds as [| d ds IH]; intros Hds g r Hg; cbn [fold_left].
  - exact Hg.
  - destruct (halo_step x y b width height (g, r) d) as [g1 r1] eqn:E.
    apply IH; [intros d' Hd'; apply Hds; now right |].
    change g1 with (g1, r1).1. rewrite <- E.
    apply halo_step_reachable; [apply Hds; now left | exact Hg].
Qed.

Lemma spike_trail_reachable (grid : gmap (Z * Z) Q) (x y dx dy : Z)
    (width height : Z) (n : nat) :
  Z.abs dx <= 1 -> Z.abs dy <= 1 ->
  forall (i : Z) (spike : Q) (g : gmap (Z * Z) Q) (r : Trng),
    0 <= i -> i + Z.of_nat n <= 3 ->
    reachable grid x y width height g ->
    reachable grid x y width height
      (spike_trail n dx dy (x + i * dx) (y + i * dy) spike width height g r).1.
Proof.
  intros Hdx Hdy. induction n as [| n IH]; intros i spike g r Hi Hn Hg;
    cbn [spike_trail].
  - exact Hg.
  - destruct (out_of_grid _ _ width height) eqn:E; [exact Hg |].
    unfold trng_uniform.
    replace (x + i * dx + dx) with (x + (i + 1) * dx) in * by lia.
    replace (y + i * dy + dy) with (y + (i + 1) * dy) in * by lia.
    apply IH; [lia | lia |].
    apply raise_cell_reachable; [exact Hg | |].
    + apply out_of_grid_false in E. exact E.
    + unfold within. cbn [fst snd]. split.
      * replace (x + (i + 1) * dx - x) with ((i + 1) * dx) by lia.
        rewrite Z.abs_mul. nia.
      * replace (y + (i + 1) * dy - y) with ((i + 1) * dy) by lia.
        rewrite Z.abs_mul. nia.
Qed.

(** X1: a call creates cells only inside the viewport and within three
    steps of the target (halo at distance 1, spike trail up to 3); every
    other cell of the output grid was already there.  The only spark it
    can add is the target. *)
Theorem inject_writes_near_target_inside_grid
    (grid : gmap (Z * Z) Q) (sparks : gset (Z * Z)) (x y : Z)
    (base_intensity : Q) (trng : Trng) (width height : Z) (with_halo : bool) :
  let out := inject_sigil_excitation grid sparks x y base_intensity trng
               width height with_halo in
  (forall k : Z * Z,
     is_Some (out.1.1 !! k) ->
     is_Some (grid !! k) \/
     (in_viewport k width height /\ within 3 k (x, y))) /\
  (forall k : Z * Z,
     k ∈ out.1.2 ->
     k ∈ sparks \/ (k = (x, y) /\ in_viewport k width height)).
Proof.
  intros out. subst out. split.
  - change (reachable grid x y width height
              (inject_sigil_excitation grid sparks x y base_intensity trng
                 width height with_halo).1.1).
    assert (H0 : reachable grid x y width height grid)
      by (intros k Hk; now left).
    unfold inject_sigil_excitation.
    destruct (out_of_grid x y width height) eqn:E; [exact H0 |].
    apply out_of_grid_false in E.
    assert (H1 : reachable grid x y width height
                   (raise_cell grid (x, y) base_intensity)).
    { apply raise_cell_reachable; [exact H0 | exact E |].
      unfold within. cbn [fst snd]. rewrite !Z.sub_diag. cbn. lia. }
    destruct with_halo; cbn [negb]; [| exact H1].
    destruct (fold_left _ neighbors _) as [g1 r1] eqn:Efold.
    assert (H2 : reachable grid x y width height g1).
    { change g1 with (g1, r1).1. rewrite <- Efold.
      apply halo_fold_reachable; [trivial | exact H1]. }
    unfold trng_random.
    destruct (Qltb _ 0.12); [| exact H2].
    unfold trng_randint, trng_uniform.
    match goal with
    | |- context [nth ?i neighbors (0, 0)] =>
        pose proof (nth_neighbors_small i) as Hsmall;
        cbv zeta in Hsmall;
        destruct (nth i neighbors (0, 0)) as [dx dy]
    end.
    cbn [fst snd] in Hsmall.
    destruct (spike_trail _ _ _ _ _ _ _ _ _ _) as [g2 r2] eqn:Espike.
    cbn [fst]. change g2 with (g2, r2).1. rewrite <- Espike.
    replace x with (x + 0 * dx) at 2 by lia.
    replace y with (y + 0 * dy) at 2 by lia.
    apply spike_trail_reachable; try lia; [| exact H2].
    match goal with
    | |- context [?a mod (3 - 1 + 1)] =>
        pose proof (Z.mod_pos_bound a (3 - 1 + 1) ltac:(lia))
    end.
    lia.
  - rewrite inject_sparks.
    destruct (out_of_grid x y width height) eqn:E; intros k Hk; [now left |].
    apply out_of_grid_false in E.
    apply elem_of_union in Hk. destruct Hk as [Hk | Hk]; [| now left].
    apply elem_of_singleton in Hk. subst k. right. split; [reflexivity | exact E].
Qed.

Lemma scaled_le_one (b f : Q) :
  (b <= 1)%Q -> (0 <= f)%Q -> (f <= 1)%Q -> (b * f <= 1)%Q.
Proof. intros Hb Hf0 Hf1. nra. Qed.

Lemma halo_step_in_range (x y : Z) (b : Q) (width height : Z)
    (g : gmap (Z * Z) Q) (r : Trng) (d : Z * Z) :
  unit_tape r -> (b <= 1)%Q -> grid_in_range g ->
  grid_in_range (halo_step x y b width height (g, r) d).1 /\
  unit_tape (halo_step x y b width height (g, r) d).2.
Proof.
  intros Hr Hb Hg. unfold halo_step, trng_random, trng_uniform.
  destruct (Qltb _ 0.18); [| now split].
  destruct (_ && _); [| now split].
  cbn [fst snd]. split; [| exact Hr].
  apply raise_cell_in_range; [exact Hg |].
  cbn [trng_next unit_draws taken].
  destruct (Hr (S (taken r))) as [H0 H1].
  apply scaled_le_one; [exact Hb | lra | lra].
Qed.

Lemma halo_fold_in_range (x y : Z) (b : Q) (width height : Z)
    (ds : list (Z * Z)) :
  (b <= 1)%Q ->
  forall (g : gmap (Z * Z) Q) (r : Trng),
    unit_tape r -> grid_in_range g ->
    grid_in_range (fold_left (halo_step x y b width height) ds (g, r)).1 /\
    unit_tape (fold_left (halo_step x y b width height) ds (g, r)).2.
Proof.
  intros Hb. induction ds as [| d ds IH]; intros g r Hr Hg; cbn [fold_left].
  - now split.
  - destruct (halo_step_in_range x y b width height g r d Hr Hb Hg) as [H1 H2].
    destruct (halo_step x y b width height (g, r) d) as [g1 r1].
    now apply IH.
Qed.

Lemma spike_trail_in_range (dx dy width height : Z) (n : nat) :
  forall (sx sy : Z) (spike : Q) (g : gmap (Z * Z) Q) (r : Trng),
    unit_tape r -> (spike <= 1)%Q -> grid_in_range g ->
    grid_in_range (spike_trail n dx dy sx sy spike width height g r).1.
Proof.
  induction n as [| n IH]; intros sx sy spike g r Hr Hs Hg; cbn [spike_trail].
  - exact Hg.
  - destruct (out_of_grid _ _ width height); [exact Hg |].
    unfold trng_uniform. apply IH; [exact Hr | |].
    + destruct (Hr (taken r)) as [H0 H1].
      apply scaled_le_one; [exact Hs | lra | lra].
    + now apply raise_cell_in_range.
Qed.

(** X2: with a halo and a spike trail too, injection keeps the grid in
    [(0, 1]]: if every present cell holds such a value, the base
    intensity is at most 1 and the random source returns numbers of
    [[0, 1)], every present cell of the output holds a value of [(0, 1]]. *)
Theorem inject_with_halo_keeps_range
    (grid : gmap (Z * Z) Q) (sparks : gset (Z * Z)) (x y : Z)
    (base_intensity : Q) (trng : Trng) (width height : Z) (with_halo : bool) :
  grid_in_range grid -> (base_intensity <= 1)%Q -> unit_tape trng ->
  grid_in_range
    (inject_sigil_excitation grid sparks x y base_intensity trng width height
       with_halo).1.1.
Proof.
  intros Hg Hb Hr. unfold inject_sigil_excitation.
  destruct (out_of_grid x y width height); [exact Hg |].
  assert (H1 : grid_in_range (raise_cell grid (x, y) base_intensity))
    by now apply raise_cell_in_range.
  destruct with_halo; cbn [negb]; [| exact H1].
  destruct (halo_fold_in_range x y base_intensity width height neighbors Hb
              _ trng Hr H1) as [H2 Hr2].
  destruct (fold_left _ neighbors _) as [g1 r1]. cbn [fst snd] in H2, Hr2.
  unfold trng_random.
  destruct (Qltb _ 0.12); [| exact H2].
  unfold trng_randint, trng_uniform.
  destruct (nth _ neighbors (0, 0)) as [dx dy].
  destruct (spike_trail _ _ _ _ _ _ _ _ _ _) as [g2 r2] eqn:Espike.
  cbn [fst]. change g2 with (g2, r2).1. rewrite <- Espike.
  apply spike_trail_in_range; [exact Hr2 | | exact H2].
  cbn [trng_next unit_draws taken].
  destruct (Hr2 (S (S (taken r1)))) as [H0 Hlt].
  apply scaled_le_one; [exact Hb | lra | lra].
Qed.

Lemma sample_trng_unit : unit_tape sample_trng.
Proof.
  intros n. cbn [sample_trng unit_draws]. unfold Qle, Qlt. cbn. lia.
Qed.

Lemma inject_with_halo_keeps_range_witness :
  grid_in_range
    (inject_sigil_excitation {[ (3, 4) := 0.5%Q ]} ∅ 3 4 1 sample_trng 40 10
       true).1.1.
Proof.
  apply (inject_with_halo_keeps_range {[ (3, 4) := 0.5%Q ]} ∅ 3 4 1
           sample_trng 40 10 true).
  - intros k v Hk. apply lookup_singleton_Some in Hk.
    destruct Hk as [_ <-]. split; [reflexivity | discriminate].
  - discriminate.
  - exact sample_trng_unit.
Defined.

Lemma halo_step_keeps_target (x y : Z) (b : Q) (width height : Z)
    (g : gmap (Z * Z) Q) (r : Trng) (d : Z * Z) :
  List.In d neighbors ->
  (halo_step x y b width height (g, r) d).1 !! (x, y) = g !! (x, y).
Proof.
  intros Hd. apply neighbors_nonzero in Hd.
  unfold halo_step, trng_random, trng_uniform.
  destruct (Qltb _ 0.18); [| reflexivity].
  destruct (_ && _); [| reflexivity].
  cbn [fst]. apply raise_cell_lookup.
  destruct d as [dx dy]. cbn [fst snd]. intros H. inversion H.
  apply Hd. f_equal; lia.
Qed.

Lemma halo_fold_keeps_target (x y : Z) (b : Q) (width height : Z)
    (ds : list (Z * Z)) :
  (forall d, List.In d ds -> List.In d neighbors) ->
  forall (g : gmap (Z * Z) Q) (r : Trng),
    (fold_left (halo_step x y b width height) ds (g, r)).1 !! (x, y)
    = g !! (x, y).
Proof.
  induction ds as [| d ds IH]; intros Hds g r; cbn [fold_left].
  - reflexivity.
  - pose proof (halo_step_keeps_target x y b width height g r d
                  (Hds d (or_introl eq_refl))) as H1.
    destruct (halo_step x y b width height (g, r) d) as [g1 r1].
    cbn [fst] in H1. rewrite <- H1.
    apply IH. intros d' Hd'. apply Hds. now right.
Qed.

Lemma spike_trail_keeps_target (x y dx dy width height : Z) (n : nat) :
  (dx, dy) <> (0, 0) ->
  forall (i : Z) (spike : Q) (g : gmap (Z * Z) Q) (r : Trng),
    0 <= i ->
    (spike_trail n dx dy (x + i * dx) (y + i * dy) spike width height g r).1
      !! (x, y) = g !! (x, y).
Proof.
  intros Hd. induction n as [| n IH]; intros i spike g r Hi; cbn [spike_trail].
  - reflexivity.
  - destruct (out_of_grid _ _ width height); [reflexivity |].
    unfold trng_uniform.
    replace (x + i * dx + dx) with (x + (i + 1) * dx) by lia.
    replace (y + i * dy + dy) with (y + (i + 1) * dy) by lia.
    rewrite IH by lia.
    apply raise_cell_lookup. intros H. inversion H as [[Hx Hy]].
    apply Hd.
    assert (Ex : (i + 1) * dx = 0) by lia.
    assert (Ey : (i + 1) * dy = 0) by lia.
    apply Z.mul_eq_0 in Ex. apply Z.mul_eq_0 in Ey.
    f_equal; lia.
Qed.

Lemma nth_neighbors_nonzero (i : nat) :
  (i < 8)%nat -> nth i neighbors (0, 0) <> (0, 0).
Proof.
  intros Hi. do 8 (destruct i as [| i]; [discriminate |]). lia.
Qed.

(** X3: neither halo nor spike trail touches the target.  For a target
    inside the grid the target cell ends with the larger of its old value
    and the base intensity, exactly as without them. *)
Theorem inject_target_gets_max
    (grid : gmap (Z * Z) Q) (sparks : gset (Z * Z)) (x y : Z)
    (base_intensity : Q) (trng : Trng) (width height : Z) (with_halo : bool) :
  0 <= x < width -> 0 <= y < height ->
  (inject_sigil_excitation grid sparks x y base_intensity trng width height
     with_halo).1.1 !! (x, y)
  = if Qgtb base_intensity (grid_get grid (x, y)) then Some base_intensity
    else grid !! (x, y).
Proof.
  intros Hx Hy.
  assert (Htarget : raise_cell grid (x, y) base_intensity !! (x, y)
                    = if Qgtb base_intensity (grid_get grid (x, y))
                      then Some base_intensity else grid !! (x, y)).
  { unfold raise_cell. destruct (Qgtb _ _); [apply lookup_insert_eq | reflexivity]. }
  rewrite <- Htarget. clear Htarget.
  unfold inject_sigil_excitation.
  replace (out_of_grid x y width height) with false
    by (symmetry; apply out_of_grid_false; lia).
  destruct with_halo; cbn [negb]; [| reflexivity].
  pose proof (halo_fold_keeps_target x y base_intensity width height neighbors
                (fun d H => H) (raise_cell grid (x, y) base_intensity) trng)
    as Hfold.
  destruct (fold_left _ neighbors _) as [g1 r1]. cbn [fst] in Hfold.
  rewrite <- Hfold.
  unfold trng_random.
  destruct (Qltb _ 0.12); [| reflexivity].
  unfold trng_randint, trng_uniform.
  match goal with
  | |- context [nth ?i neighbors (0, 0)] =>
      assert (Hnz : nth i neighbors (0, 0) <> (0, 0));
      [ apply nth_neighbors_nonzero;
        match goal with
        | |- context [?a mod ?m] =>
            pose proof (Z.mod_pos_bound a m ltac:(cbn; lia)) as Hm
        end; cbn in Hm |- *; lia
      | destruct (nth i neighbors (0, 0)) as [dx dy] ]
  end.
  destruct (spike_trail _ _ _ _ _ _ _ _ _ _) as [g2 r2] eqn:Espike.
  cbn [fst]. change g2 with (g2, r2).1. rewrite <- Espike.
  replace x with (x + 0 * dx) at 2 by lia.
  replace y with (y + 0 * dy) at 2 by lia.
  apply spike_trail_keeps_target; [exact Hnz | lia].
Qed.

Lemma inject_target_gets_max_witness :
  (inject_sigil_excitation {[ (3, 4) := 0.5%Q ]} ∅ 3 4 0.25 sample_trng 40 10
     true).1.1 !! (3, 4)
  = if Qgtb 0.25 (grid_get {[ (3, 4) := 0.5%Q ]} (3, 4)) then Some 0.25%Q
    else ({[ (3, 4) := 0.5%Q ]} : gmap (Z * Z) Q) !! (3, 4).
Proof.
  apply (inject_target_gets_max {[ (3, 4) := 0.5%Q ]} ∅ 3 4 0.25 sample_trng
           40 10 true); lia.
Defined.

(** ** The weighted draw: which id comes out *)

Lemma weighted_loop_in (table : list (Z * Q)) :
  forall (roll : Q) (sid : Z),
    weighted_loop table roll = Some sid -> List.In sid (map fst table).
Proof.
  induction table as [| [s w] table IH]; intros roll sid H; cbn in H.
  - discriminate.
  - cbn [map fst List.In]. destruct (Qle_bool _ 0).
    + inversion H. now left.
    + right. eapply IH. eassumption.
Qed.

Lemma last_in_map {A B : Type} (f : A -> B) (l : list A) (d : A) :
  l <> [] -> List.In (f (List.last l d)) (map f l).
Proof.
  intros Hl. apply in_map.
  destruct (exists_last Hl) as (l' & a & ->).
  rewrite last_last. apply in_or_app. right. now left.
Qed.

(** X4: the draw returns an id of the table whenever the table is not
    empty (one matched by the loop, or the last one), and the default id,
    without touching the random source, when it is. *)
Theorem pick_weighted_returns_table_id (G : Globals) (trng : Trng) :
  (ACTIVE_SIGIL_WEIGHT_TABLE G <> [] ->
   List.In (fst (pick_weighted_sigil_id G trng))
           (map fst (ACTIVE_SIGIL_WEIGHT_TABLE G))) /\
  (ACTIVE_SIGIL_WEIGHT_TABLE G = [] ->
   pick_weighted_sigil_id G trng = (LILITH_SIGIL_ID G, trng)).
Proof.
  unfold pick_weighted_sigil_id. split.
  - intros Hne.
    destruct (ACTIVE_SIGIL_WEIGHT_TABLE G) as [| e rest] eqn:Et;
      [contradiction |].
    unfold trng_random.
    destruct (weighted_loop (e :: rest) _) as [sid |] eqn:El; cbn [fst].
    + eapply weighted_loop_in. exact El.
    + apply (last_in_map fst (e :: rest) (0, 0%Q)). discriminate.
  - intros ->. reflexivity.
Qed.

Lemma pick_weighted_returns_table_id_witness :
  List.In (fst (pick_weighted_sigil_id seal_globals sample_trng))
          (map fst (ACTIVE_SIGIL_WEIGHT_TABLE seal_globals)).
Proof.
  apply (proj1 (pick_weighted_returns_table_id seal_globals sample_trng)).
  discriminate.
Defined.

(** ** The registry: path resolution and what a rebuild leaves behind *)



Lemma in_insert_by_id (e x : RegistryItem) (l : list RegistryItem) :
  List.In x (insert_by_id e l) <-> x = e \/ List.In x l.
Proof.
  induction l as [| e' l IH]; cbn [insert_by_id List.In].
  - intuition.
  - destruct (item_id e <=? item_id e'); cbn [List.In].
    + intuition.
    + rewrite IH. intuition.
Qed.

Lemma in_sort_by_id (x : RegistryItem) (l : list RegistryItem) :
  List.In x (sort_by_id l) <-> List.In x l.
Proof.
  unfold sort_by_id. induction l as [| e l IH]; cbn [fold_right List.In].
  - reflexivity.
  - rewrite in_insert_by_id, IH. intuition.
Qed.



Lemma sort_by_id_nil (l : list RegistryItem) : sort_by_id l = [] -> l = [].
Proof.
  destruct l as [| e l]; [reflexivity |]. intros H.
  assert (Hin : List.In e (sort_by_id (e :: l)))
    by (apply in_sort_by_id; now left).
  rewrite H in Hin. contradiction.
Qed.

Lemma build_weights_spec (registry : list RegistryItem) :
  forall (weights ws : list (Z * Q)) (total t : Q),
    build_weights registry weights total = Ret (ws, t) ->
    exists new : list (Z * Q),
      ws = weights ++ new /\ map fst new = map item_id registry /\
      Forall (fun e => (0.01 <= snd e)%Q) new /\
      (t == total + sum_weights new)%Q.
Proof.
  induction registry as [| e registry IH]; intros weights ws total t H;
    cbn [build_weights] in H.
  - inversion H; subst. exists []. rewrite app_nil_r.
    repeat split; [constructor | unfold sum_weights; cbn; ring].
  - bind_inv H as w Ew.
    apply IH in H. destruct H as (new & -> & Hids & Hall & Ht).
    eexists (_ :: new). rewrite <- app_assoc. cbn [app].
    split; [reflexivity |]. split; [cbn [map fst]; now f_equal |].
    split; [constructor; [cbn [snd]; apply Q.le_max_l | exact Hall] |].
    rewrite Ht. unfold sum_weights. cbn [map snd fold_right]. ring.
Qed.




Lemma load_pbm_mask_well_formed (r : py (list byte)) (m : Mask) :
  load_pbm_mask r = Ret (Some m) -> well_formed m.
Proof.
  intros H. destruct r as [data | e].
  - apply load_pbm_mask_sound in H.
    destruct H as (g1 & tw & g2 & th & sp & tl & H).
    split; apply H.
  - destruct e; discriminate H.
Qed.

Lemma index_entry_step_ok (fs : FileSystem) (acc acc' : IndexScan)
    (entry : IndexEntry) :
  scan_ok (scan_registry acc) (scan_masks acc) ->
  index_entry_step fs acc entry = Ret acc' ->
  scan_ok (scan_registry acc') (scan_masks acc').
Proof.
  intros [Hreg Hmask] H. unfold index_entry_step in H.
  bind_inv H as sid Esid.
  destruct (String.eqb _ _); [inversion H; subst; now split |].
  destruct (_resolve_registry_pbm_path _ _) as [pbm_path |];
    [| inversion H; subst; now split].
  bind_inv H as mask Emask.
  destruct mask as [mask |]; [| inversion H; subst; now split].
  apply load_pbm_mask_well_formed in Emask.
  inversion H; subst; clear H. cbn [scan_registry scan_masks]. split.
  - intros item Hin. apply in_app_or in Hin. destruct Hin as [Hin | Hin].
    + destruct (decide (item_id item = sid)) as [-> | Hne].
      * rewrite lookup_insert_eq. eauto.
      * rewrite lookup_insert_ne by congruence. now apply Hreg.
    + destruct Hin as [<- | []]. cbn [item_id].
      rewrite lookup_insert_eq. eauto.
  - intros sid' m Hm.
    destruct (decide (sid' = sid)) as [-> | Hne].
    + rewrite lookup_insert_eq in Hm. now inversion Hm; subst.
    + rewrite lookup_insert_ne in Hm by congruence. eapply Hmask, Hm.
Qed.

Lemma scan_ok_empty : scan_ok [] ∅.
Proof.
  split.
  - intros item [].
  - intros sid m H. rewrite lookup_empty in H. discriminate.
Qed.

Lemma index_loop_ok (fs : FileSystem) (sigils : list IndexEntry) :
  forall acc : IndexScan,
    scan_ok (scan_registry acc) (scan_masks acc) ->
    scan_ok (scan_registry (index_loop fs acc sigils))
            (scan_masks (index_loop fs acc sigils)).
Proof.
  induction sigils as [| entry rest IH]; intros acc Hacc;
    cbn [index_loop]; [exact Hacc |].
  destruct (index_entry_step fs acc entry) as [acc' | e] eqn:E.
  - apply IH. eapply index_entry_step_ok; eassumption.
  - apply scan_ok_empty.
Qed.

Lemma scan_index_ok (fs : FileSystem) (index : IndexFile) (sc : IndexScan) :
  scan_index fs index = Ret sc ->
  scan_ok (scan_registry sc) (scan_masks sc).
Proof.
  unfold scan_index. intros H.
  destruct index; inversion H; subst; try apply scan_ok_empty.
  apply index_loop_ok, scan_ok_empty.
Qed.

Lemma refresh_scan_ok (fs : FileSystem) (index : IndexFile) (G G' : Globals) :
  refresh_verified_sigil_registry fs index G = Ret G' ->
  scan_ok (VERIFIED_SIGIL_REGISTRY G') (SIGIL_MASKS_BY_ID G').
Proof.
  intros H. unfold refresh_verified_sigil_registry in H.
  bind_inv H as sc Esc. apply scan_index_ok in Esc.
  bind_inv H as rm Erm. destruct rm as [registry masks].
  assert (Hok : scan_ok (sort_by_id registry) masks).
  { assert (Hok : scan_ok registry masks).
    { destruct (negb _).
      - inversion Erm; subst. exact Esc.
      - bind_inv Erm as mask Emask. destruct mask as [mask |].
        + inversion Erm; subst. apply load_pbm_mask_well_formed in Emask.
          split.
          * intros item [<- | []]. cbn [item_id].
            rewrite lookup_singleton_eq. eauto.
          * intros sid m Hm. apply lookup_singleton_Some in Hm.
            destruct Hm as [_ <-]. exact Emask.
        + inversion Erm; subst. exact Esc. }
    destruct Hok as [Hreg Hmask]. split; [| exact Hmask].
    intros item Hin. apply Hreg. now apply in_sort_by_id. }
  destruct (sort_by_id registry) as [| e sorted] eqn:Es.
  - inversion H; subst. exact Hok.
  - bind_inv H as wt Ewt. destruct wt as [weights total].
    inversion H; subst. exact Hok.
Qed.

(** X8: after a rebuild that returns, every entry of the registry has a
    mask under its id, every mask stored has the row size and payload
    length its dimensions ask for, and with a non-empty registry every id
    the weighted draw can return has a mask. *)
Theorem refresh_every_drawn_id_has_mask
    (fs : FileSystem) (index : IndexFile) (G G' : Globals) :
  refresh_verified_sigil_registry fs index G = Ret G' ->
  (forall item : RegistryItem,
     List.In item (VERIFIED_SIGIL_REGISTRY G') ->
     is_Some (SIGIL_MASKS_BY_ID G' !! item_id item)) /\
  (forall (sid : Z) (m : Mask),
     SIGIL_MASKS_BY_ID G' !! sid = Some m -> well_formed m) /\
  (VERIFIED_SIGIL_REGISTRY G' <> [] ->
   forall trng : Trng,
     is_Some (SIGIL_MASKS_BY_ID G' !! fst (pick_weighted_sigil_id G' trng))).
Proof.
  intros H. pose proof (refresh_scan_ok _ _ _ _ H) as [Hreg Hmask].
  split; [exact Hreg |]. split; [exact Hmask |].
  intros Hne trng.
  assert (Hids : map fst (ACTIVE_SIGIL_WEIGHT_TABLE G')
                 = map item_id (VERIFIED_SIGIL_REGISTRY G')).
  { clear Hreg Hmask. unfold refresh_verified_sigil_registry in H.
    bind_inv H as sc Esc.
    bind_inv H as rm Erm. destruct rm as [registry masks].
    destruct (sort_by_id registry) as [| e sorted] eqn:Es.
    - inversion H; subst. cbn in Hne. contradiction.
    - bind_inv H as wt Ewt. destruct wt as [weights total].
      inversion H; subst. cbn.
      apply build_weights_spec in Ewt.
      destruct Ewt as (new & -> & Hids & _). exact Hids. }
  assert (Hin : List.In (fst (pick_weighted_sigil_id G' trng))
                        (map fst (ACTIVE_SIGIL_WEIGHT_TABLE G'))).
  { unfold pick_weighted_sigil_id.
    destruct (ACTIVE_SIGIL_WEIGHT_TABLE G') as [| e rest] eqn:Et.
    - destruct (VERIFIED_SIGIL_REGISTRY G'); [contradiction | discriminate].
    - unfold trng_random.
      destruct (weighted_loop (e :: rest) _) as [sid |] eqn:El; cbn [fst].
      + eapply weighted_loop_in. exact El.
      + apply (last_in_map fst (e :: rest) (0, 0%Q)). discriminate. }
  rewrite Hids in Hin. apply in_map_iff in Hin.
  destruct Hin as (item & <- & Hin). now apply Hreg.
Qed.

Lemma refresh_every_drawn_id_has_mask_witness :
  is_Some (SIGIL_MASKS_BY_ID seal_globals
             !! fst (pick_weighted_sigil_id seal_globals sample_trng)).
Proof.
  apply (refresh_every_drawn_id_has_mask
           (only_grand_seal (bytes_of "P4 8 1" ++ [x0a; xff])) IndexAbsent
           initial_globals seal_globals).
  - reflexivity.
  - discriminate.
Defined.

Lemma index_entry_step_weights (fs : FileSystem) (acc acc' : IndexScan)
    (entry : IndexEntry) :
  weight_readable (entry_weight entry) ->
  Forall (fun item => weight_readable (item_weight item)) (scan_registry acc) ->
  index_entry_step fs acc entry = Ret acc' ->
  Forall (fun item => weight_readable (item_weight item)) (scan_registry acc').
Proof.
  intros Hentry Hacc H. unfold index_entry_step in H.
  bind_inv H as sid Esid.
  destruct (String.eqb _ _); [inversion H; subst; exact Hacc |].
  destruct (_resolve_registry_pbm_path _ _) as [pbm_path |];
    [| inversion H; subst; exact Hacc].
  bind_inv H as mask Emask.
  destruct mask as [mask |]; [| inversion H; subst; exact Hacc].
  inversion H; subst; clear H. cbn [scan_registry].
  apply Forall_app. split; [exact Hacc |].
  constructor; [exact Hentry | constructor].
Qed.

Lemma index_loop_weights (fs : FileSystem) (sigils : list IndexEntry) :
  Forall (fun entry => weight_readable (entry_weight entry)) sigils ->
  forall acc : IndexScan,
    Forall (fun item => weight_readable (item_weight item))
           (scan_registry acc) ->
    Forall (fun item => weight_readable (item_weight item))
           (scan_registry (index_loop fs acc sigils)).
Proof.
  induction 1 as [| entry rest Hentry Hrest IH]; intros acc Hacc;
    cbn [index_loop]; [exact Hacc |].
  destruct (index_entry_step fs acc entry) as [acc' | e] eqn:E.
  - apply IH. eapply index_entry_step_weights; eassumption.
  - constructor.
Qed.

Lemma build_weights_returns (registry : list RegistryItem) :
  Forall (fun item => weight_readable (item_weight item)) registry ->
  forall (weights : list (Z * Q)) (total : Q),
    exists r, build_weights registry weights total = Ret r.
Proof.
  induction 1 as [| e registry He Hall IH]; intros weights total;
    cbn [build_weights]; [eauto |].
  destruct (item_weight e) as [[w | err] |] eqn:Ew.
  - cbn [py_bind]. apply IH.
  - exfalso. exact (He err eq_refl).
  - cbn [py_bind]. apply IH.
Qed.

(** X9: where a rebuild can raise.  It raises what the [exists()] test on
    the index path raises, for that test stands outside the [try].  Apart
    from that it raises only through the [weight] of an index entry: if
    the test returns, reading the default asset fails with nothing but
    [OSError] and no entry of the index has a [weight] that [float]
    rejects, the rebuild returns, whatever else the index and the files
    hold: an absent or unreadable index, ids that are no integers,
    missing or broken rasters. *)
Theorem refresh_raise_cases
    (fs : FileSystem) (index : IndexFile) (G : Globals) :
  (forall e : exn,
     index = IndexUnreachable e ->
     refresh_verified_sigil_registry fs index G = Raise e) /\
  ((forall e : exn, index <> IndexUnreachable e) ->
   (forall e : exn,
      fs LILITH_GRAND_SEAL_PBM = Some (Raise e) -> e = OSError) ->
   (forall entry : IndexEntry,
      List.In entry (index_entries index) ->
      weight_readable (entry_weight entry)) ->
   exists G' : Globals, refresh_verified_sigil_registry fs index G = Ret G').
Proof.
  split; [intros e ->; reflexivity |].
  intros Hreach Hfs Hentries.
  assert (Hsc : exists sc : IndexScan,
            scan_index fs index = Ret sc /\
            Forall (fun item => weight_readable (item_weight item))
                   (scan_registry sc)).
  { unfold scan_index. destruct index as [e | | e | sigils].
    - now destruct (Hreach e).
    - eexists. split; [reflexivity | constructor].
    - eexists. split; [reflexivity | constructor].
    - eexists. split; [reflexivity |].
      apply index_loop_weights; [| constructor].
      apply List.Forall_forall. exact Hentries. }
  destruct Hsc as (sc & Esc & Hscan).
  unfold refresh_verified_sigil_registry. rewrite Esc. cbn [py_bind].
  assert (Hrm : exists registry masks,
            (if negb (Nat.eqb (List.length (scan_registry sc)) 0)
             then Ret (scan_registry sc, scan_masks sc)
             else
               mask <~ load_pbm_mask (read_bytes fs LILITH_GRAND_SEAL_PBM) ;;
               match mask with
               | Some mask =>
                   Ret ([mkItem (LILITH_SIGIL_ID G) grand_seal_name
                           (Some (Ret 4.2%Q)) LILITH_GRAND_SEAL_PBM None None],
                        ({[ LILITH_SIGIL_ID G := mask ]} : gmap Z Mask))
               | None => Ret (scan_registry sc, scan_masks sc)
               end) = Ret (registry, masks) /\
            Forall (fun item => weight_readable (item_weight item)) registry).
  { destruct (negb _); [eauto |].
    assert (Hload : exists r, load_pbm_mask (read_bytes fs LILITH_GRAND_SEAL_PBM)
                              = Ret r).
    { unfold read_bytes.
      destruct (fs LILITH_GRAND_SEAL_PBM) as [[data | e] |] eqn:Efs.
      - destruct (load_pbm_mask_total data) as [-> | [m ->]]; eauto.
      - rewrite (Hfs e eq_refl). eauto.
      - eauto. }
    destruct Hload as [[mask |] ->]; cbn [py_bind]; [| eauto].
    do 2 eexists. split; [reflexivity |].
    constructor; [| constructor]. intros e. discriminate. }
  destruct Hrm as (registry & masks & -> & Hreg). cbn [py_bind].
  assert (Hsorted : Forall (fun item => weight_readable (item_weight item))
                           (sort_by_id registry)).
  { apply List.Forall_forall. intros item Hin.
    apply (proj1 (in_sort_by_id _ _)) in Hin.
    rewrite List.Forall_forall in Hreg. now apply Hreg. }
  destruct (sort_by_id registry) as [| e sorted]; [eauto |].
  destruct (build_weights_returns _ Hsorted [] 0%Q) as [[weights total] ->].
  cbn [py_bind]. eauto.
Qed.

Lemma refresh_raise_cases_witness :
  exists G' : Globals,
    refresh_verified_sigil_registry
      (only_grand_seal (bytes_of "P4 8 1" ++ [x0a; xff]))
      (IndexSigils [mkIndexEntry (Raise ValueError) "a.pbm" "" "" None])
      initial_globals = Ret G'.
Proof.
  apply (proj2 (refresh_raise_cases
                  (only_grand_seal (bytes_of "P4 8 1" ++ [x0a; xff]))
                  (IndexSigils [mkIndexEntry (Raise ValueError) "a.pbm" "" "" None])
                  initial_globals)).
  - intros e H. discriminate H.
  - intros e H. vm_compute in H. discriminate H.
  - intros entry [<- | []] e H. discriminate H.
Defined.

(** A usable entry whose [weight] is no number does make the rebuild
    raise: the weight loop stands outside the [try] block. *)
Example refresh_bad_weight_raises :
  refresh_verified_sigil_registry
    (only_grand_seal (bytes_of "P4 8 1" ++ [x0a; xff]))
    (IndexSigils [mkIndexEntry (Ret 7) grand_seal_name "Lilith" ""
                    (Some (Raise ValueError))])
    initial_globals
  = Raise ValueError.
Proof. reflexivity. Qed.

(** ** Mask geometry: probing a decoded mask *)

Lemma land_1_bit (a : Z) : Z.land a 1 = 0 \/ Z.land a 1 = 1.
Proof.
  replace (Z.land a 1) with (a mod 2 ^ 1)
    by (symmetry; apply (Z.land_ones a 1); lia).
  pose proof (Z.mod_pos_bound a (2 ^ 1)). lia.
Qed.

Lemma mask_bit_returns (m : Mask) (mx my : Z) :
  well_formed m ->
  exists b : Z,
    mask_bit m mx my = Ret b /\ (b = 0 \/ b = 1) /\
    (mx < 0 \/ my < 0 \/ mask_width m <= mx \/ mask_height m <= my -> b = 0).
Proof.
  intros [Hrb Hlen]. unfold mask_bit.
  destruct ((mx <? 0) || (my <? 0) || (mask_width m <=? mx)
            || (mask_height m <=? my)) eqn:Eout.
  - exists 0. repeat split; auto.
  - apply orb_false_elim in Eout. destruct Eout as [Eout E4].
    apply orb_false_elim in Eout. destruct Eout as [Eout E3].
    apply orb_false_elim in Eout. destruct Eout as [E1 E2].
    apply Z.ltb_ge in E1, E2. apply Z.leb_gt in E3, E4.
    assert (Hq : 0 <= Z.shiftr mx 3 <= mask_row_bytes m - 1).
    { rewrite Z.shiftr_div_pow2 by lia. change (2 ^ 3) with 8.
      rewrite Hrb.
      replace (mask_width m + 7) with (mask_width m - 1 + 1 * 8) by lia.
      rewrite Z.div_add by lia.
      pose proof (Z.div_pos mx 8 E1 ltac:(lia)).
      pose proof (Z.div_le_mono mx (mask_width m - 1) 8 ltac:(lia) ltac:(lia)).
      lia. }
    rewrite (py_getitem_in_range _ _ x00) by nia.
    cbn [py_bind]. eexists. split; [reflexivity |].
    split; [apply land_1_bit | lia].
Qed.

Lemma py_any_returns {A : Type} (f : A -> py bool) (l : list A) :
  (forall a : A, exists b : bool, f a = Ret b) ->
  exists b : bool, py_any f l = Ret b.
Proof.
  intros Hf. induction l as [| a l IH]; cbn [py_any]; [eauto |].
  destruct (Hf a) as [[] ->]; cbn [py_bind]; eauto.
Qed.

Lemma py_any_true_inv {A : Type} (f : A -> py bool) (l : list A) :
  py_any f l = Ret true -> exists a : A, List.In a l /\ f a = Ret true.
Proof.
  induction l as [| a l IH]; cbn [py_any]; intros H; [discriminate |].
  bind_inv H as b Eb. destruct b.
  - exists a. split; [now left | exact Eb].
  - destruct (IH H) as (a' & Hin & Ha'). exists a'. split; [now right | exact Ha'].
Qed.

Lemma py_any_true_intro {A : Type} (f : A -> py bool) (l : list A) (a : A) :
  (forall a' : A, exists b : bool, f a' = Ret b) ->
  List.In a l -> f a = Ret true -> py_any f l = Ret true.
Proof.
  intros Hf Hin Ha. induction l as [| a' l IH]; [contradiction |].
  cbn [py_any]. destruct (Hf a') as [[] Eb]; rewrite Eb; cbn [py_bind];
    [reflexivity |].
  destruct Hin as [-> | Hin]; [congruence | now apply IH].
Qed.

Lemma in_py_range2 (a b i : Z) : List.In i (py_range2 a b) <-> a <= i < b.
Proof.
  unfold py_range2. rewrite in_map_iff. split.
  - intros (n & <- & Hn). apply in_seq in Hn. lia.
  - intros Hi. exists (Z.to_nat (i - a)). split; [lia |].
    apply in_seq. lia.
Qed.

Lemma is_mask_edge_returns (m : Mask) (mx my : Z) :
  well_formed m -> exists b : bool, is_mask_edge m mx my = Ret b.
Proof.
  intros Hm. unfold is_mask_edge.
  destruct (mask_bit_returns m mx my Hm) as (b & -> & _). cbn [py_bind].
  destruct (b =? 0); [eauto |].
  apply py_any_returns. intros o.
  destruct (mask_bit_returns m (mx + fst o) (my + snd o) Hm) as (n & -> & _).
  cbn [py_bind]. eauto.
Qed.

Lemma is_mask_corner_returns (m : Mask) (mx my : Z) :
  well_formed m -> exists b : bool, is_mask_corner m mx my = Ret b.
Proof.
  intros Hm. unfold is_mask_corner.
  destruct (mask_bit_returns m mx my Hm) as (b & -> & _). cbn [py_bind].
  destruct (b =? 0); [eauto |].
  repeat match goal with
         | |- context [py_bind (mask_bit m ?x ?y) _] =>
             let n := fresh "n" in
             destruct (mask_bit_returns m x y Hm) as (n & -> & _);
             cbn [py_bind]
         end.
  eauto.
Qed.

Lemma edge_true_bit_set (m : Mask) (mx my : Z) :
  is_mask_edge m mx my = Ret true ->
  exists b : Z, mask_bit m mx my = Ret b /\ (b =? 0) = false.
Proof.
  unfold is_mask_edge. intros H. bind_inv H as b Eb.
  destruct (b =? 0) eqn:E0; [discriminate |]. eauto.
Qed.

Lemma corner_true_bit_set (m : Mask) (mx my : Z) :
  is_mask_corner m mx my = Ret true ->
  exists b : Z, mask_bit m mx my = Ret b /\ (b =? 0) = false.
Proof.
  unfold is_mask_corner. intros H. bind_inv H as b Eb.
  destruct (b =? 0) eqn:E0; [discriminate |]. eauto.
Qed.

Lemma thread_cell_returns (m : Mask) (px py' : Z) :
  well_formed m ->
  exists b : bool,
    (e <~ is_mask_edge m px py' ;;
     if e then Ret true else is_mask_corner m px py') = Ret b.
Proof.
  intros Hm. destruct (is_mask_edge_returns m px py' Hm) as [[] ->];
    cbn [py_bind]; [eauto |].
  apply is_mask_corner_returns, Hm.
Qed.

Lemma py_float_of_int_small (n : Z) :
  Z.abs n < float_max_int -> py_float_of_int n = Ret (inject_Z n).
Proof.
  intros H. unfold py_float_of_int.
  destruct (Z.leb_spec float_max_int (Z.abs n)); [lia | reflexivity].
Qed.

Lemma py_float_of_int_big (n : Z) :
  float_max_int <= Z.abs n -> py_float_of_int n = Raise OverflowError.
Proof.
  intros H. unfold py_float_of_int.
  destruct (Z.leb_spec float_max_int (Z.abs n)); [reflexivity | lia].
Qed.

Lemma py_int_round_cases (f : Q) :
  py_int_round f = Ret (py_round f) \/ py_int_round f = Raise OverflowError.
Proof. unfold py_int_round. destruct (Qle_bool _ _); auto. Qed.

Lemma py_int_round_small (f : Q) :
  (Qabs f < inject_Z float_max_int)%Q -> py_int_round f = Ret (py_round f).
Proof.
  intros H. unfold py_int_round.
  destruct (Qle_bool _ _) eqn:E; [| reflexivity].
  apply Qle_bool_iff in E. exfalso. exact (Qlt_not_le _ _ H E).
Qed.

Lemma unit_product_small (u : Q) (n : Z) :
  (-1 <= u <= 1)%Q -> Z.abs n < float_max_int ->
  (Qabs ((u + 1) * 0.5 * inject_Z n) < inject_Z float_max_int)%Q.
Proof.
  intros Hu Hn. apply Qabs_Qlt_condition.
  assert (H1 : (- inject_Z float_max_int < inject_Z n)%Q).
  { rewrite <- inject_Z_opp, <- Zlt_Qlt. lia. }
  assert (H2 : (inject_Z n < inject_Z float_max_int)%Q)
    by (rewrite <- Zlt_Qlt; lia).
  revert H1 H2. generalize (inject_Z float_max_int), (inject_Z n).
  intros F a H1 H2.
  set (t := ((u + 1) * 0.5)%Q).
  assert (Ht : (0 <= t <= 1)%Q) by (unfold t; lra).
  clearbody t. split; nra.
Qed.

Lemma uv_to_mask_xy_cases (u v : Q) (m : Mask) :
  (exists mx my : Z,
     uv_to_mask_xy u v m
     = Ret (clamp_index mx (mask_width m), clamp_index my (mask_height m)))
  \/ uv_to_mask_xy u v m = Raise OverflowError.
Proof.
  unfold uv_to_mask_xy, py_float_of_int.
  destruct (_ <=? _); [now right |]. cbn [py_bind].
  destruct (_ <=? _); [now right |]. cbn [py_bind].
  destruct (py_int_round_cases
              ((u + 1) * 0.5 * inject_Z (mask_width m - 1))) as [-> | ->];
    [| now right].
  cbn [py_bind].
  destruct (py_int_round_cases
              ((v + 1) * 0.5 * inject_Z (mask_height m - 1))) as [-> | ->];
    [| now right].
  left. eauto.
Qed.

Lemma uv_to_mask_xy_returns (u v : Q) (m : Mask) :
  convertible m -> (-1 <= u <= 1)%Q -> (-1 <= v <= 1)%Q ->
  uv_to_mask_xy u v m
  = Ret (clamp_index
           (py_round ((u + 1) * 0.5 * inject_Z (mask_width m - 1)))
           (mask_width m),
         clamp_index
           (py_round ((v + 1) * 0.5 * inject_Z (mask_height m - 1)))
           (mask_height m)).
Proof.
  intros [Hw Hh] Hu Hv. unfold uv_to_mask_xy.
  rewrite !py_float_of_int_small by assumption. cbn [py_bind].
  rewrite !py_int_round_small by now apply unit_product_small.
  reflexivity.
Qed.

Lemma uv_to_mask_xy_overflow (u v : Q) (m : Mask) :
  ~ convertible m -> uv_to_mask_xy u v m = Raise OverflowError.
Proof.
  intros Hn. unfold uv_to_mask_xy.
  destruct (Z.lt_ge_cases (Z.abs (mask_width m - 1)) float_max_int)
    as [Hw | Hw]; [| now rewrite py_float_of_int_big].
  rewrite py_float_of_int_small by assumption. cbn [py_bind].
  destruct (Z.lt_ge_cases (Z.abs (mask_height m - 1)) float_max_int)
    as [Hh | Hh]; [| now rewrite py_float_of_int_big].
  exfalso. apply Hn. now split.
Qed.

Lemma unit_square_guard (u v : Q) :
  Qltb u (-1) || Qgtb u 1 || Qltb v (-1) || Qgtb v 1 = false ->
  (-1 <= u <= 1 /\ -1 <= v <= 1)%Q.
Proof.
  intros H.
  destruct (Qltb u (-1)) eqn:E1; [discriminate |].
  destruct (Qgtb u 1) eqn:E2; [discriminate |].
  destruct (Qltb v (-1)) eqn:E3; [discriminate |].
  destruct (Qgtb v 1) eqn:E4; [discriminate |].
  unfold Qgtb in *.
  assert (Hnlt : forall a b : Q, Qltb a b = false -> (b <= a)%Q).
  { intros a b E. destruct (Qlt_le_dec a b) as [Hlt | Hle]; [| exact Hle].
    apply Qltb_lt in Hlt. congruence. }
  apply Hnlt in E1, E2, E3, E4. repeat split; assumption.
Qed.

Lemma unit_square_guard_passes (u v : Q) :
  (-1 <= u <= 1)%Q -> (-1 <= v <= 1)%Q ->
  Qltb u (-1) || Qgtb u 1 || Qltb v (-1) || Qgtb v 1 = false.
Proof.
  intros Hu Hv. unfold Qgtb.
  assert (Hge : forall a b : Q, (b <= a)%Q -> Qltb a b = false).
  { intros a b Hle. destruct (Qltb a b) eqn:E; [| reflexivity].
    apply Qltb_lt in E. lra. }
  rewrite !Hge by lra. reflexivity.
Qed.

Lemma is_point_on_mask_thread_cases (u v scale : Q) (m : Mask) :
  well_formed m ->
  (exists b : bool, is_point_on_mask_thread u v scale m = Ret b)
  \/ is_point_on_mask_thread u v scale m = Raise OverflowError.
Proof.
  intros Hm. unfold is_point_on_mask_thread.
  destruct (_ || _); [eauto |].
  destruct (uv_to_mask_xy_cases u v m) as [(mx & my & ->) | ->];
    [| now right].
  left. cbn [py_bind].
  apply py_any_returns. intros oy. apply py_any_returns. intros ox.
  apply thread_cell_returns, Hm.
Qed.

Lemma is_point_on_mask_thread_returns (u v scale : Q) (m : Mask) :
  well_formed m -> convertible m ->
  exists b : bool, is_point_on_mask_thread u v scale m = Ret b.
Proof.
  intros Hm Hc. unfold is_point_on_mask_thread.
  destruct (_ || _) eqn:Eg; [eauto |].
  apply unit_square_guard in Eg. destruct Eg as [Hu Hv].
  rewrite uv_to_mask_xy_returns by assumption. cbn [py_bind].
  apply py_any_returns. intros oy. apply py_any_returns. intros ox.
  apply thread_cell_returns, Hm.
Qed.

Lemma is_point_on_mask_thread_overflow (u v scale : Q) (m : Mask) :
  ~ convertible m -> (-1 <= u <= 1)%Q -> (-1 <= v <= 1)%Q ->
  is_point_on_mask_thread u v scale m = Raise OverflowError.
Proof.
  intros Hn Hu Hv. unfold is_point_on_mask_thread.
  rewrite unit_square_guard_passes by assumption.
  now rewrite uv_to_mask_xy_overflow.
Qed.

Lemma in_mask_cell_returns (m : Mask) (px py' : Z) :
  well_formed m ->
  exists b : bool,
    (b <~ mask_bit m px py' ;; Ret (negb (b =? 0))) = Ret b.
Proof.
  intros Hm. destruct (mask_bit_returns m px py' Hm) as (n & -> & _).
  cbn [py_bind]. eauto.
Qed.

Lemma is_point_in_mask_cases (u v scale : Q) (m : Mask) :
  well_formed m ->
  (exists b : bool, is_point_in_mask u v scale (Some m) = Ret b)
  \/ is_point_in_mask u v scale (Some m) = Raise OverflowError.
Proof.
  intros Hm. unfold is_point_in_mask.
  destruct (_ || _); [eauto |].
  destruct (uv_to_mask_xy_cases u v m) as [(mx & my & ->) | ->];
    [| now right].
  left. cbn [py_bind].
  apply py_any_returns. intros oy. apply py_any_returns. intros ox.
  apply in_mask_cell_returns, Hm.
Qed.

Lemma is_point_in_mask_returns (u v scale : Q) (m : Mask) :
  well_formed m -> convertible m ->
  exists b : bool, is_point_in_mask u v scale (Some m) = Ret b.
Proof.
  intros Hm Hc. unfold is_point_in_mask.
  destruct (_ || _) eqn:Eg; [eauto |].
  apply unit_square_guard in Eg. destruct Eg as [Hu Hv].
  rewrite uv_to_mask_xy_returns by assumption. cbn [py_bind].
  apply py_any_returns. intros oy. apply py_any_returns. intros ox.
  apply in_mask_cell_returns, Hm.
Qed.

Lemma is_point_in_mask_overflow (u v scale : Q) (m : Mask) :
  ~ convertible m -> (-1 <= u <= 1)%Q -> (-1 <= v <= 1)%Q ->
  is_point_in_mask u v scale (Some m) = Raise OverflowError.
Proof.
  intros Hn Hu Hv. unfold is_point_in_mask.
  rewrite unit_square_guard_passes by assumption.
  now rewrite uv_to_mask_xy_overflow.
Qed.

(** X10: what probing a mask the decoder returned can do.  [mask_bit] at
    any pair of integers returns 0 or 1, and 0 outside the bitmap (the
    payload index is never out of range), and the edge and corner tests
    return a boolean.  The thread and in-mask tests return a boolean or
    raise [OverflowError], nothing else: they return whenever [width - 1]
    and [height - 1] are within the doubles, and raise at every point of
    the unit square when one of them is not. *)
Theorem decoded_mask_probes_raise_only_overflow (r : py (list byte))
    (m : Mask) :
  load_pbm_mask r = Ret (Some m) ->
  (forall mx my : Z,
     exists b : Z,
       mask_bit m mx my = Ret b /\ (b = 0 \/ b = 1) /\
       (mx < 0 \/ my < 0 \/ mask_width m <= mx \/ mask_height m <= my ->
        b = 0)) /\
  (forall mx my : Z, exists b : bool, is_mask_edge m mx my = Ret b) /\
  (forall mx my : Z, exists b : bool, is_mask_corner m mx my = Ret b) /\
  (forall u v scale : Q,
     ((exists b : bool, is_point_on_mask_thread u v scale m = Ret b)
      \/ is_point_on_mask_thread u v scale m = Raise OverflowError) /\
     (convertible m ->
      exists b : bool, is_point_on_mask_thread u v scale m = Ret b) /\
     (~ convertible m -> (-1 <= u <= 1)%Q -> (-1 <= v <= 1)%Q ->
      is_point_on_mask_thread u v scale m = Raise OverflowError)) /\
  (forall u v scale : Q,
     ((exists b : bool, is_point_in_mask u v scale (Some m) = Ret b)
      \/ is_point_in_mask u v scale (Some m) = Raise OverflowError) /\
     (convertible m ->
      exists b : bool, is_point_in_mask u v scale (Some m) = Ret b) /\
     (~ convertible m -> (-1 <= u <= 1)%Q -> (-1 <= v <= 1)%Q ->
      is_point_in_mask u v scale (Some m) = Raise OverflowError)).
Proof.
  intros H. apply load_pbm_mask_well_formed in H.
  split; [intros; now apply mask_bit_returns |].
  split; [intros; now apply is_mask_edge_returns |].
  split; [intros; now apply is_mask_corner_returns |].
  split; intros u v scale.
  - split; [now apply is_point_on_mask_thread_cases |].
    split; [now apply is_point_on_mask_thread_returns |].
    apply is_point_on_mask_thread_overflow.
  - split; [now apply is_point_in_mask_cases |].
    split; [now apply is_point_in_mask_returns |].
    apply is_point_in_mask_overflow.
Qed.

Lemma decoded_mask_probes_raise_only_overflow_witness :
  exists b : bool,
    is_point_on_mask_thread 0 0 20 (mkMask 8 1 1 [xff]) = Ret b.
Proof.
  pose proof (decoded_mask_probes_raise_only_overflow
                (Ret (bytes_of "P4 8 1" ++ [x0a; xff]))
                (mkMask 8 1 1 [xff]) eq_refl) as (_ & _ & _ & Ht & _).
  apply (proj1 (proj2 (Ht 0%Q 0%Q 20%Q))). split; vm_compute; reflexivity.
Defined.

(** The header [P4 99..9 0] with four hundred nines decodes to a mask of
    height 0 and no payload; its width is beyond the doubles, and the
    thread test raises on it. *)
Example wide_mask_decodes :
  load_pbm_mask (Ret wide_seal) = Ret (Some wide_mask).
Proof. vm_compute. reflexivity. Qed.

Example wide_mask_overflows :
  is_point_on_mask_thread 0 0 20 wide_mask = Raise OverflowError /\
  is_point_in_mask 0 0 20 (Some wide_mask) = Raise OverflowError.
Proof. split; vm_compute; reflexivity. Qed.

(** A mask that no decoder returned can make the probe raise: its payload
    is shorter than its dimensions say. *)
Example mask_bit_short_payload :
  mask_bit (mkMask 8 2 1 [xff]) 0 1 = Raise IndexError.
Proof. reflexivity. Qed.

(** X11: every corner is an edge.  Whenever [is_mask_corner] answers true,
    [is_mask_edge] answers true for the same cell, so the corner test of
    the thread probe never adds a cell. *)
Theorem mask_corner_is_edge (m : Mask) (mx my : Z) :
  is_mask_corner m mx my = Ret true -> is_mask_edge m mx my = Ret true.
Proof.
  unfold is_mask_corner, is_mask_edge. intros H.
  bind_inv H as b Eb. cbn [py_bind]. destruct (b =? 0); [discriminate |].
  bind_inv H as o1 E1. bind_inv H as o2 E2.
  bind_inv H as o3 E3. bind_inv H as o4 E4.
  bind_inv H as d1 F1. bind_inv H as d2 F2.
  bind_inv H as d3 F3. bind_inv H as d4 F4.
  unfold ring8. cbn [py_any fst snd].
  rewrite !Z.add_0_r.
  change (mx + -1) with (mx - 1). change (my + -1) with (my - 1).
  rewrite E1, E2, E3, E4, F1, F2, F3, F4. cbn [py_bind].
  unfold count_empty in H. cbn [List.filter] in H.
  destruct (o1 =? 0), (o2 =? 0), (o3 =? 0), (o4 =? 0);
    destruct (d1 =? 0), (d2 =? 0), (d3 =? 0), (d4 =? 0);
    cbn in H |- *; try reflexivity; discriminate H.
Qed.

Lemma mask_corner_is_edge_witness :
  is_mask_edge (mkMask 8 1 1 [xff]) 0 0 = Ret true.
Proof.
  apply (mask_corner_is_edge (mkMask 8 1 1 [xff]) 0 0). reflexivity.
Defined.

Lemma thread_probe_le (scale : Q) :
  (if Qle_bool 24 scale then 1 else if Qle_bool 14 scale then 2 else 3)
  <= (if Qle_bool 32 scale then 1 else if Qle_bool 18 scale then 2 else 3).
Proof.
  destruct (Qle_bool 24 scale) eqn:E24; destruct (Qle_bool 32 scale) eqn:E32;
    destruct (Qle_bool 14 scale) eqn:E14; destruct (Qle_bool 18 scale) eqn:E18;
    try lia; exfalso;
    repeat match goal with
           | H : Qle_bool _ _ = true |- _ => apply Qle_bool_iff in H
           | H : Qle_bool ?a ?b = false |- _ =>
               assert (~ (a <= b)%Q)
                 by (intros Hle; apply Qle_bool_iff in Hle; congruence);
               clear H
           end; lra.
Qed.

(** X12: the thread probe is contained in the in-mask probe.  On a mask
    with consistent payload, a point that [is_point_on_mask_thread]
    accepts at some scale is accepted by [is_point_in_mask] at the same
    scale: the thread window is never wider, and an edge or corner cell
    is a set bit. *)
Theorem thread_point_is_in_mask (u v scale : Q) (m : Mask) :
  well_formed m ->
  is_point_on_mask_thread u v scale m = Ret true ->
  is_point_in_mask u v scale (Some m) = Ret true.
Proof.
  intros Hm H. unfold is_point_on_mask_thread in H. unfold is_point_in_mask.
  destruct (_ || _); [discriminate |].
  bind_inv H as p Ep. cbn [py_bind]. destruct p as [mx my].
  pose proof (thread_probe_le scale) as Hprobe.
  set (p1 := if Qle_bool 24 scale then 1 else _) in *.
  set (p2 := if Qle_bool 32 scale then 1 else _) in *.
  apply py_any_true_inv in H. destruct H as (oy & Hoy & H).
  apply py_any_true_inv in H. destruct H as (ox & Hox & H).
  apply in_py_range2 in Hoy, Hox.
  assert (Hbit : exists b : Z,
             mask_bit m (mx + ox) (my + oy) = Ret b /\ (b =? 0) = false).
  { bind_inv H as e Ee. destruct e.
    - now apply edge_true_bit_set.
    - now apply corner_true_bit_set. }
  destruct Hbit as (b & Eb & Hb).
  apply py_any_true_intro with oy.
  - intros oy'. apply py_any_returns. intros ox'.
    now apply in_mask_cell_returns.
  - apply in_py_range2. lia.
  - apply py_any_true_intro with ox.
    + intros ox'. now apply in_mask_cell_returns.
    + apply in_py_range2. lia.
    + rewrite Eb. cbn [py_bind]. now rewrite Hb.
Qed.

Lemma thread_point_is_in_mask_witness :
  is_point_in_mask 0 0 20 (Some (mkMask 8 1 1 [xff])) = Ret true.
Proof.
  apply (thread_point_is_in_mask 0 0 20 (mkMask 8 1 1 [xff])).
  - split; reflexivity.
  - reflexivity.
Defined.





(** A finite [u] far outside the unit square overflows the product, and
    [round] raises on the infinity. *)
Example uv_to_mask_xy_product_overflows :
  uv_to_mask_xy (inject_Z (2 ^ 1023)) 0 (mkMask 8 1 1 [xff])
  = Raise OverflowError.
Proof. vm_compute. reflexivity. Qed.

(** ** The sigil test *)

Lemma py_div_nonzero (a b : Q) : ~ (b == 0)%Q -> py_div a b = Ret (a / b)%Q.
Proof.
  intros Hb. unfold py_div. destruct (Qeq_bool b 0) eqn:E; [| reflexivity].
  apply Qeq_bool_iff in E. contradiction.
Qed.


Lemma is_point_in_sigil_returns (G : Globals) (x y type_id : Z)
    (cx cy scale phase_noise : Q) :
  ~ (scale == 0)%Q ->
  (forall m : Mask,
     SIGIL_MASKS_BY_ID G !! type_id = Some m ->
     well_formed m /\ convertible m) ->
  exists b : bool,
    is_point_in_sigil G x y type_id cx cy scale phase_noise = Ret b.
Proof.
  intros Hs Hm. unfold is_point_in_sigil.
  rewrite !py_div_nonzero by (try exact Hs; intros H; apply Hs; lra).
  cbn [py_bind].
  destruct (SIGIL_MASKS_BY_ID G !! type_id) as [m |]; [| eauto].
  destruct (Hm m eq_refl) as [Hwf Hc].
  now apply is_point_on_mask_thread_returns.
Qed.



(** A registry rebuilt from the wide raster holds the wide mask, and
    the sigil test raises at the centre of the sigil. *)
Example is_point_in_sigil_overflows :
  SIGIL_MASKS_BY_ID wide_globals !! LILITH_GRAND_SEAL_ID wide_globals
  = Some wide_mask /\
  is_point_in_sigil wide_globals 20 5 (LILITH_GRAND_SEAL_ID wide_globals)
    20 5 4 0
  = Raise OverflowError.
Proof. split; vm_compute; reflexivity. Qed.

Lemma thread_true_in_unit_square (u v scale : Q) (m : Mask) :
  is_point_on_mask_thread u v scale m = Ret true ->
  (-1 <= u <= 1 /\ -1 <= v <= 1)%Q.
Proof.
  unfold is_point_on_mask_thread. intros H.
  destruct (_ || _) eqn:Eg; [discriminate |].
  now apply unit_square_guard.
Qed.

(** X15: a sigil only reaches cells of its bounding box.  A cell the
    sigil test accepts, for a sigil of positive scale, lies within
    [2 * scale] columns and [scale] rows of the centre, once the shift
    the phase noise applies is added. *)
Theorem is_point_in_sigil_within_box (G : Globals) (x y type_id : Z)
    (cx cy scale phase_noise : Q) :
  (0 < scale)%Q ->
  is_point_in_sigil G x y type_id cx cy scale phase_noise = Ret true ->
  (Qabs (inject_Z x - cx + phase_noise * SIGIL_PHASE_WARP * (scale * 2))
   <= scale * 2)%Q /\
  (Qabs (inject_Z y - cy - phase_noise * SIGIL_PHASE_WARP * scale)
   <= scale)%Q.
Proof.
  intros Hs H. unfold is_point_in_sigil in H.
  rewrite !py_div_nonzero in H by lra. cbn [py_bind] in H.
  destruct (SIGIL_MASKS_BY_ID G !! type_id) as [m |]; [| discriminate].
  apply thread_true_in_unit_square in H. destruct H as [[Hu1 Hu2] [Hv1 Hv2]].
  set (a := (inject_Z x - cx)%Q) in *. set (b := (inject_Z y - cy)%Q) in *.
  set (c := (phase_noise * SIGIL_PHASE_WARP)%Q) in *.
  assert (Ea : (a == a / (scale * 2) * (scale * 2))%Q) by (field; lra).
  assert (Eb : (b == b / scale * scale)%Q) by (field; lra).
  set (ua := (a / (scale * 2))%Q) in *. set (ub := (b / scale)%Q) in *.
  split; apply Qabs_Qle_condition; rewrite ?Ea, ?Eb; split; nra.
Qed.

Lemma is_point_in_sigil_within_box_witness :
  (Qabs (inject_Z 20 - 20 + 0 * SIGIL_PHASE_WARP * (4 * 2)) <= 4 * 2)%Q /\
  (Qabs (inject_Z 5 - 5 - 0 * SIGIL_PHASE_WARP * 4) <= 4)%Q.
Proof.
  apply (is_point_in_sigil_within_box seal_globals 20 5 1 20 5 4 0).
  - reflexivity.
  - reflexivity.
Defined.

(** ** The glyph archive *)

Lemma dedupe_loop_in (chars : list Z) :
  forall (seen : gset Z) (c : Z),
    List.In c (dedupe_loop seen chars) <-> List.In c chars /\ c ∉ seen.
Proof.
  induction chars as [| a chars IH]; intros seen c; cbn [dedupe_loop List.In].
  - tauto.
  - destruct (decide (a ∈ seen)) as [Ha | Ha]; cbn [List.In]; rewrite IH.
    + split; [tauto |]. intros [[-> | H] Hn]; [contradiction | tauto].
    + rewrite elem_of_union, elem_of_singleton. split.
      * intros [-> | [H1 H2]]; [tauto |]. tauto.
      * intros [[-> | H] Hn]; [tauto |].
        destruct (decide (c = a)) as [-> | Hne]; [tauto |]. right. tauto.
Qed.

Lemma dedupe_loop_NoDup (chars : list Z) :
  forall seen : gset Z, List.NoDup (dedupe_loop seen chars).
Proof.
  induction chars as [| a chars IH]; intros seen; cbn [dedupe_loop].
  - constructor.
  - destruct (decide (a ∈ seen)); [apply IH |].
    constructor; [| apply IH].
    rewrite dedupe_loop_in, elem_of_union, elem_of_singleton. tauto.
Qed.

Lemma dedupe_loop_sublist (chars : list Z) :
  forall seen : gset Z, sublist (dedupe_loop seen chars) chars.
Proof.
  induction chars as [| a chars IH]; intros seen; cbn [dedupe_loop].
  - constructor.
  - destruct (decide (a ∈ seen)).
    + apply sublist_cons, IH.
    + apply sublist_skip, IH.
Qed.

Lemma dedupe_loop_snoc (chars : list Z) (c : Z) :
  forall seen : gset Z,
    dedupe_loop seen (chars ++ [c])
    = if decide (c ∈ seen \/ c ∈ chars)
      then dedupe_loop seen chars
      else dedupe_loop seen chars ++ [c].
Proof.
  induction chars as [| a chars IH]; intros seen; cbn [app dedupe_loop].
  - destruct (decide (c ∈ seen)) as [Hc | Hc];
      destruct (decide (c ∈ seen \/ c ∈ [])) as [H | H];
      try reflexivity.
    + tauto.
    + exfalso. destruct H as [H | H]; [tauto |]. now apply elem_of_nil in H.
  - destruct (decide (a ∈ seen)) as [Ha | Ha]; rewrite IH.
    + destruct (decide (c ∈ seen \/ c ∈ chars)) as [H | H];
        destruct (decide (c ∈ seen \/ c ∈ a :: chars)) as [H' | H'];
        try reflexivity; rewrite elem_of_cons in H'.
      * tauto.
      * exfalso. destruct H' as [H' | [-> | H']]; tauto.
    + destruct (decide (c ∈ {[ a ]} ∪ seen \/ c ∈ chars)) as [H | H];
        destruct (decide (c ∈ seen \/ c ∈ a :: chars)) as [H' | H'];
        cbn [app]; try reflexivity;
        rewrite elem_of_union, elem_of_singleton in H;
        rewrite elem_of_cons in H'.
      * exfalso. apply H'. destruct H as [[-> | H] | H]; tauto.
      * exfalso. apply H. destruct H' as [H' | [-> | H']]; tauto.
Qed.

Lemma dedupe_loop_fixed (chars : list Z) :
  forall seen : gset Z,
    List.NoDup chars -> (forall c : Z, List.In c chars -> c ∉ seen) ->
    dedupe_loop seen chars = chars.
Proof.
  induction chars as [| a chars IH]; intros seen Hnd Hseen;
    cbn [dedupe_loop]; [reflexivity |].
  inversion Hnd as [| ? ? Ha Hnd']; subst.
  destruct (decide (a ∈ seen)) as [Hin | _].
  - exfalso. apply (Hseen a); [now left | exact Hin].
  - f_equal. apply IH; [exact Hnd' |].
    intros c Hc. rewrite elem_of_union, elem_of_singleton.
    intros [-> | H]; [contradiction |]. apply (Hseen c); [now right | exact H].
Qed.

(** X16: [_dedupe_keep_order] keeps the first occurrence of every
    character and nothing else: the result has no duplicates and the same
    members as the input, it is a subsequence of the input, appending a
    character appends it to the result exactly when it is new, and a list
    without duplicates (so also every result) is returned unchanged. *)
Theorem dedupe_keeps_first_occurrences (chars : list Z) :
  List.NoDup (_dedupe_keep_order chars) /\
  (forall c : Z, List.In c (_dedupe_keep_order chars) <-> List.In c chars) /\
  sublist (_dedupe_keep_order chars) chars /\
  (forall c : Z,
     _dedupe_keep_order (chars ++ [c])
     = if decide (c ∈ chars) then _dedupe_keep_order chars
       else _dedupe_keep_order chars ++ [c]) /\
  (List.NoDup chars -> _dedupe_keep_order chars = chars) /\
  _dedupe_keep_order (_dedupe_keep_order chars) = _dedupe_keep_order chars.
Proof.
  unfold _dedupe_keep_order. split; [apply dedupe_loop_NoDup |].
  split.
  { intros c. rewrite dedupe_loop_in. split; [tauto |].
    intros H. split; [exact H |]. apply not_elem_of_empty. }
  split; [apply dedupe_loop_sublist |].
  split.
  { intros c. rewrite dedupe_loop_snoc.
    destruct (decide (c ∈ (∅ : gset Z) \/ c ∈ chars)) as [H | H];
      destruct (decide (c ∈ chars)) as [H' | H']; try reflexivity.
    - exfalso. destruct H as [H | H]; [| tauto].
      revert H. apply not_elem_of_empty.
    - tauto. }
  assert (Hfix : forall l : list Z, List.NoDup l -> dedupe_loop ∅ l = l).
  { intros l Hl. apply dedupe_loop_fixed; [exact Hl |].
    intros c _. apply not_elem_of_empty. }
  split; [apply Hfix |]. apply Hfix, dedupe_loop_NoDup.
Qed.

Lemma safe_not_emoji (U : Unicode) (c : Z) :
  is_text_stream_safe_char U c = true -> is_emoji_like_codepoint c = false.
Proof.
  unfold is_text_stream_safe_char.
  destruct (is_emoji_like_codepoint c); [discriminate | reflexivity].
Qed.

Lemma filtered_or_star_ok (U : Unicode) (chars : list Z) :
  family_ok U (filtered_or_star U chars).
Proof.
  unfold filtered_or_star.
  pose proof (List.NoDup_filter (is_text_stream_safe_char U)
                (dedupe_loop_NoDup chars ∅)) as Hnd.
  fold (_dedupe_keep_order chars) in Hnd.
  assert (Hsafe : forall c : Z,
            List.In c (List.filter (is_text_stream_safe_char U)
                         (_dedupe_keep_order chars)) ->
            is_text_stream_safe_char U c = true).
  { intros c Hc. apply filter_In in Hc. tauto. }
  destruct (List.filter (is_text_stream_safe_char U) (_dedupe_keep_order chars))
    as [| c0 filtered].
  - split; [discriminate |]. split; [repeat constructor; intros [] |].
    intros c [<- | []]. split; [reflexivity | now right].
  - split; [discriminate |]. split; [exact Hnd |].
    intros c Hc. split; [eapply safe_not_emoji |]; eauto.
Qed.

Lemma build_sigil_blocks_ok (U : Unicode) :
  Forall (fun e => family_ok U (snd e)) (build_sigil_blocks U).
Proof.
  unfold build_sigil_blocks. apply List.Forall_map.
  apply List.Forall_forall. intros e _. cbn [snd].
  apply filtered_or_star_ok.
Qed.

Lemma filter_all_true {A : Type} (f : A -> bool) (l : list A) :
  Forall (fun a => f a = true) l -> List.filter f l = l.
Proof.
  induction 1 as [| a l Ha Hl IH]; cbn [List.filter]; [reflexivity |].
  now rewrite Ha, IH.
Qed.

Lemma random_families_all (U : Unicode) :
  random_families (build_sigil_blocks U) = map snd (build_sigil_blocks U).
Proof.
  unfold random_families. rewrite filter_all_true.
  - now destruct (build_sigil_blocks U).
  - eapply List.Forall_impl; [| apply build_sigil_blocks_ok].
    intros e [Hne _]. now destruct (snd e).
Qed.

(** X17: whatever the Unicode database answers, the archive
    [build_sigil_blocks] returns has its fifteen families in the order of
    the table, none of them empty and none with a repeated glyph; no
    family holds an emoji-like code point, and every glyph passed the
    text-stream filter unless its family is the placeholder ["*"].  So
    every family is a random family. *)
Theorem build_sigil_blocks_families (U : Unicode) :
  map fst (build_sigil_blocks U) = map fst block_ranges /\
  List.length (build_sigil_blocks U) = 15%nat /\
  (forall (name : string) (family : list Z),
     List.In (name, family) (build_sigil_blocks U) -> family_ok U family) /\
  catalog_families (module_catalog U) = map snd (build_sigil_blocks U).
Proof.
  split; [| split; [| split]].
  - unfold build_sigil_blocks. rewrite !map_map. reflexivity.
  - unfold build_sigil_blocks. rewrite !length_map. reflexivity.
  - intros name family Hin.
    pose proof (build_sigil_blocks_ok U) as H.
    rewrite List.Forall_forall in H. exact (H _ Hin).
  - apply random_families_all.
Qed.

Lemma py_mod_pos (a b : Z) : 0 < b -> py_mod a b = Ret (a mod b).
Proof.
  intros Hb. unfold py_mod.
  replace (b =? 0) with false by (symmetry; apply Z.eqb_neq; lia).
  reflexivity.
Qed.

Lemma py_getitem_mod {A : Type} (l : list A) (z : Z) (d : A) :
  l <> [] ->
  (i <~ py_mod z (Z.of_nat (List.length l)) ;; py_getitem l i)
  = Ret (nth (Z.to_nat (z mod Z.of_nat (List.length l))) l d) /\
  List.In (nth (Z.to_nat (z mod Z.of_nat (List.length l))) l d) l.
Proof.
  intros Hl.
  assert (Hlen : 0 < Z.of_nat (List.length l))
    by (destruct l; [contradiction | cbn [List.length]; lia]).
  pose proof (Z.mod_pos_bound z _ Hlen) as Hmod.
  rewrite py_mod_pos by exact Hlen. cbn [py_bind].
  rewrite (py_getitem_in_range _ _ d) by exact Hmod.
  split; [reflexivity |]. apply nth_In. lia.
Qed.

Lemma get_text_glyph_member (C : Catalog) (entropy_byte : Z) (entropy_val : Q) :
  catalog_families C <> [] -> UNIFIED_TEXT_GLYPHS C <> [] ->
  exists (g : Z) (family : list Z),
    get_text_glyph C entropy_byte entropy_val = Ret g /\
    List.In family (catalog_families C) /\
    List.In g (match family with [] => UNIFIED_TEXT_GLYPHS C | _ => family end).
Proof.
  intros Hf Hu. unfold get_text_glyph.
  set (mix := Z.land _ 0xFFFFFFFF).
  set (mix2 := Z.land _ 0xFFFFFFFF).
  destruct (py_getitem_mod (catalog_families C) mix [] Hf) as [E Hin].
  assert (Hlen : 0 < Z.of_nat (List.length (catalog_families C)))
    by (destruct (catalog_families C); [contradiction | cbn [List.length]; lia]).
  rewrite py_mod_pos in E |- * by exact Hlen. cbn [py_bind] in E |- *.
  rewrite E. cbn [py_bind].
  set (family := nth _ (catalog_families C) []) in *.
  set (pool := match family with [] => UNIFIED_TEXT_GLYPHS C | _ => family end).
  assert (Hpool : pool <> []) by (unfold pool; now destruct family).
  destruct (py_getitem_mod pool mix2 0 Hpool) as [E2 Hin2].
  rewrite E2. eauto.
Qed.

(** X18: [get_text_glyph] never fails on a catalog with at least one
    family and a non-empty unified pool, for any byte and any value: it
    returns a glyph of one of the families, or of the unified pool when
    that family is empty.  Without any family it raises
    [ZeroDivisionError]. *)
Theorem get_text_glyph_returns_family_member (C : Catalog)
    (entropy_byte : Z) (entropy_val : Q) :
  (catalog_families C <> [] -> UNIFIED_TEXT_GLYPHS C <> [] ->
   exists (g : Z) (family : list Z),
     get_text_glyph C entropy_byte entropy_val = Ret g /\
     List.In family (catalog_families C) /\
     List.In g (match family with
                | [] => UNIFIED_TEXT_GLYPHS C
                | _ => family
                end)) /\
  (catalog_families C = [] ->
   get_text_glyph C entropy_byte entropy_val = Raise ZeroDivisionError).
Proof.
  split; [apply get_text_glyph_member |].
  intros Hf. unfold get_text_glyph. rewrite Hf. reflexivity.
Qed.

Lemma get_text_glyph_returns_family_member_witness :
  exists (g : Z) (family : list Z),
    get_text_glyph (mkCatalog [[65; 66]; []] [42]) 200 (1 # 3) = Ret g /\
    List.In family [[65; 66]; []] /\
    List.In g (match family with [] => [42] | _ => family end).
Proof.
  apply (proj1 (get_text_glyph_returns_family_member
                  (mkCatalog [[65; 66]; []] [42]) 200 (1 # 3)));
    discriminate.
Defined.

(** X19: on the catalog the module builds, whatever the Unicode database
    answers, [get_text_glyph] returns for every byte and value: the glyph
    belongs to one of the fifteen families, is not emoji-like, and passed
    the text-stream filter unless it is the placeholder. *)
Theorem get_text_glyph_on_module_catalog (U : Unicode)
    (entropy_byte : Z) (entropy_val : Q) :
  exists (g : Z) (name : string) (family : list Z),
    get_text_glyph (module_catalog U) entropy_byte entropy_val = Ret g /\
    List.In (name, family) (build_sigil_blocks U) /\ List.In g family /\
    is_emoji_like_codepoint g = false /\
    (is_text_stream_safe_char U g = true \/ g = 42).
Proof.
  pose proof (build_sigil_blocks_ok U) as Hok.
  rewrite List.Forall_forall in Hok.
  assert (Hlen : List.length (build_sigil_blocks U) = 15%nat)
    by (unfold build_sigil_blocks; rewrite !length_map; reflexivity).
  destruct (get_text_glyph_member (module_catalog U) entropy_byte entropy_val)
    as (g & family & E & Hfam & Hg).
  - cbn [module_catalog catalog_families]. rewrite random_families_all.
    destruct (build_sigil_blocks U); [discriminate Hlen | discriminate].
  - cbn [module_catalog UNIFIED_TEXT_GLYPHS]. unfold unified_text_glyphs.
    now destruct (_dedupe_keep_order _).
  - cbn [module_catalog catalog_families] in Hfam.
    rewrite random_families_all in Hfam. apply in_map_iff in Hfam.
    destruct Hfam as ([name family'] & Hsnd & Hin). cbn [snd] in Hsnd. subst.
    destruct (Hok _ Hin) as (Hne & _ & Hmem). cbn [snd] in *.
    assert (Hg' : List.In g family) by (now destruct family).
    destruct (Hmem g Hg') as [Hemoji Hsafe].
    exists g, name, family. repeat split; try assumption.
    destruct Hsafe as [Hsafe | Hstar]; [now left |].
    right. rewrite Hstar in Hg'. destruct Hg' as [<- | []]. reflexivity.
Qed.

(** X20: [get_sigil_stroke_char] returns one of the eleven stroke
    characters for every byte and value, negative ones included. *)
Theorem get_sigil_stroke_char_in_alphabet (entropy_byte : Z) (entropy_val : Q) :
  exists c : Z,
    get_sigil_stroke_char entropy_byte entropy_val = Ret c /\
    List.In c SIGIL_STROKE_CHARS.
Proof.
  unfold get_sigil_stroke_char.
  set (mix := Z.land _ 0xFFFFFFFF).
  destruct (py_getitem_mod SIGIL_STROKE_CHARS mix 0) as [E Hin];
    [discriminate |].
  rewrite E. eauto.
Qed.

(** ** The frame: sparks *)

Lemma raise_cell_at (g : gmap (Z * Z) Q) (k : Z * Z) (v : Q) :
  (0 < v)%Q -> exists v' : Q, raise_cell g k v !! k = Some v' /\ (v <= v')%Q.
Proof.
  intros Hv. unfold raise_cell, Qgtb.
  destruct (Qltb (grid_get g k) v) eqn:E.
  - exists v. rewrite lookup_insert_eq. split; [reflexivity | lra].
  - assert (Hle : (v <= grid_get g k)%Q).
    { destruct (Qlt_le_dec (grid_get g k) v) as [Hlt | Hle]; [| exact Hle].
      apply Qltb_lt in Hlt. congruence. }
    unfold grid_get in Hle. destruct (g !! k) as [a |]; cbn in Hle.
    + exists a. split; [reflexivity | exact Hle].
    + lra.
Qed.

Lemma sparks_hot_grid_le (width height : Z) (g g' : gmap (Z * Z) Q)
    (sparks : gset (Z * Z)) :
  sparks_hot width height g sparks -> grid_le g g' ->
  sparks_hot width height g' sparks.
Proof.
  intros Hhot Hle k Hk. destruct (Hhot k Hk) as (Hview & v & Hv & Hge).
  split; [exact Hview |].
  destruct (proj1 (Hle k) v Hv) as (b & Hb & Hab).
  exists b. split; [exact Hb | lra].
Qed.

Lemma inject_no_halo_hot (grid : gmap (Z * Z) Q) (sparks : gset (Z * Z))
    (x y : Z) (b : Q) (r : Trng) (width height : Z) :
  sparks_hot width height grid sparks -> (0.94 <= b)%Q ->
  sparks_hot width height
    (inject_sigil_excitation grid sparks x y b r width height false).1.1
    (inject_sigil_excitation grid sparks x y b r width height false).1.2.
Proof.
  intros Hhot Hb. rewrite inject_no_halo.
  destruct (out_of_grid x y width height) eqn:Eout; cbn [fst snd];
    [exact Hhot |].
  intros k Hk. apply elem_of_union in Hk. destruct Hk as [Hk | Hk].
  - apply elem_of_singleton in Hk. subst k.
    split; [now apply out_of_grid_false in Eout |].
    destruct (raise_cell_at grid (x, y) b) as (v' & Hv' & Hle); [lra |].
    exists v'. split; [exact Hv' | lra].
  - eapply sparks_hot_grid_le; [exact Hhot | apply raise_cell_le | exact Hk].
Qed.

Lemma spread_step_hot (G : Globals) (entropy_pool : list byte)
    (sigils : list Sigil) (width height : Z) (chance : Q) (s : Z * Z)
    (acc acc' : gmap (Z * Z) Q * gset (Z * Z) * Trng) (d : Z * Z) :
  sparks_hot width height acc.1.1 acc.1.2 ->
  spread_step G entropy_pool sigils width height chance s acc d = Ret acc' ->
  sparks_hot width height acc'.1.1 acc'.1.2.
Proof.
  destruct acc as [[grid sparks] r]. unfold spread_step.
  cbn [fst snd]. intros Hg H.
  destruct (in_grid _ _ width height); [| now inversion H; subst].
  destruct (match grid !! _ with Some _ => _ | None => _ end);
    [| now inversion H; subst].
  bind_inv H as e E1. bind_inv H as part E2.
  destruct part; [| now inversion H; subst].
  unfold trng_random in H.
  destruct (Qltb _ chance); inversion H; subst; [| exact Hg].
  apply inject_no_halo_hot; [exact Hg | discriminate].
Qed.

Lemma render_cell_hot (G : Globals) (C : Catalog) (inp : FrameInput)
    (sigils : list Sigil)
    (acc acc' : gmap (Z * Z) Q * gset (Z * Z) * Trng) (c : Z * Z) :
  sparks_hot (frame_width inp) (frame_height inp) acc.1.1 acc.1.2 ->
  render_cell G C inp sigils acc c = Ret acc' ->
  sparks_hot (frame_width inp) (frame_height inp) acc'.1.1 acc'.1.2.
Proof.
  destruct acc as [[grid sparks] r], c as [x y].
  unfold render_cell. cbn [fst snd]. intros Hg H.
  bind_inv H as e E1.
  destruct (Qgtb (grid_get grid (x, y)) 0).
  - bind_inv H as drawn E2. now inversion H; subst.
  - destruct (_ && _); [| now inversion H; subst].
    bind_inv H as hit E2. destruct hit; inversion H; subst; [| exact Hg].
    apply inject_no_halo_hot; [exact Hg | discriminate].
Qed.

Lemma propagate_hot (G : Globals) (entropy_pool : list byte)
    (sigils : list Sigil) (width height : Z) (chance : Q)
    (sparks : gset (Z * Z)) (grid : gmap (Z * Z) Q) (r : Trng)
    (acc' : gmap (Z * Z) Q * gset (Z * Z) * Trng) :
  propagate G entropy_pool sigils width height chance sparks grid r = Ret acc' ->
  sparks_hot width height acc'.1.1 acc'.1.2.
Proof.
  intros H. unfold propagate in H.
  eapply (py_fold_invariant
            (fun acc => sparks_hot width height acc.1.1 acc.1.2));
    [| | exact H].
  - intros acc s acc1 Hacc Hs.
    eapply (py_fold_invariant
              (fun acc => sparks_hot width height acc.1.1 acc.1.2));
      [| exact Hacc | exact Hs].
    intros a d a' Ha Hd. eapply spread_step_hot; eassumption.
  - intros k Hk. cbn [fst snd] in Hk. now apply not_elem_of_empty in Hk.
Qed.

(** X21: at the end of every frame that is drawn, every active spark is a
    cell of the viewport whose excitation is at least 0.94: the sparks of
    the frame before are dropped, and the propagation and the seeding
    store 0.94 or 1.0 where they add a spark. *)
Theorem sparks_are_hot_at_frame_end (sqrt : Q -> Q) (G : Globals)
    (C : Catalog) (inp : FrameInput) (st st' : MainState) :
  too_small inp = false ->
  main_frame sqrt G C inp st = Ret st' ->
  sparks_hot (frame_width inp) (frame_height inp)
             (excitation_grid st') (active_sparks st').
Proof.
  intros Hsize H. unfold main_frame in H. unfold too_small in Hsize.
  rewrite Hsize in H.
  unfold trng_random at 1 in H. cbn [fst snd] in H.
  bind_inv H as mean Emean. bind_inv H as it Eit.
  repeat match type of H with
         | context [let '(_, _) := ?e in _] => destruct e
         end.
  bind_inv H as ig Eig. destruct ig as [[grid1 sparks1] r1].
  bind_inv H as pr Epr.
  bind_inv H as rd Erd. destruct rd as [[grid3 sparks3] r3].
  inversion H; subst. cbn [excitation_grid active_sparks].
  apply propagate_hot in Epr.
  change (sparks_hot (frame_width inp) (frame_height inp)
            (grid3, sparks3, r3).1.1 (grid3, sparks3, r3).1.2).
  revert Epr Erd.
  apply (py_fold_invariant
           (fun acc => sparks_hot (frame_width inp) (frame_height inp)
                         acc.1.1 acc.1.2)).
  intros s c s' Hs Hc. eapply render_cell_hot; eassumption.
Qed.

Lemma sparks_are_hot_at_frame_end_witness :
  match main_frame sqrt_upper seal_globals star_catalog (bright_frame 0)
          (initial_state scene_tape) with
  | Ret st =>
      excitation_grid st !! (20, 5) = Some 1%Q /\
      sparks_hot 40 10 (excitation_grid st) (active_sparks st)
  | Raise _ => False
  end.
Proof.
  assert (L : match main_frame sqrt_upper seal_globals star_catalog
                      (bright_frame 0) (initial_state scene_tape) with
              | Ret st => excitation_grid st !! (20, 5) = Some 1%Q
              | Raise _ => False
              end) by (vm_compute; reflexivity).
  destruct (main_frame sqrt_upper seal_globals star_catalog (bright_frame 0)
              (initial_state scene_tape)) as [st | e] eqn:E; [| exact L].
  split; [exact L |].
  exact (sparks_are_hot_at_frame_end sqrt_upper seal_globals star_catalog
           (bright_frame 0) (initial_state scene_tape) st eq_refl E).
Defined.

(** ** The frame: propagation *)

Lemma py_fold_invariant_in {A S : Type} (P : S -> Prop) (f : S -> A -> py S)
    (l : list A) :
  (forall s a s', List.In a l -> P s -> f s a = Ret s' -> P s') ->
  forall s s' : S, P s -> py_fold f l s = Ret s' -> P s'.
Proof.
  induction l as [| a l IH]; intros Hf s s' Hs H; cbn in H.
  - now inversion H; subst.
  - bind_inv H as s1 E. apply (IH (fun s0 a0 s0' Hin => Hf s0 a0 s0' (or_intror Hin)) s1 s').
    + eapply Hf; [now left | exact Hs | exact E].
    + exact H.
Qed.

Lemma in_grid_true (x y width height : Z) :
  in_grid x y width height = true <-> 0 <= x < width /\ 0 <= y < height.
Proof.
  unfold in_grid. rewrite !andb_true_iff, !Z.leb_le, !Z.ltb_lt. lia.
Qed.

Lemma spread_step_from (G : Globals) (entropy_pool : list byte)
    (sigils : list Sigil) (width height : Z) (chance : Q)
    (grid : gmap (Z * Z) Q) (sparks : gset (Z * Z)) (s : Z * Z)
    (acc acc' : gmap (Z * Z) Q * gset (Z * Z) * Trng) (d : Z * Z) :
  s ∈ sparks -> List.In d neighbors ->
  spread_from width height grid sparks acc ->
  spread_step G entropy_pool sigils width height chance s acc d = Ret acc' ->
  spread_from width height grid sparks acc'.
Proof.
  destruct acc as [[g new] r]. intros Hs Hd Hacc H. unfold spread_step in H.
  destruct (in_grid _ _ width height) eqn:Ein; [| now inversion H; subst].
  destruct (match g !! _ with Some _ => _ | None => _ end) eqn:Edark;
    [| now inversion H; subst].
  bind_inv H as e E1. bind_inv H as part E2.
  destruct part; [| now inversion H; subst].
  unfold trng_random in H.
  destruct (Qltb _ chance); [| inversion H; subst; exact Hacc].
  rewrite inject_no_halo in H.
  apply in_grid_true in Ein.
  replace (out_of_grid _ _ width height) with false in H
    by (symmetry; now apply out_of_grid_false).
  inversion H; subst; clear H.
  set (k0 := (s.1 + d.1, s.2 + d.2)) in *.
  destruct Hacc as [Hnew Hold]. cbn [fst snd] in Hnew, Hold.
  assert (Hfresh : k0 ∉ new).
  { intros Hin. destruct (Hnew k0 Hin) as (_ & _ & Hv & _).
    rewrite Hv in Edark. discriminate Edark. }
  assert (Hget : (grid_get g k0 < 0.2)%Q).
  { unfold grid_get. destruct (g !! k0) as [v |]; cbn.
    - now apply Qltb_lt.
    - reflexivity. }
  split; cbn [fst snd].
  - intros k Hk. destruct (decide (k = k0)) as [-> | Hne].
    + split; [exact Ein |]. split; [exists s; split; [exact Hs |]; now exists d |].
      split.
      * unfold raise_cell, Qgtb.
        replace (Qltb (grid_get g k0) 0.94) with true
          by (symmetry; apply Qltb_lt; lra).
        apply lookup_insert_eq.
      * unfold grid_get in *. rewrite <- (Hold k0 Hfresh). exact Hget.
    + apply elem_of_union in Hk. destruct Hk as [Hk | Hk];
        [apply elem_of_singleton in Hk; contradiction |].
      rewrite raise_cell_lookup by exact Hne. now apply Hnew.
  - intros k Hk. rewrite elem_of_union, elem_of_singleton in Hk.
    rewrite raise_cell_lookup by tauto. apply Hold. tauto.
Qed.

(** X22: the propagation lights only dark neighbours.  When it returns,
    every new spark is a viewport cell next to one of the sparks it
    started from, held less than 0.2 (or nothing) before and holds exactly
    0.94 now; every other cell of the grid is as it was. *)
Theorem propagate_lights_dark_neighbours (G : Globals)
    (entropy_pool : list byte) (sigils : list Sigil) (width height : Z)
    (spread_chance : Q) (sparks : gset (Z * Z)) (grid : gmap (Z * Z) Q)
    (r : Trng) (acc' : gmap (Z * Z) Q * gset (Z * Z) * Trng) :
  propagate G entropy_pool sigils width height spread_chance sparks grid r
  = Ret acc' ->
  (forall k : Z * Z,
     k ∈ acc'.1.2 ->
     in_viewport k width height /\
     (exists s : Z * Z, s ∈ sparks /\ adjacent k s) /\
     acc'.1.1 !! k = Some 0.94%Q /\ (grid_get grid k < 0.2)%Q) /\
  (forall k : Z * Z, k ∉ acc'.1.2 -> acc'.1.1 !! k = grid !! k).
Proof.
  intros H. unfold propagate in H.
  change (spread_from width height grid sparks acc').
  eapply (py_fold_invariant_in (spread_from width height grid sparks));
    [| | exact H].
  - intros acc s acc1 Hs Hacc Hfold.
    apply list_elem_of_In, elem_of_elements in Hs.
    eapply (py_fold_invariant_in (spread_from width height grid sparks));
      [| exact Hacc | exact Hfold].
    intros a d a' Hd Ha Hstep. eapply spread_step_from; eassumption.
  - split; cbn [fst snd].
    + intros k Hk. now apply not_elem_of_empty in Hk.
    + reflexivity.
Qed.

Lemma propagate_lights_dark_neighbours_witness :
  match propagate seal_globals (repeat xff 400) [mkSigil 0 20 5 4 1 10]
          40 10 0.72 {[ (20, 5) ]} {[ (20, 5) := 1%Q ]} sample_trng with
  | Ret acc =>
      acc.1.1 !! (19, 5) = Some 0.94%Q /\
      forall k : Z * Z,
        k ∈ acc.1.2 ->
        in_viewport k 40 10 /\
        (exists s : Z * Z, s ∈ ({[ (20, 5) ]} : gset (Z * Z)) /\ adjacent k s) /\
        acc.1.1 !! k = Some 0.94%Q /\
        Qlt (grid_get {[ (20, 5) := 1%Q ]} k) 0.2%Q
  | Raise _ => False
  end.
Proof.
  assert (L : match propagate seal_globals (repeat xff 400)
                      [mkSigil 0 20 5 4 1 10] 40 10 0.72 {[ (20, 5) ]}
                      {[ (20, 5) := 1%Q ]} sample_trng with
              | Ret acc => acc.1.1 !! (19, 5) = Some 0.94%Q
              | Raise _ => False
              end) by (vm_compute; reflexivity).
  destruct (propagate seal_globals (repeat xff 400) [mkSigil 0 20 5 4 1 10]
              40 10 0.72 {[ (20, 5) ]} {[ (20, 5) := 1%Q ]} sample_trng)
    as [acc | e] eqn:E; [| exact L].
  split; [exact L |].
  exact (proj1 (propagate_lights_dark_neighbours seal_globals (repeat xff 400)
                  [mkSigil 0 20 5 4 1 10] 40 10 0.72 {[ (20, 5) ]}
                  {[ (20, 5) := 1%Q ]} sample_trng acc E)).
Defined.

(** ** The frame: decay *)

Lemma decay_grid_keeps (grid : gmap (Z * Z) Q) (decay : Q) (k : Z * Z) (v0 : Q) :
  grid !! k = Some v0 -> (0 < v0 - decay)%Q ->
  decay_grid grid decay !! k = Some (v0 - decay)%Q.
Proof.
  intros Hk Hpos. unfold decay_grid. rewrite lookup_omap, lookup_fmap, Hk.
  cbn. destruct (Qle_bool (v0 - decay) 0) eqn:E; [| reflexivity].
  apply Qle_bool_iff in E. lra.
Qed.

Lemma decay_fold_in_range (decays : list Q) :
  Forall (fun d => (0 <= d)%Q) decays ->
  forall grid : gmap (Z * Z) Q,
    grid_in_range grid -> grid_in_range (fold_left decay_grid decays grid).
Proof.
  induction 1 as [| d decays Hd Hall IH]; intros grid Hg; cbn [fold_left];
    [exact Hg |].
  apply IH. now apply decay_grid_in_range.
Qed.

Lemma decay_fold_upper (decays : list Q) :
  Forall (fun d => (0.08 <= d)%Q) decays ->
  forall (grid : gmap (Z * Z) Q) (k : Z * Z) (v : Q),
    fold_left decay_grid decays grid !! k = Some v ->
    exists v0 : Q,
      grid !! k = Some v0 /\
      (v <= v0 - 0.08 * inject_Z (Z.of_nat (List.length decays)))%Q.
Proof.
  induction 1 as [| d decays Hd Hall IH]; intros grid k v H;
    cbn [fold_left List.length] in *.
  - exists v. split; [exact H |].
    change (inject_Z (Z.of_nat 0)) with 0%Q. lra.
  - destruct (IH _ _ _ H) as (v1 & Hv1 & Hle).
    apply decay_grid_lookup in Hv1. destruct Hv1 as (_ & v0 & Hv0 & ->).
    exists v0. split; [exact Hv0 |].
    rewrite Nat2Z.inj_succ. unfold Z.succ. rewrite inject_Z_plus.
    change (inject_Z 1) with 1%Q. lra.
Qed.

Lemma decay_fold_lower (decays : list Q) :
  Forall (fun d => (d <= 0.12)%Q) decays ->
  forall (grid : gmap (Z * Z) Q) (k : Z * Z) (v0 : Q),
    grid !! k = Some v0 ->
    (0.12 * inject_Z (Z.of_nat (List.length decays)) < v0)%Q ->
    exists v : Q,
      fold_left decay_grid decays grid !! k = Some v /\
      (v0 - 0.12 * inject_Z (Z.of_nat (List.length decays)) <= v)%Q.
Proof.
  induction 1 as [| d decays Hd Hall IH]; intros grid k v0 Hk Hlen;
    cbn [fold_left List.length] in *.
  - exists v0. split; [exact Hk |].
    change (inject_Z (Z.of_nat 0)) with 0%Q. lra.
  - rewrite Nat2Z.inj_succ in *. unfold Z.succ in *.
    rewrite inject_Z_plus in *. change (inject_Z 1) with 1%Q in *.
    assert (H0 : (0 <= inject_Z (Z.of_nat (List.length decays)))%Q).
    { change 0%Q with (inject_Z 0). rewrite <- Zle_Qle. lia. }
    destruct (IH (decay_grid grid d) k (v0 - d)%Q) as (v & Hv & Hle).
    + apply decay_grid_keeps; [exact Hk | nra].
    + nra.
    + exists v. split; [exact Hv | nra].
Qed.

(** X23: how long an excitation lasts.  The decay of a frame is between
    0.08 and 0.12 (for a dilation that is not negative), so a grid whose
    cells hold at most 1 is empty after thirteen decays with nothing
    injected in between, and a cell that holds 1.0 is still there after
    eight. *)
Theorem excitation_fades_between_9_and_13_frames :
  (forall (dilation : Q) (gate_open : bool),
     (0.08 <= excite_decay dilation gate_open)%Q /\
     ((0 <= dilation)%Q -> (excite_decay dilation gate_open <= 0.12)%Q)) /\
  (forall (grid : gmap (Z * Z) Q) (decays : list Q),
     grid_in_range grid ->
     Forall (fun d => (0.08 <= d)%Q) decays ->
     (13 <= List.length decays)%nat ->
     fold_left decay_grid decays grid = ∅) /\
  (forall (grid : gmap (Z * Z) Q) (decays : list Q) (k : Z * Z),
     grid !! k = Some 1%Q ->
     Forall (fun d => (d <= 0.12)%Q) decays ->
     (List.length decays <= 8)%nat ->
     exists v : Q,
       fold_left decay_grid decays grid !! k = Some v /\ (0.04 <= v)%Q).
Proof.
  split; [| split].
  - intros dilation gate_open. unfold excite_decay. split.
    + apply Q.le_max_l.
    + intros Hd. apply Q.max_lub; [discriminate |].
      destruct gate_open; lra.
  - intros grid decays Hg Hall Hlen. apply map_eq. intros k.
    rewrite lookup_empty.
    destruct (fold_left decay_grid decays grid !! k) as [v |] eqn:E;
      [exfalso | reflexivity].
    assert (Hpos : (0 < v)%Q).
    { eapply (decay_fold_in_range decays); [| exact Hg | exact E].
      eapply List.Forall_impl; [| exact Hall]. intros d Hd. cbn in Hd. lra. }
    destruct (decay_fold_upper decays Hall grid k v E) as (v0 & Hv0 & Hle).
    destruct (Hg k v0 Hv0) as [_ H1].
    assert (H13 : (13 <= inject_Z (Z.of_nat (List.length decays)))%Q).
    { change 13%Q with (inject_Z 13). rewrite <- Zle_Qle. lia. }
    lra.
  - intros grid decays k Hk Hall Hlen.
    assert (H8 : (inject_Z (Z.of_nat (List.length decays)) <= 8)%Q).
    { change 8%Q with (inject_Z 8). rewrite <- Zle_Qle. lia. }
    destruct (decay_fold_lower decays Hall grid k 1 Hk) as (v & Hv & Hle);
      [lra |].
    exists v. split; [exact Hv | lra].
Qed.

(** ** The frame: without masks *)

Lemma is_point_in_sigil_no_mask (G : Globals) (x y type_id : Z)
    (cx cy scale phase_noise : Q) :
  SIGIL_MASKS_BY_ID G = ∅ ->
  is_point_in_sigil G x y type_id cx cy scale phase_noise <> Ret true.
Proof.
  intros Hm H. unfold is_point_in_sigil in H.
  bind_inv H as u Eu. bind_inv H as v Ev.
  rewrite Hm, lookup_empty in H. discriminate H.
Qed.

Lemma on_any_sigil_no_mask (G : Globals) (sigils : list Sigil) (x y : Z)
    (phase_noise : Q) :
  SIGIL_MASKS_BY_ID G = ∅ -> on_any_sigil G sigils x y phase_noise <> Ret true.
Proof.
  intros Hm H. unfold on_any_sigil in H. apply py_any_true_inv in H.
  destruct H as (sig & _ & H). now apply is_point_in_sigil_no_mask in H.
Qed.

Lemma ignite_step_no_mask (G : Globals) (width height : Z) (chance : Q)
    (acc acc' : gmap (Z * Z) Q * gset (Z * Z) * Trng) (sig : Sigil) :
  SIGIL_MASKS_BY_ID G = ∅ ->
  ignite_step G width height chance acc sig = Ret acc' -> acc'.1 = acc.1.
Proof.
  destruct acc as [[grid sparks] r]. unfold ignite_step. intros Hm H.
  unfold trng_random, trng_uniform in H.
  destruct (Qltb _ chance); [| now inversion H; subst].
  destruct (in_grid _ _ width height); [| now inversion H; subst].
  bind_inv H as hit E. destruct hit; [| now inversion H; subst].
  now apply is_point_in_sigil_no_mask in E.
Qed.

Lemma spread_step_no_mask (G : Globals) (entropy_pool : list byte)
    (sigils : list Sigil) (width height : Z) (chance : Q) (s : Z * Z)
    (acc acc' : gmap (Z * Z) Q * gset (Z * Z) * Trng) (d : Z * Z) :
  SIGIL_MASKS_BY_ID G = ∅ ->
  spread_step G entropy_pool sigils width height chance s acc d = Ret acc' ->
  acc'.1 = acc.1.
Proof.
  destruct acc as [[grid sparks] r]. unfold spread_step. intros Hm H.
  destruct (in_grid _ _ width height); [| now inversion H; subst].
  destruct (match grid !! _ with Some _ => _ | None => _ end);
    [| now inversion H; subst].
  bind_inv H as e E1. bind_inv H as part E2.
  destruct part; [| now inversion H; subst].
  now apply on_any_sigil_no_mask in E2.
Qed.

Lemma render_cell_no_mask (G : Globals) (C : Catalog) (inp : FrameInput)
    (sigils : list Sigil)
    (acc acc' : gmap (Z * Z) Q * gset (Z * Z) * Trng) (c : Z * Z) :
  SIGIL_MASKS_BY_ID G = ∅ ->
  render_cell G C inp sigils acc c = Ret acc' -> acc'.1 = acc.1.
Proof.
  destruct acc as [[grid sparks] r], c as [x y].
  unfold render_cell. intros Hm H.
  bind_inv H as e E1.
  destruct (Qgtb (grid_get grid (x, y)) 0).
  - bind_inv H as drawn E2. now inversion H; subst.
  - destruct (_ && _); [| now inversion H; subst].
    bind_inv H as hit E2. destruct hit; [| now inversion H; subst].
    now apply on_any_sigil_no_mask in E2.
Qed.

Lemma main_frame_no_mask (sqrt : Q -> Q) (G : Globals) (C : Catalog)
    (inp : FrameInput) (st st' : MainState) :
  SIGIL_MASKS_BY_ID G = ∅ ->
  too_small inp = false ->
  main_frame sqrt G C inp st = Ret st' ->
  active_sparks st' = ∅ /\
  exists decay : Q,
    (0.08 <= decay)%Q /\
    excitation_grid st' = decay_grid (excitation_grid st) decay.
Proof.
  intros Hm Hsize H. unfold main_frame in H. unfold too_small in Hsize.
  rewrite Hsize in H.
  unfold trng_random at 1 in H. cbn [fst snd] in H.
  bind_inv H as mean Emean. bind_inv H as it Eit.
  repeat match type of H with
         | context [let '(_, _) := ?e in _] => destruct e
         end.
  bind_inv H as ig Eig. destruct ig as [[grid1 sparks1] r1].
  bind_inv H as pr Epr.
  bind_inv H as rd Erd. destruct rd as [[grid3 sparks3] r3].
  inversion H; subst. cbn [excitation_grid active_sparks].
  assert (H1 : (grid1, sparks1, r1).1 = (excitation_grid st, active_sparks st)).
  { revert Eig.
    apply (py_fold_invariant
             (fun acc => acc.1 = (excitation_grid st, active_sparks st)));
      [| reflexivity].
    intros s a s' Hs Ha. rewrite <- Hs. eapply ignite_step_no_mask; eassumption. }
  cbn [fst] in H1. inversion H1; subst.
  set (decay := excite_decay _ _) in *.
  assert (H2 : pr.1 = (decay_grid (excitation_grid st) decay, ∅)).
  { unfold propagate in Epr. revert Epr.
    apply (py_fold_invariant
             (fun acc => acc.1 = (decay_grid (excitation_grid st) decay,
                                  (∅ : gset (Z * Z)))));
      [| reflexivity].
    intros acc s acc1 Hacc. 
    apply (py_fold_invariant
             (fun acc => acc.1 = (decay_grid (excitation_grid st) decay,
                                  (∅ : gset (Z * Z)))));
      [| exact Hacc].
    intros a d a' Ha Hd. rewrite <- Ha.
    eapply spread_step_no_mask; eassumption. }
  assert (H3 : (grid3, sparks3, r3).1
               = (decay_grid (excitation_grid st) decay, ∅)).
  { revert Erd.
    apply (py_fold_invariant
             (fun acc => acc.1 = (decay_grid (excitation_grid st) decay,
                                  (∅ : gset (Z * Z)))));
      [| exact H2].
    intros s c s' Hs Hc. rewrite <- Hs.
    eapply render_cell_no_mask; eassumption. }
  cbn [fst] in H3. inversion H3; subst.
  split; [reflexivity |]. exists decay. split; [| reflexivity].
  apply Q.le_max_l.
Qed.

Lemma decay_grid_empty (decay : Q) : decay_grid ∅ decay = ∅.
Proof. unfold decay_grid. now rewrite fmap_empty, omap_empty. Qed.

(** X24: without masks nothing is ever excited.  If no mask is
    registered, a drawn frame that returns leaves no spark and a grid
    that is the old one after one decay; so a run that starts with the
    empty grid ends with the empty grid and no spark. *)
Theorem no_mask_no_excitation (sqrt : Q -> Q) (G : Globals) (C : Catalog) :
  SIGIL_MASKS_BY_ID G = ∅ ->
  (forall (inp : FrameInput) (st st' : MainState),
     too_small inp = false ->
     main_frame sqrt G C inp st = Ret st' ->
     active_sparks st' = ∅ /\
     exists decay : Q,
       (0.08 <= decay)%Q /\
       excitation_grid st' = decay_grid (excitation_grid st) decay) /\
  (forall (inputs : list FrameInput) (r : Trng) (st : MainState),
     run_frames sqrt G C inputs (initial_state r) = Ret st ->
     excitation_grid st = ∅ /\ active_sparks st = ∅).
Proof.
  intros Hm. split.
  - intros inp st st' Hsize H. eapply main_frame_no_mask; eassumption.
  - intros inputs r st H. unfold run_frames in H. revert H.
    apply (py_fold_invariant
             (fun s => excitation_grid s = ∅ /\ active_sparks s = ∅)
             (fun s inp => main_frame sqrt G C inp s));
      [| split; reflexivity].
    intros s inp s' [Hg Hs] Hframe.
    destruct (too_small inp) eqn:Esize.
    + unfold main_frame in Hframe. unfold too_small in Esize.
      rewrite Esize in Hframe. inversion Hframe; subst. now split.
    + destruct (main_frame_no_mask sqrt G C inp s s' Hm Esize Hframe)
        as (Hs' & decay & _ & Hg').
      split; [| exact Hs']. rewrite Hg', Hg. apply decay_grid_empty.
Qed.

Lemma no_mask_no_excitation_witness :
  match run_frames sqrt_upper initial_globals star_catalog
          [bright_frame 0; bright_frame 0.05] (initial_state scene_tape) with
  | Ret st =>
      List.length (active_sigils st) = 1%nat /\
      excitation_grid st = ∅ /\ active_sparks st = ∅
  | Raise _ => False
  end.
Proof.
  assert (L : match run_frames sqrt_upper initial_globals star_catalog
                      [bright_frame 0; bright_frame 0.05]
                      (initial_state scene_tape) with
              | Ret st => List.length (active_sigils st) = 1%nat
              | Raise _ => False
              end) by (vm_compute; reflexivity).
  destruct (run_frames sqrt_upper initial_globals star_catalog
              [bright_frame 0; bright_frame 0.05] (initial_state scene_tape))
    as [st | e] eqn:E; [| exact L].
  split; [exact L |].
  exact (proj2 (no_mask_no_excitation sqrt_upper initial_globals star_catalog
                  eq_refl)
           [bright_frame 0; bright_frame 0.05] scene_tape st E).
Defined.

(** ** The frame: its two halves *)

Lemma pick_weighted_same_tape (G : Globals) (r : Trng) :
  unit_draws (snd (pick_weighted_sigil_id G r)) = unit_draws r.
Proof.
  unfold pick_weighted_sigil_id.
  destruct (ACTIVE_SIGIL_WEIGHT_TABLE G); [reflexivity |].
  unfold trng_random. destruct (weighted_loop _ _); reflexivity.
Qed.

Lemma too_small_false (inp : FrameInput) :
  too_small inp = false -> 10 <= frame_height inp /\ 40 <= frame_width inp.
Proof.
  unfold too_small. rewrite orb_false_iff, !Z.ltb_ge. tauto.
Qed.

Lemma randint_in_range (a b z : Z) : a <= b -> a <= a + z mod (b - a + 1) <= b.
Proof.
  intros Hab. pose proof (Z.mod_pos_bound z (b - a + 1) ltac:(lia)). lia.
Qed.

Lemma main_frame_eq (sqrt : Q -> Q) (G : Globals) (C : Catalog)
    (inp : FrameInput) (st : MainState) (mean : Q) (it : Intent) :
  too_small inp = false ->
  sample_mean (frame_entropy inp) = Ret mean ->
  intent_gate sqrt (frame_entropy inp) (intent_dilation st) = Ret it ->
  exists (buildup : Q) (pulses0 : list Pulse) (target : Q)
         (sigils0 : list Sigil) (r0 : Trng),
    frame_head G inp st it buildup pulses0 target sigils0 r0 /\
    main_frame sqrt G C inp st
    = frame_tail G C inp st it buildup
        (List.filter (fresh_pulse (frame_t inp)) pulses0) target
        (List.filter (fresh_sigil (frame_t inp)) sigils0) r0.
Proof.
  intros Hsize Emean Eit.
  destruct (too_small_false inp Hsize) as [Hh Hw].
  unfold main_frame. unfold too_small in Hsize. rewrite Hsize.
  unfold trng_random, trng_uniform, trng_randint. cbn [fst snd].
  unfold sample_mean in Emean. cbv zeta in Emean. rewrite Emean.
  cbn [py_bind]. rewrite Eit. cbn [py_bind].
  set (rg := if Qltb (unit_draws (trng st) (taken (trng st))) 0.05
             then trng_next (trng_next (trng_next (trng st)))
             else trng_next (trng st)).
  assert (Hrg : unit_draws rg = unit_draws (trng st))
    by (unfold rg; destruct (Qltb _ 0.05); reflexivity).
  clearbody rg.
  match goal with
  | |- context [let '(_, _) := ?e in _] =>
      destruct e as [[buildup pulses] ra] eqn:E1
  end.
  match goal with
  | |- context [let '(_, _) := ?e in _] =>
      destruct e as [target rb] eqn:E2
  end.
  match goal with
  | |- context [let '(_, _) := ?e in _] =>
      destruct e as [base_spawn rc] eqn:E3
  end.
  match goal with
  | |- context [let '(_, _) := ?e in _] =>
      destruct e as [boost_spawn rd] eqn:E4
  end.
  match goal with
  | |- context [let '(_, _) := ?e in _] =>
      destruct e as [sigils re] eqn:E5
  end.
  exists buildup, pulses, target, sigils, re.
  split; [| reflexivity].
  assert (Hra : unit_draws ra = unit_draws (trng st)).
  { destruct (Qgtb _ (Qmax 1.4 _)) in E1; inversion E1; subst; cbn; exact Hrg. }
  assert (Hrb : unit_draws rb = unit_draws (trng st)).
  { destruct (Qltb _ 0.02) in E2; inversion E2; subst; cbn; exact Hra. }
  assert (Hrc : unit_draws rc = unit_draws (trng st)).
  { destruct (Qgtb _ 0.52) in E3; inversion E3; subst; cbn; exact Hrb. }
  assert (Hrd : unit_draws rd = unit_draws (trng st)).
  { destruct (_ && _) in E4; inversion E4; subst; cbn; exact Hrc. }
  unfold frame_head. cbv zeta.
  split; [| split; [| split; [| split]]].
  - destruct (base_spawn || boost_spawn) in E5; [| inversion E5; subst; exact Hrd].
    pose proof (pick_weighted_same_tape G (trng_next (trng_next rd))) as Hp.
    destruct (pick_weighted_sigil_id G (trng_next (trng_next rd))) as [tid rp].
    inversion E5; subst. cbn [snd] in Hp.
    change (unit_draws rp = unit_draws (trng st)). rewrite Hp. exact Hrd.
  - clear E2 E3 E4 E5.
    destruct (Qgtb _ (Qmax 1.4 _)) eqn:Ethr in E1; inversion E1; subst.
    + split; [intros _; lra |].
      apply Qle_trans with 1.4%Q; [discriminate | apply Q.le_max_l].
    + split.
      * intros H0. destruct (Qgtb (mean / 255) 0.51) eqn:Eavg.
        -- apply Qltb_lt in Eavg. lra.
        -- apply Q.le_max_l.
      * destruct (Qlt_le_dec (Qmax 1.4 (gate_threshold - intent_dilation' it * 0.25))
                    (if Qgtb (mean / 255) 0.51
                     then (entropy_buildup st + (mean / 255 - 0.5) * 15)%Q
                     else Qmax 0 (entropy_buildup st - 0.05)))
          as [Hlt | Hle]; [| exact Hle].
        apply Qltb_lt in Hlt. unfold Qgtb in Ethr, Hlt. congruence.
  - clear E2 E3 E4 E5.
    destruct (Qgtb _ (Qmax 1.4 _)) in E1; inversion E1; subst; [| now left].
    right. eexists _, _. split; [reflexivity |].
    split; apply randint_in_range; apply Z.div_le_mono; lia.
  - clear E3 E4 E5.
    destruct (Qltb _ 0.02) in E2; inversion E2; subst; [| now left].
    right. cbn. rewrite Hra. eexists. reflexivity.
  - destruct (base_spawn || boost_spawn) in E5; [| inversion E5; subst; now left].
    destruct (pick_weighted_sigil_id G (trng_next (trng_next rd))) as [tid rp] eqn:Ep.
    pose proof (pick_weighted_same_tape G (trng_next (trng_next rd))) as Hp.
    rewrite Ep in Hp. cbn [snd] in Hp.
    assert (Hrp : unit_draws rp = unit_draws (trng st))
      by (rewrite Hp; exact Hrd).
    inversion E5; subst. right.
    eexists _, _, (taken rp), (taken (trng_next rp)),
            (trng_next (trng_next rd)).
    rewrite Ep. cbn [fst]. rewrite <- Hrp. reflexivity.
Qed.

Lemma main_frame_head_returns (sqrt : Q -> Q) (G : Globals) (C : Catalog)
    (inp : FrameInput) (st st' : MainState) :
  too_small inp = false ->
  main_frame sqrt G C inp st = Ret st' ->
  exists (mean : Q) (it : Intent),
    sample_mean (frame_entropy inp) = Ret mean /\
    intent_gate sqrt (frame_entropy inp) (intent_dilation st) = Ret it.
Proof.
  intros Hsize H. unfold main_frame in H. unfold too_small in Hsize.
  rewrite Hsize in H.
  unfold trng_random at 1 in H. cbn [fst snd] in H.
  bind_inv H as mean Emean. bind_inv H as it Eit.
  exists mean, it. split; [exact Emean | reflexivity].
Qed.

Lemma frame_tail_inv (G : Globals) (C : Catalog) (inp : FrameInput)
    (st st' : MainState) (it : Intent) (buildup : Q) (pulses : list Pulse)
    (target : Q) (sigils : list Sigil) (r : Trng) :
  frame_tail G C inp st it buildup pulses target sigils r = Ret st' ->
  exists (ignite_chance spread_chance : Q)
         (ig pr : gmap (Z * Z) Q * gset (Z * Z) * Trng),
    py_fold (ignite_step G (frame_width inp) (frame_height inp) ignite_chance)
            sigils (excitation_grid st, active_sparks st, r) = Ret ig /\
    propagate G (frame_entropy inp) sigils (frame_width inp)
      (frame_height inp) spread_chance ig.1.2
      (decay_grid ig.1.1
         (excite_decay (intent_dilation' it) (intent_gate_open it)))
      ig.2 = Ret pr /\
    py_fold (render_cell G C inp sigils)
            (render_cells (frame_height inp) (frame_width inp)) pr
    = Ret (excitation_grid st', active_sparks st', trng st') /\
    entropy_buildup st' = buildup /\
    active_pulses st' = pulses /\
    target_coherence st' = target /\
    coherence_walker st'
    = (coherence_walker st + (target - coherence_walker st) * 0.02)%Q /\
    active_sigils st' = sigils /\
    intent_dilation st' = intent_dilation' it.
Proof.
  intros H. unfold frame_tail in H. cbv zeta in H.
  bind_inv H as ig Eig. destruct ig as [[grid1 sparks1] r1].
  bind_inv H as pr Epr.
  bind_inv H as rd Erd. destruct rd as [[grid3 sparks3] r3].
  inversion H; subst; clear H. cbn.
  do 4 eexists. split; [exact Eig |]. split; [exact Epr |].
  split; [exact Erd |]. repeat split; reflexivity.
Qed.

Lemma intent_gate_facts (sqrt : Q -> Q) (entropy_pool : list byte)
    (dilation : Q) (it : Intent) :
  intent_gate sqrt entropy_pool dilation = Ret it ->
  (0 <= intent_target it <= 1.5)%Q /\
  intent_dilation' it = (dilation + (intent_target it - dilation) * 0.08)%Q.
Proof.
  unfold intent_gate. intros H. bind_inv H as hits Ehits.
  bind_inv H as z Ez. inversion H; subst; clear H.
  cbn [intent_target intent_dilation']. split; [| reflexivity].
  split; [apply Q.le_max_l |].
  apply Q.max_lub; [discriminate | apply Q.le_min_l].
Qed.

Lemma ignite_step_tape (G : Globals) (width height : Z) (chance : Q)
    (acc acc' : gmap (Z * Z) Q * gset (Z * Z) * Trng) (sig : Sigil) :
  ignite_step G width height chance acc sig = Ret acc' ->
  unit_draws acc'.2 = unit_draws acc.2.
Proof.
  destruct acc as [[grid sparks] r]. unfold ignite_step. intros H.
  unfold trng_random, trng_uniform in H.
  destruct (Qltb _ chance); [| now inversion H; subst].
  destruct (in_grid _ _ width height); [| now inversion H; subst].
  bind_inv H as hit E. destruct hit; [| now inversion H; subst].
  rewrite inject_no_halo in H.
  destruct (out_of_grid _ _ width height); now inversion H; subst.
Qed.

Lemma spread_step_tape (G : Globals) (entropy_pool : list byte)
    (sigils : list Sigil) (width height : Z) (chance : Q) (s : Z * Z)
    (acc acc' : gmap (Z * Z) Q * gset (Z * Z) * Trng) (d : Z * Z) :
  spread_step G entropy_pool sigils width height chance s acc d = Ret acc' ->
  unit_draws acc'.2 = unit_draws acc.2.
Proof.
  destruct acc as [[grid sparks] r]. unfold spread_step. intros H.
  destruct (in_grid _ _ width height); [| now inversion H; subst].
  destruct (match grid !! _ with Some _ => _ | None => _ end);
    [| now inversion H; subst].
  bind_inv H as e E1. bind_inv H as part E2.
  destruct part; [| now inversion H; subst].
  unfold trng_random in H.
  destruct (Qltb _ chance); [| now inversion H; subst].
  rewrite inject_no_halo in H.
  destruct (out_of_grid _ _ width height); now inversion H; subst.
Qed.

Lemma render_cell_tape (G : Globals) (C : Catalog) (inp : FrameInput)
    (sigils : list Sigil)
    (acc acc' : gmap (Z * Z) Q * gset (Z * Z) * Trng) (c : Z * Z) :
  render_cell G C inp sigils acc c = Ret acc' ->
  unit_draws acc'.2 = unit_draws acc.2.
Proof.
  destruct acc as [[grid sparks] r], c as [x y].
  unfold render_cell. intros H.
  bind_inv H as e E1.
  destruct (Qgtb (grid_get grid (x, y)) 0).
  - bind_inv H as drawn E2. now inversion H; subst.
  - destruct (_ && _); [| now inversion H; subst].
    bind_inv H as hit E2. destruct hit; [| now inversion H; subst].
    rewrite inject_no_halo in H.
    destruct (out_of_grid _ _ _ _); now inversion H; subst.
Qed.

Lemma propagate_tape (G : Globals) (entropy_pool : list byte)
    (sigils : list Sigil) (width height : Z) (chance : Q)
    (sparks : gset (Z * Z)) (grid : gmap (Z * Z) Q) (r : Trng)
    (acc' : gmap (Z * Z) Q * gset (Z * Z) * Trng) :
  propagate G entropy_pool sigils width height chance sparks grid r = Ret acc' ->
  unit_draws acc'.2 = unit_draws r.
Proof.
  unfold propagate.
  apply (py_fold_invariant (fun acc => unit_draws acc.2 = unit_draws r));
    [| reflexivity].
  intros acc s acc1 Hacc.
  apply (py_fold_invariant (fun acc => unit_draws acc.2 = unit_draws r));
    [| exact Hacc].
  intros a d a' Ha Hd. rewrite <- Ha. eapply spread_step_tape, Hd.
Qed.

Lemma Forall_filter_keeps {A : Type} (P : A -> Prop) (f : A -> bool)
    (l : list A) :
  Forall P l -> Forall P (List.filter f l).
Proof.
  rewrite !List.Forall_forall. intros H a Ha.
  apply filter_In in Ha. apply H, Ha.
Qed.

Lemma main_frame_state_ok (sqrt : Q -> Q) (G : Globals) (C : Catalog)
    (inp : FrameInput) (st st' : MainState) :
  state_ok st -> main_frame sqrt G C inp st = Ret st' -> state_ok st'.
Proof.
  intros Hst H. destruct (too_small inp) eqn:Hsize.
  { unfold main_frame in H. unfold too_small in Hsize. rewrite Hsize in H.
    now inversion H; subst. }
  destruct (main_frame_head_returns _ _ _ _ _ _ Hsize H)
    as (mean & it & Emean & Eit).
  destruct (main_frame_eq sqrt G C inp st mean it Hsize Emean Eit)
    as (buildup & pulses0 & target & sigils0 & r0 & Hhead & Heq).
  rewrite Heq in H. apply frame_tail_inv in H.
  destruct H as (ic & sc & ig & pr & Eig & Epr & Erd & Hbu & Hpu & Htg & Hwk
                 & Hsg & Hdl).
  destruct Hst as (Htape & Hd & Hb & Ht & Hw & Hsig).
  destruct Hhead as (Hr0 & [Hb0 Hb1] & _ & Htarget & Hsigils).
  destruct (intent_gate_facts _ _ _ _ Eit) as [Hit Hd'].
  destruct (too_small_false inp Hsize) as [Hh _].
  assert (Hdil : (0 <= intent_dilation' it <= 1.5)%Q) by (rewrite Hd'; lra).
  assert (Htgt : (0.15 <= target <= 1.2)%Q).
  { destruct Htarget as [-> | [n ->]]; [exact Ht |].
    destruct (Htape n). lra. }
  unfold state_ok. rewrite Hbu, Htg, Hwk, Hsg, Hdl.
  split; [| split; [| split; [| split; [| split]]]].
  - assert (E : unit_draws (trng st') = unit_draws (trng st)).
    { rewrite <- Hr0.
      assert (E1 : unit_draws ig.2 = unit_draws r0).
      { revert Eig.
        apply (py_fold_invariant (fun acc => unit_draws acc.2 = unit_draws r0));
          [| reflexivity].
        intros s a s' Hs Ha. rewrite <- Hs. eapply ignite_step_tape, Ha. }
      apply propagate_tape in Epr. rewrite <- E1, <- Epr.
      change (unit_draws (excitation_grid st', active_sparks st', trng st').2
              = unit_draws pr.2).
      revert Erd.
      apply (py_fold_invariant (fun acc => unit_draws acc.2 = unit_draws pr.2));
        [| reflexivity].
      intros s c s' Hs Hc. rewrite <- Hs. eapply render_cell_tape, Hc. }
    intros n. rewrite E. apply Htape.
  - exact Hdil.
  - split; [apply Hb0, Hb |].
    eapply Qle_trans; [exact Hb1 |].
    apply Q.max_lub; [discriminate |]. unfold gate_threshold. lra.
  - exact Htgt.
  - lra.
  - apply Forall_filter_keeps.
    destruct Hsigils as [-> | (cx & cy & n1 & n2 & rp & ->)]; [exact Hsig |].
    apply Forall_app. split; [exact Hsig |].
    constructor; [| constructor]. cbn [sigil_scale sigil_life].
    destruct (Htape n1) as [Hu1 Hu1'], (Htape n2) as [Hu2 Hu2'].
    assert (HH : (10 <= inject_Z (frame_height inp))%Q).
    { change 10%Q with (inject_Z 10). rewrite <- Zle_Qle. exact Hh. }
    set (H := inject_Z (frame_height inp)) in *.
    set (u1 := unit_draws (trng st) n1) in *.
    set (u2 := unit_draws (trng st) n2) in *.
    set (d := intent_dilation' it) in *.
    destruct (intent_gate_open it).
    + assert (0 <= H * u1)%Q by nra.
      assert (0 <= d * u2)%Q by nra.
      assert (d * u2 <= 1.5)%Q by nra.
      assert (0 <= H * d)%Q by nra.
      assert (0 <= H * u1 * d)%Q by nra.
      repeat split; nra.
    + assert (0 <= H * u1)%Q by nra.
      repeat split; nra.
Qed.

Lemma initial_state_ok (r : Trng) : unit_tape r -> state_ok (initial_state r).
Proof.
  intros Hr. unfold state_ok, initial_state. cbn.
  split; [exact Hr |]. repeat split; try discriminate. constructor.
Qed.

Lemma run_frames_state_ok (sqrt : Q -> Q) (G : Globals) (C : Catalog)
    (inputs : list FrameInput) (st st' : MainState) :
  state_ok st -> run_frames sqrt G C inputs st = Ret st' -> state_ok st'.
Proof.
  unfold run_frames.
  apply (py_fold_invariant state_ok (fun s inp => main_frame sqrt G C inp s)).
  intros s inp s' Hs Hinp. eapply main_frame_state_ok; eassumption.
Qed.

(** X25: the bookkeeping of a run stays in bounds.  If every [random()]
    lies in [[0, 1)], then at the end of every run of frames from the
    initial state the tape is still one of unit draws, the dilation lies
    in [[0, 1.5]], the entropy build-up in [[0, 2]] (it never ends a frame
    above the gate threshold), the coherence target and the walker in
    [[0.15, 1.2]], and every sigil alive has a scale of at least 3 and a
    life between 8 and 29 seconds. *)
Theorem run_keeps_state_in_bounds (sqrt : Q -> Q) (G : Globals) (C : Catalog)
    (inputs : list FrameInput) (r : Trng) (st : MainState) :
  unit_tape r ->
  run_frames sqrt G C inputs (initial_state r) = Ret st ->
  unit_tape (trng st) /\
  (0 <= intent_dilation st <= 1.5)%Q /\
  (0 <= entropy_buildup st <= 2)%Q /\
  (0.15 <= target_coherence st <= 1.2)%Q /\
  (0.15 <= coherence_walker st <= 1.2)%Q /\
  Forall (fun s => (3 <= sigil_scale s)%Q /\ (8 <= sigil_life s <= 29)%Q)
         (active_sigils st).
Proof.
  intros Hr H.
  exact (run_frames_state_ok sqrt G C inputs _ st (initial_state_ok r Hr) H).
Qed.

Lemma scene_tape_unit : unit_tape scene_tape.
Proof.
  intros n. unfold scene_tape. cbn [unit_draws].
  do 11 (destruct n as [| n]; [split; [discriminate | reflexivity] |]).
  split; [discriminate | reflexivity].
Qed.

Lemma run_keeps_state_in_bounds_witness :
  match run_frames sqrt_upper seal_globals star_catalog [bright_frame 0]
          (initial_state scene_tape) with
  | Ret st =>
      List.length (active_sigils st) = 1%nat /\
      Forall (fun s => (3 <= sigil_scale s)%Q /\ (8 <= sigil_life s <= 29)%Q)
             (active_sigils st)
  | Raise _ => False
  end.
Proof.
  assert (L : match run_frames sqrt_upper seal_globals star_catalog
                      [bright_frame 0] (initial_state scene_tape) with
              | Ret st => List.length (active_sigils st) = 1%nat
              | Raise _ => False
              end) by (vm_compute; reflexivity).
  destruct (run_frames sqrt_upper seal_globals star_catalog [bright_frame 0]
              (initial_state scene_tape)) as [st | e] eqn:E; [| exact L].
  split; [exact L |].
  apply (run_keeps_state_in_bounds sqrt_upper seal_globals star_catalog
           [bright_frame 0] scene_tape st scene_tape_unit E).
Defined.

Lemma pulse_centre_in_viewport (size off : Z) :
  10 <= size -> (- size) / 3 <= off <= size / 3 -> 0 <= size / 2 + off < size.
Proof.
  intros Hsize Hoff. Z.to_euclidean_division_equations. lia.
Qed.

(** X26: who is on stage at the end of a drawn frame.  Every pulse and
    every sigil left is unexpired; each was there before or was spawned
    in this frame, and at most one of each is spawned per frame.  A pulse
    spawned in the frame has its epicentre inside the viewport; a sigil
    spawned in the frame has an id the weighted draw returned. *)
Theorem frame_population (sqrt : Q -> Q) (G : Globals) (C : Catalog)
    (inp : FrameInput) (st st' : MainState) :
  too_small inp = false ->
  main_frame sqrt G C inp st = Ret st' ->
  (forall p : Pulse,
     List.In p (active_pulses st') ->
     (frame_t inp - pulse_start_time p <= pulse_duration)%Q /\
     (List.In p (active_pulses st) \/
      (pulse_start_time p = frame_t inp /\
       in_viewport (pulse_cx p, pulse_cy p)
                   (frame_width inp) (frame_height inp)))) /\
  (List.length (active_pulses st') <= List.length (active_pulses st) + 1)%nat /\
  (forall s : Sigil,
     List.In s (active_sigils st') ->
     (frame_t inp - sigil_start_time s <= sigil_life s)%Q /\
     (List.In s (active_sigils st) \/
      (sigil_start_time s = frame_t inp /\
       exists rp : Trng,
         sigil_type_id s = fst (pick_weighted_sigil_id G rp)))) /\
  (List.length (active_sigils st') <= List.length (active_sigils st) + 1)%nat.
Proof.
  intros Hsize H.
  destruct (main_frame_head_returns _ _ _ _ _ _ Hsize H)
    as (mean & it & Emean & Eit).
  destruct (main_frame_eq sqrt G C inp st mean it Hsize Emean Eit)
    as (buildup & pulses0 & target & sigils0 & r0 & Hhead & Heq).
  rewrite Heq in H. apply frame_tail_inv in H.
  destruct H as (ic & sc & ig & pr & _ & _ & _ & _ & Hpu & _ & _ & Hsg & _).
  destruct Hhead as (_ & _ & Hpulses & _ & Hsigils).
  destruct (too_small_false inp Hsize) as [Hh Hw].
  rewrite Hpu, Hsg. split; [| split; [| split]].
  - intros p Hp. apply filter_In in Hp. destruct Hp as [Hin Hfresh].
    split; [now apply Qle_bool_iff |].
    destruct Hpulses as [-> | (ox & oy & -> & Hox & Hoy)]; [now left |].
    apply in_app_or in Hin. destruct Hin as [Hin | [<- | []]]; [now left |].
    right. split; [reflexivity |]. cbn [pulse_cx pulse_cy].
    split; cbn [fst snd]; apply pulse_centre_in_viewport; lia.
  - eapply Nat.le_trans; [apply List.filter_length_le |].
    destruct Hpulses as [-> | (ox & oy & -> & _)]; [lia |].
    rewrite length_app. cbn [List.length]. lia.
  - intros s Hs. apply filter_In in Hs. destruct Hs as [Hin Hfresh].
    split; [now apply Qle_bool_iff |].
    destruct Hsigils as [-> | (cx & cy & n1 & n2 & rp & ->)]; [now left |].
    apply in_app_or in Hin. destruct Hin as [Hin | [<- | []]]; [now left |].
    right. split; [reflexivity |]. now exists rp.
  - eapply Nat.le_trans; [apply List.filter_length_le |].
    destruct Hsigils as [-> | (cx & cy & n1 & n2 & rp & ->)]; [lia |].
    rewrite length_app. cbn [List.length]. lia.
Qed.

Lemma frame_population_witness :
  match main_frame sqrt_upper seal_globals star_catalog (bright_frame 0)
          (initial_state scene_tape) with
  | Ret st =>
      List.length (active_sigils st) = 1%nat /\
      forall s : Sigil,
        List.In s (active_sigils st) ->
        (0 - sigil_start_time s <= sigil_life s)%Q /\
        (List.In s [] \/
         (sigil_start_time s = 0%Q /\
          exists rp : Trng,
            sigil_type_id s = fst (pick_weighted_sigil_id seal_globals rp)))
  | Raise _ => False
  end.
Proof.
  assert (L : match main_frame sqrt_upper seal_globals star_catalog
                      (bright_frame 0) (initial_state scene_tape) with
              | Ret st => List.length (active_sigils st) = 1%nat
              | Raise _ => False
              end) by (vm_compute; reflexivity).
  destruct (main_frame sqrt_upper seal_globals star_catalog (bright_frame 0)
              (initial_state scene_tape)) as [st | e] eqn:E; [| exact L].
  split; [exact L |].
  exact (proj1 (proj2 (proj2
           (frame_population sqrt_upper seal_globals star_catalog
              (bright_frame 0) (initial_state scene_tape) st eq_refl E)))).
Defined.

(** ** The frame: what it can raise *)

Lemma py_fold_returns_in {A S : Type} (P : S -> Prop) (f : S -> A -> py S)
    (l : list A) :
  (forall s a, List.In a l -> P s -> exists s', f s a = Ret s' /\ P s') ->
  forall s : S, P s -> exists s', py_fold f l s = Ret s' /\ P s'.
Proof.
  induction l as [| a l IH]; intros Hf s Hs; cbn [py_fold].
  - eauto.
  - destruct (Hf s a (or_introl eq_refl) Hs) as (s1 & -> & Hs1).
    cbn [py_bind]. apply IH; [| exact Hs1].
    intros s0 a0 Hin. apply Hf. now right.
Qed.

Lemma py_fold_returns_or_name_error {A S : Type} (P : S -> Prop)
    (f : S -> A -> py S) (l : list A) :
  (forall s a, List.In a l -> P s ->
     (exists s', f s a = Ret s' /\ P s') \/ f s a = Raise NameError) ->
  forall s : S, P s ->
    (exists s', py_fold f l s = Ret s' /\ P s')
    \/ py_fold f l s = Raise NameError.
Proof.
  induction l as [| a l IH]; intros Hf s Hs; cbn [py_fold].
  - left. eauto.
  - destruct (Hf s a (or_introl eq_refl) Hs) as [(s1 & -> & Hs1) | ->];
      cbn [py_bind]; [| now right].
    apply IH; [| exact Hs1].
    intros s0 a0 Hin. apply Hf. now right.
Qed.

Lemma sample_mean_returns (entropy_pool : list byte) :
  0 < Z.of_nat (List.length entropy_pool) ->
  exists mean : Q, sample_mean entropy_pool = Ret mean.
Proof.
  intros Hlen. unfold sample_mean. cbv zeta.
  rewrite py_div_nonzero; [eauto |].
  unfold Qeq. cbn. lia.
Qed.

Lemma intent_gate_returns (sqrt : Q -> Q) (entropy_pool : list byte)
    (dilation : Q) :
  sqrt_ok sqrt -> exists it : Intent, intent_gate sqrt entropy_pool dilation = Ret it.
Proof.
  intros Hsqrt. unfold intent_gate.
  rewrite focus_loop_strided_hits. cbn [py_bind].
  set (variance := Qmax _ _).
  assert (Hvar : (0 < variance)%Q).
  { apply Qlt_le_trans with (1 # 1000000)%Q; [reflexivity |].
    apply Q.le_max_l. }
  specialize (Hsqrt variance Hvar).
  rewrite py_div_nonzero by (intros E; rewrite E in Hsqrt; now apply Qlt_irrefl in Hsqrt).
  cbn [py_bind]. eauto.
Qed.

Lemma sigil_test_returns (G : Globals) (x y : Z) (sig : Sigil) (noise : Q) :
  masks_ok G -> ~ (sigil_scale sig == 0)%Q ->
  exists b : bool,
    is_point_in_sigil G x y (sigil_type_id sig) (sigil_cx sig) (sigil_cy sig)
      (sigil_scale sig) noise = Ret b.
Proof.
  intros Hm Hs. apply is_point_in_sigil_returns.
  - exact Hs.
  - intros m. apply Hm.
Qed.

Lemma on_any_sigil_returns (G : Globals) (sigils : list Sigil) (x y : Z)
    (noise : Q) :
  masks_ok G -> Forall (fun s => ~ (sigil_scale s == 0)%Q) sigils ->
  exists b : bool, on_any_sigil G sigils x y noise = Ret b.
Proof.
  intros Hm Hall. unfold on_any_sigil.
  induction Hall as [| sig sigils Hs Hall IH]; cbn [py_any]; [eauto |].
  destruct (sigil_test_returns G x y sig noise Hm Hs) as [[] ->];
    cbn [py_bind]; eauto.
Qed.

Lemma ignite_step_returns (G : Globals) (width height : Z) (chance : Q)
    (acc : gmap (Z * Z) Q * gset (Z * Z) * Trng) (sig : Sigil) :
  masks_ok G -> ~ (sigil_scale sig == 0)%Q ->
  exists acc', ignite_step G width height chance acc sig = Ret acc'.
Proof.
  intros Hm Hs. destruct acc as [[grid sparks] r]. unfold ignite_step.
  unfold trng_random, trng_uniform.
  destruct (Qltb _ chance); [| eauto].
  destruct (in_grid _ _ width height); [| eauto].
  match goal with
  | |- context [is_point_in_sigil G ?x ?y _ _ _ _ ?n] =>
      destruct (sigil_test_returns G x y sig n Hm Hs) as [[] ->]
  end; cbn [py_bind]; eauto.
Qed.

Lemma spread_step_returns (G : Globals) (entropy_pool : list byte)
    (sigils : list Sigil) (width height : Z) (chance : Q) (s : Z * Z)
    (acc : gmap (Z * Z) Q * gset (Z * Z) * Trng) (d : Z * Z) :
  masks_ok G -> Forall (fun s => ~ (sigil_scale s == 0)%Q) sigils ->
  Z.of_nat (List.length entropy_pool) = width * height ->
  exists acc',
    spread_step G entropy_pool sigils width height chance s acc d = Ret acc'.
Proof.
  intros Hm Hall Hlen. destruct acc as [[grid sparks] r]. unfold spread_step.
  destruct (in_grid _ _ width height) eqn:Ein; [| eauto].
  apply in_grid_true in Ein.
  destruct (match grid !! _ with Some _ => _ | None => _ end); [| eauto].
  rewrite (py_getitem_in_range _ _ x00) by nia. cbn [py_bind].
  match goal with
  | |- context [on_any_sigil G sigils ?x ?y ?n] =>
      destruct (on_any_sigil_returns G sigils x y n Hm Hall) as [[] ->]
  end; cbn [py_bind]; [| eauto].
  unfold trng_random. destruct (Qltb _ chance); eauto.
Qed.

Lemma propagate_returns (G : Globals) (entropy_pool : list byte)
    (sigils : list Sigil) (width height : Z) (chance : Q)
    (sparks : gset (Z * Z)) (grid : gmap (Z * Z) Q) (r : Trng) :
  masks_ok G -> Forall (fun s => ~ (sigil_scale s == 0)%Q) sigils ->
  Z.of_nat (List.length entropy_pool) = width * height ->
  exists acc',
    propagate G entropy_pool sigils width height chance sparks grid r = Ret acc'.
Proof.
  intros Hm Hall Hlen. unfold propagate.
  destruct (py_fold_returns_in (fun _ => True)
              (fun acc s =>
                 py_fold (spread_step G entropy_pool sigils width height
                            chance s) neighbors acc)
              (elements sparks)) with (s := (grid, (∅ : gset (Z * Z)), r))
    as (acc' & E & _); [| exact I | eauto].
  intros acc s _ _.
  destruct (py_fold_returns_in (fun _ => True)
              (spread_step G entropy_pool sigils width height chance s)
              neighbors) with (s := acc) as (acc1 & E1 & _);
    [| exact I | eauto].
  intros a d _ _.
  destruct (spread_step_returns G entropy_pool sigils width height chance s
              a d Hm Hall Hlen) as [a' ->].
  eauto.
Qed.

Lemma render_cell_returns_or (G : Globals) (C : Catalog) (inp : FrameInput)
    (sigils : list Sigil)
    (acc : gmap (Z * Z) Q * gset (Z * Z) * Trng) (c : Z * Z) :
  masks_ok G -> Forall (fun s => ~ (sigil_scale s == 0)%Q) sigils ->
  pool_ok inp ->
  List.In c (render_cells (frame_height inp) (frame_width inp)) ->
  (exists acc', render_cell G C inp sigils acc c = Ret acc' /\
                (Qgtb (grid_get acc.1.1 c) 0 = false)) \/
  (render_cell G C inp sigils acc c = Raise NameError /\
   Qgtb (grid_get acc.1.1 c) 0 = true).
Proof.
  intros Hm Hall Hlen Hc. destruct acc as [[grid sparks] r], c as [x y].
  apply in_render_cells in Hc. unfold pool_ok in Hlen.
  unfold render_cell. cbn [fst].
  rewrite (py_getitem_in_range _ _ x00) by nia. cbn [py_bind].
  destruct (Qgtb (grid_get grid (x, y)) 0).
  - right. unfold excitation_override. rewrite max_entropy_len_unbound.
    split; reflexivity.
  - left. destruct (_ && _); [| eauto].
    match goal with
    | |- context [on_any_sigil G sigils ?x ?y ?n] =>
        destruct (on_any_sigil_returns G sigils x y n Hm Hall) as [[] ->]
    end; cbn [py_bind]; eauto.
Qed.

Lemma frame_head_sigils_ok (G : Globals) (inp : FrameInput) (st : MainState)
    (it : Intent) (buildup : Q) (pulses0 : list Pulse) (target : Q)
    (sigils0 : list Sigil) (r0 : Trng) :
  too_small inp = false -> state_ok st ->
  (0 <= intent_dilation' it)%Q ->
  frame_head G inp st it buildup pulses0 target sigils0 r0 ->
  Forall (fun s => (3 <= sigil_scale s)%Q) sigils0.
Proof.
  intros Hsize (Htape & _ & _ & _ & _ & Hsig) Hd (_ & _ & _ & _ & Hsigils).
  destruct (too_small_false inp Hsize) as [Hh _].
  assert (Hold : Forall (fun s => (3 <= sigil_scale s)%Q) (active_sigils st)).
  { eapply List.Forall_impl; [| exact Hsig]. cbn. tauto. }
  destruct Hsigils as [-> | (cx & cy & n1 & n2 & rp & ->)]; [exact Hold |].
  apply Forall_app. split; [exact Hold |].
  constructor; [| constructor]. cbn [sigil_scale].
  destruct (Htape n1) as [Hu1 Hu1'].
  assert (HH : (10 <= inject_Z (frame_height inp))%Q).
  { change 10%Q with (inject_Z 10). rewrite <- Zle_Qle. exact Hh. }
  set (H := inject_Z (frame_height inp)) in *.
  set (u1 := unit_draws (trng st) n1) in *.
  set (d := intent_dilation' it) in *.
  assert (0 <= H * u1)%Q by nra.
  destruct (intent_gate_open it).
  - assert (0 <= H * d)%Q by nra.
    assert (0 <= H * u1 * d)%Q by nra.
    nra.
  - nra.
Qed.

Lemma main_frame_returns_or (sqrt : Q -> Q) (G : Globals) (C : Catalog)
    (inp : FrameInput) (st : MainState) :
  sqrt_ok sqrt -> masks_ok G -> pool_ok inp -> state_ok st ->
  (exists st' : MainState, main_frame sqrt G C inp st = Ret st' /\ state_ok st')
  \/ main_frame sqrt G C inp st = Raise NameError.
Proof.
  intros Hsqrt Hm Hpool Hst.
  destruct (too_small inp) eqn:Hsize.
  { left. exists st. split; [| exact Hst].
    unfold main_frame. unfold too_small in Hsize. now rewrite Hsize. }
  destruct (too_small_false inp Hsize) as [Hh Hw].
  assert (Hlen : 0 < Z.of_nat (List.length (frame_entropy inp)))
    by (rewrite Hpool; nia).
  destruct (sample_mean_returns _ Hlen) as [mean Emean].
  destruct (intent_gate_returns sqrt (frame_entropy inp) (intent_dilation st)
              Hsqrt) as [it Eit].
  destruct (main_frame_eq sqrt G C inp st mean it Hsize Emean Eit)
    as (buildup & pulses0 & target & sigils0 & r0 & Hhead & Heq).
  destruct (intent_gate_facts _ _ _ _ Eit) as [Hit Hd'].
  assert (Hdil : (0 <= intent_dilation' it)%Q).
  { destruct Hst as (_ & Hd & _). rewrite Hd'. lra. }
  assert (Hsig : Forall (fun s => ~ (sigil_scale s == 0)%Q)
                        (List.filter (fresh_sigil (frame_t inp)) sigils0)).
  { apply Forall_filter_keeps.
    eapply List.Forall_impl;
      [| exact (frame_head_sigils_ok G inp st it buildup pulses0 target
                  sigils0 r0 Hsize Hst Hdil Hhead)].
    intros s Hs E. cbn in Hs. lra. }
  set (sigils := List.filter (fresh_sigil (frame_t inp)) sigils0) in *.
  assert (Hcases :
    (exists st', frame_tail G C inp st it buildup
                   (List.filter (fresh_pulse (frame_t inp)) pulses0) target
                   sigils r0 = Ret st')
    \/ frame_tail G C inp st it buildup
         (List.filter (fresh_pulse (frame_t inp)) pulses0) target
         sigils r0 = Raise NameError).
  { unfold frame_tail. cbv zeta.
    set (ic := Qmin 0.80 _).
    destruct (py_fold_returns_in (fun _ => True)
                (ignite_step G (frame_width inp) (frame_height inp) ic)
                sigils)
      with (s := (excitation_grid st, active_sparks st, r0))
      as (ig & -> & _); [| exact I |].
    { intros acc sig Hin _.
      assert (Hs : ~ (sigil_scale sig == 0)%Q)
        by (exact (proj1 (List.Forall_forall _ _) Hsig sig Hin)).
      destruct (ignite_step_returns G (frame_width inp) (frame_height inp)
                  ic acc sig Hm Hs) as [acc' ->].
      eauto. }
    cbn [py_bind]. destruct ig as [[grid1 sparks1] r1].
    match goal with
    | |- context [propagate G ?p sigils ?w ?h ?c ?s ?g ?r] =>
        destruct (propagate_returns G p sigils w h c s g r Hm Hsig Hpool)
          as [pr ->]
    end.
    cbn [py_bind].
    destruct (py_fold_returns_or_name_error (fun _ => True)
                (render_cell G C inp sigils)
                (render_cells (frame_height inp) (frame_width inp)))
      with (s := pr) as [(rd & -> & _) | ->]; [| exact I | |].
    - intros acc c Hc _.
      destruct (render_cell_returns_or G C inp sigils acc c Hm Hsig Hpool Hc)
        as [(acc' & -> & _) | [-> _]]; [left; eauto | now right].
    - cbn [py_bind]. destruct rd as [[grid3 sparks3] r3]. left. eauto.
    - cbn [py_bind]. now right. }
  rewrite Heq. destruct Hcases as [[st' E] | E]; [| now right].
  left. exists st'. split; [exact E |].
  eapply main_frame_state_ok; [exact Hst |]. rewrite Heq. exact E.
Qed.

(** X27: [NameError] is the only exception the simulation of a run can
    raise on masks within the doubles.  If [math.sqrt] is positive on
    positive arguments, every registered mask has a consistent payload
    and a [width - 1] and [height - 1] that convert to a float, the
    entropy buffer of every frame has [width * height] bytes and every
    [random()] lies in [[0, 1)], then a run of frames from the initial
    state (the gate, the bookkeeping, ignition, decay, propagation, and
    the excitation and seeding steps of the render pass) either returns
    or raises [NameError]: no index, no division and no mask probe
    fails. *)
Theorem run_raises_only_name_error (sqrt : Q -> Q) (G : Globals) (C : Catalog)
    (inputs : list FrameInput) (r : Trng) :
  sqrt_ok sqrt -> masks_ok G -> Forall pool_ok inputs -> unit_tape r ->
  (exists st : MainState,
     run_frames sqrt G C inputs (initial_state r) = Ret st)
  \/ run_frames sqrt G C inputs (initial_state r) = Raise NameError.
Proof.
  intros Hsqrt Hm Hpool Hr. unfold run_frames.
  destruct (py_fold_returns_or_name_error state_ok
              (fun st inp => main_frame sqrt G C inp st) inputs)
    with (s := initial_state r) as [(st & E & _) | E].
  - intros st inp Hin Hst. rewrite List.Forall_forall in Hpool.
    apply main_frame_returns_or; auto.
  - now apply initial_state_ok.
  - left. eauto.
  - now right.
Qed.

Lemma seal_globals_masks_ok : masks_ok seal_globals.
Proof.
  assert (H : refresh_verified_sigil_registry
                (only_grand_seal (bytes_of "P4 8 1" ++ [x0a; xff])) IndexAbsent
                initial_globals = Ret seal_globals) by reflexivity.
  apply refresh_scan_ok in H. intros sid m Hm.
  split; [exact (proj2 H sid m Hm) |].
  change (SIGIL_MASKS_BY_ID seal_globals)
    with ({[ LILITH_GRAND_SEAL_ID seal_globals := mkMask 8 1 1 [xff] ]}
            : gmap Z Mask) in Hm.
  apply lookup_singleton_Some in Hm. destruct Hm as [_ <-].
  split; vm_compute; reflexivity.
Qed.

Lemma sqrt_upper_ok : sqrt_ok sqrt_upper.
Proof. intros v Hv. unfold sqrt_upper. lra. Qed.

Lemma bright_frame_pool_ok (t : Q) : pool_ok (bright_frame t).
Proof. reflexivity. Qed.

Lemma run_raises_only_name_error_witness :
  (exists st : MainState,
     run_frames sqrt_upper seal_globals star_catalog
       [bright_frame 0; bright_frame 0.05] (initial_state scene_tape) = Ret st)
  \/ run_frames sqrt_upper seal_globals star_catalog
       [bright_frame 0; bright_frame 0.05] (initial_state scene_tape)
     = Raise NameError.
Proof.
  apply (run_raises_only_name_error sqrt_upper seal_globals star_catalog
           [bright_frame 0; bright_frame 0.05] scene_tape).
  - exact sqrt_upper_ok.
  - exact seal_globals_masks_ok.
  - repeat constructor.
  - exact scene_tape_unit.
Defined.

(** With the wide raster in the registry the hypothesis on the masks
    fails, and so does the first frame: it probes the mask, and the
    probe raises [OverflowError]. *)
Example run_on_wide_mask_overflows :
  run_frames sqrt_upper wide_globals star_catalog [bright_frame 0]
    (initial_state scene_tape)
  = Raise OverflowError.
Proof. vm_compute. reflexivity. Qed.

Lemma render_cell_elsewhere (G : Globals) (C : Catalog) (inp : FrameInput)
    (sigils : list Sigil)
    (acc acc' : gmap (Z * Z) Q * gset (Z * Z) * Trng) (c c' : Z * Z) :
  render_cell G C inp sigils acc c = Ret acc' -> c' <> c ->
  acc'.1.1 !! c' = acc.1.1 !! c'.
Proof.
  destruct acc as [[grid sparks] r], c as [x y].
  unfold render_cell. intros H Hne.
  bind_inv H as e E1.
  destruct (Qgtb (grid_get grid (x, y)) 0).
  - bind_inv H as drawn E2. now inversion H; subst.
  - destruct (_ && _); [| now inversion H; subst].
    bind_inv H as hit E2. destruct hit; [| now inversion H; subst].
    rewrite inject_no_halo in H.
    destruct (out_of_grid _ _ _ _); inversion H; subst; cbn [fst];
      [reflexivity |].
    now apply raise_cell_lookup.
Qed.

Lemma existsb_ext_in {A : Type} (f g : A -> bool) (l : list A) :
  (forall a : A, List.In a l -> f a = g a) -> existsb f l = existsb g l.
Proof.
  induction l as [| a l IH]; intros H; cbn [existsb]; [reflexivity |].
  rewrite (H a (or_introl eq_refl)), IH; [reflexivity |].
  intros a' Ha'. apply H. now right.
Qed.

Lemma render_fold_cases (G : Globals) (C : Catalog) (inp : FrameInput)
    (sigils : list Sigil) (cells : list (Z * Z)) :
  masks_ok G -> Forall (fun s => ~ (sigil_scale s == 0)%Q) sigils ->
  pool_ok inp ->
  (forall c : Z * Z,
     List.In c cells ->
     List.In c (render_cells (frame_height inp) (frame_width inp))) ->
  List.NoDup cells ->
  forall acc : gmap (Z * Z) Q * gset (Z * Z) * Trng,
    if existsb (fun c => Qgtb (grid_get acc.1.1 c) 0) cells
    then py_fold (render_cell G C inp sigils) cells acc = Raise NameError
    else exists acc', py_fold (render_cell G C inp sigils) cells acc = Ret acc'.
Proof.
  intros Hm Hsig Hpool Hsub Hnd.
  induction cells as [| c cells IH]; intros acc; cbn [existsb py_fold];
    [eauto |].
  inversion Hnd as [| ? ? Hc Hnd']; subst.
  destruct (render_cell_returns_or G C inp sigils acc c Hm Hsig Hpool
              (Hsub c (or_introl eq_refl)))
    as [(acc' & E & ->) | [E ->]]; rewrite E; cbn [py_bind orb];
    [| reflexivity].
  assert (Hsame : existsb (fun c0 => Qgtb (grid_get acc.1.1 c0) 0) cells
                  = existsb (fun c0 => Qgtb (grid_get acc'.1.1 c0) 0) cells).
  { apply existsb_ext_in. intros c' Hc'. unfold grid_get.
    rewrite (render_cell_elsewhere _ _ _ _ _ _ _ c' E); [reflexivity |].
    intros ->. contradiction. }
  rewrite Hsame. apply IH; [| exact Hnd'].
  intros c' Hc'. apply Hsub. now right.
Qed.

(** X28: the render loop fails exactly on an excited cell.  With masks
    of consistent payload whose [width - 1] and [height - 1] convert to a
    float, sigils of non-zero scale and an entropy buffer of
    [width * height] bytes, the pass over the cells raises [NameError] if
    and only if one of the cells it visits is excited when the pass
    begins, and returns otherwise: seeding a cell never excites a cell
    that is still to come. *)
Theorem render_loop_fails_exactly_on_excited_cell (G : Globals) (C : Catalog)
    (inp : FrameInput) (sigils : list Sigil)
    (acc : gmap (Z * Z) Q * gset (Z * Z) * Trng) :
  masks_ok G -> Forall (fun s => ~ (sigil_scale s == 0)%Q) sigils ->
  pool_ok inp ->
  (py_fold (render_cell G C inp sigils)
           (render_cells (frame_height inp) (frame_width inp)) acc
   = Raise NameError <->
   exists c : Z * Z,
     List.In c (render_cells (frame_height inp) (frame_width inp)) /\
     (0 < grid_get acc.1.1 c)%Q) /\
  ((forall c : Z * Z,
      List.In c (render_cells (frame_height inp) (frame_width inp)) ->
      (grid_get acc.1.1 c <= 0)%Q) ->
   exists acc',
     py_fold (render_cell G C inp sigils)
             (render_cells (frame_height inp) (frame_width inp)) acc
     = Ret acc').
Proof.
  intros Hm Hsig Hpool.
  pose proof (render_fold_cases G C inp sigils
                (render_cells (frame_height inp) (frame_width inp))
                Hm Hsig Hpool (fun c H => H)
                (NoDup_row_major _ _ (NoDup_py_range _) (NoDup_py_range _))
                acc) as Hcases.
  destruct (existsb _ _) eqn:Eex.
  - apply existsb_exists in Eex. destruct Eex as (c & Hc & Hex).
    apply Qltb_lt in Hex. split.
    + split; [intros _; now exists c | intros _; exact Hcases].
    + intros Hall. specialize (Hall c Hc). lra.
  - destruct Hcases as [acc' E]. split; [| intros _; eauto].
    split; [rewrite E; discriminate |].
    intros (c & Hc & Hpos).
    assert (Hex : existsb (fun c => Qgtb (grid_get acc.1.1 c) 0)
                    (render_cells (frame_height inp) (frame_width inp)) = true).
    { apply existsb_exists. exists c. split; [exact Hc |]. now apply Qltb_lt. }
    congruence.
Qed.

Lemma render_loop_fails_exactly_on_excited_cell_witness :
  (py_fold (render_cell seal_globals star_catalog (bright_frame 0) [])
           (render_cells (frame_height (bright_frame 0))
                         (frame_width (bright_frame 0)))
           (({[ (3, 4) := 1%Q ]} : gmap (Z * Z) Q), (∅ : gset (Z * Z)), sample_trng)
   = Raise NameError <->
   exists c : Z * Z,
     List.In c (render_cells (frame_height (bright_frame 0))
                             (frame_width (bright_frame 0))) /\
     Qlt 0 (grid_get (({[ (3, 4) := 1%Q ]} : gmap (Z * Z) Q), (∅ : gset (Z * Z)), sample_trng).1.1 c)) /\
  ((forall c : Z * Z,
      List.In c (render_cells (frame_height (bright_frame 0))
                              (frame_width (bright_frame 0))) ->
      Qle (grid_get (({[ (3, 4) := 1%Q ]} : gmap (Z * Z) Q), (∅ : gset (Z * Z)), sample_trng).1.1 c) 0) ->
   exists acc',
     py_fold (render_cell seal_globals star_catalog (bright_frame 0) [])
             (render_cells (frame_height (bright_frame 0))
                           (frame_width (bright_frame 0)))
             (({[ (3, 4) := 1%Q ]} : gmap (Z * Z) Q), (∅ : gset (Z * Z)), sample_trng)
     = Ret acc').
Proof.
  apply (render_loop_fails_exactly_on_excited_cell seal_globals star_catalog
           (bright_frame 0) [] (({[ (3, 4) := 1%Q ]} : gmap (Z * Z) Q), (∅ : gset (Z * Z)), sample_trng)).
  - exact seal_globals_masks_ok.
  - constructor.
  - reflexivity.
Defined.

Lemma propagate_no_mask (G : Globals) (entropy_pool : list byte)
    (sigils : list Sigil) (width height : Z) (chance : Q)
    (sparks : gset (Z * Z)) (grid : gmap (Z * Z) Q) (r : Trng)
    (acc' : gmap (Z * Z) Q * gset (Z * Z) * Trng) :
  SIGIL_MASKS_BY_ID G = ∅ ->
  propagate G entropy_pool sigils width height chance sparks grid r = Ret acc' ->
  acc'.1 = (grid, ∅).
Proof.
  intros Hm. unfold propagate.
  apply (py_fold_invariant (fun acc => acc.1 = (grid, (∅ : gset (Z * Z)))));
    [| reflexivity].
  intros acc s acc1 Hacc.
  apply (py_fold_invariant (fun acc => acc.1 = (grid, (∅ : gset (Z * Z)))));
    [| exact Hacc].
  intros a d a' Ha Hd. rewrite <- Ha. eapply spread_step_no_mask; eassumption.
Qed.

Lemma no_mask_masks_ok (G : Globals) : SIGIL_MASKS_BY_ID G = ∅ -> masks_ok G.
Proof.
  intros Hm sid m H. rewrite Hm, lookup_empty in H. discriminate H.
Qed.

Lemma main_frame_returns_no_mask (sqrt : Q -> Q) (G : Globals) (C : Catalog)
    (inp : FrameInput) (st : MainState) :
  SIGIL_MASKS_BY_ID G = ∅ -> sqrt_ok sqrt -> pool_ok inp -> state_ok st ->
  excitation_grid st = ∅ ->
  exists st' : MainState,
    main_frame sqrt G C inp st = Ret st' /\ state_ok st' /\
    excitation_grid st' = ∅.
Proof.
  intros Hnone Hsqrt Hpool Hst Hgrid.
  pose proof (no_mask_masks_ok G Hnone) as Hm.
  destruct (too_small inp) eqn:Hsize.
  { exists st. split; [| now split].
    unfold main_frame. unfold too_small in Hsize. now rewrite Hsize. }
  assert (Hend : forall st', main_frame sqrt G C inp st = Ret st' ->
                   state_ok st' /\ excitation_grid st' = ∅).
  { intros st' E. split; [eapply main_frame_state_ok; eassumption |].
    destruct (main_frame_no_mask sqrt G C inp st st' Hnone Hsize E)
      as (_ & decay & _ & ->).
    rewrite Hgrid. apply decay_grid_empty. }
  destruct (main_frame_returns_or sqrt G C inp st Hsqrt Hm Hpool Hst)
    as [(st' & E & _) | E]; [exists st'; split; [exact E | now apply Hend] |].
  exfalso.
  destruct (too_small_false inp Hsize) as [Hh Hw].
  assert (Hlen : 0 < Z.of_nat (List.length (frame_entropy inp)))
    by (rewrite Hpool; nia).
  destruct (sample_mean_returns _ Hlen) as [mean Emean].
  destruct (intent_gate_returns sqrt (frame_entropy inp) (intent_dilation st)
              Hsqrt) as [it Eit].
  destruct (main_frame_eq sqrt G C inp st mean it Hsize Emean Eit)
    as (buildup & pulses0 & target & sigils0 & r0 & Hhead & Heq).
  destruct (intent_gate_facts _ _ _ _ Eit) as [Hit Hd'].
  assert (Hdil : (0 <= intent_dilation' it)%Q).
  { destruct Hst as (_ & Hd & _). rewrite Hd'. lra. }
  assert (Hsig : Forall (fun s => ~ (sigil_scale s == 0)%Q)
                        (List.filter (fresh_sigil (frame_t inp)) sigils0)).
  { apply Forall_filter_keeps.
    eapply List.Forall_impl;
      [| exact (frame_head_sigils_ok G inp st it buildup pulses0 target
                  sigils0 r0 Hsize Hst Hdil Hhead)].
    intros s Hs Es. cbn in Hs. lra. }
  set (sigils := List.filter (fresh_sigil (frame_t inp)) sigils0) in *.
  rewrite Heq in E. unfold frame_tail in E. cbv zeta in E.
  set (ic := Qmin 0.80 _) in E.
  destruct (py_fold_returns_in
              (fun acc => acc.1.1 = (∅ : gmap (Z * Z) Q))
              (ignite_step G (frame_width inp) (frame_height inp) ic) sigils)
    with (s := (excitation_grid st, active_sparks st, r0))
    as (ig & Eig & Hig); [| exact Hgrid |].
  { intros acc sig Hin Hacc.
    assert (Hs : ~ (sigil_scale sig == 0)%Q)
      by (exact (proj1 (List.Forall_forall _ _) Hsig sig Hin)).
    destruct (ignite_step_returns G (frame_width inp) (frame_height inp)
                ic acc sig Hm Hs) as [acc' Eacc].
    exists acc'. split; [exact Eacc |].
    rewrite (ignite_step_no_mask _ _ _ _ _ _ _ Hnone Eacc). exact Hacc. }
  rewrite Eig in E. cbn [py_bind] in E. destruct ig as [[grid1 sparks1] r1].
  cbn [fst] in Hig. subst grid1. rewrite decay_grid_empty in E.
  match type of E with
  | context [propagate G ?p sigils ?w ?h ?c ?s ?g ?r] =>
      destruct (propagate_returns G p sigils w h c s g r Hm Hsig Hpool)
        as [pr Epr]
  end.
  rewrite Epr in E. cbn [py_bind] in E.
  apply propagate_no_mask in Epr; [| exact Hnone].
  pose proof (render_fold_cases G C inp sigils
                (render_cells (frame_height inp) (frame_width inp))
                Hm Hsig Hpool (fun c H => H)
                (NoDup_row_major _ _ (NoDup_py_range _) (NoDup_py_range _))
                pr) as Hcases.
  replace (existsb _ _) with false in Hcases.
  - destruct Hcases as [rd Erd]. rewrite Erd in E. cbn [py_bind] in E.
    destruct rd as [[grid3 sparks3] r3]. discriminate E.
  - symmetry. apply not_true_is_false. intros Hex.
    apply existsb_exists in Hex. destruct Hex as (c & _ & Hex).
    rewrite Epr in Hex. cbn [fst] in Hex. unfold grid_get in Hex.
    rewrite lookup_empty in Hex. discriminate Hex.
Qed.

(** X29: without masks the simulation never fails.  If no mask is
    registered, [math.sqrt] is positive on positive arguments, every
    frame's entropy buffer has [width * height] bytes and every
    [random()] lies in [[0, 1)], then every run of frames from the
    initial state returns, with an empty grid: the excitation layer, and
    with it the unbound name, is never reached. *)
Theorem no_mask_run_returns (sqrt : Q -> Q) (G : Globals) (C : Catalog)
    (inputs : list FrameInput) (r : Trng) :
  SIGIL_MASKS_BY_ID G = ∅ -> sqrt_ok sqrt -> Forall pool_ok inputs ->
  unit_tape r ->
  exists st : MainState,
    run_frames sqrt G C inputs (initial_state r) = Ret st /\
    excitation_grid st = ∅.
Proof.
  intros Hnone Hsqrt Hpool Hr. unfold run_frames.
  destruct (py_fold_returns_in
              (fun st => state_ok st /\ excitation_grid st = ∅)
              (fun st inp => main_frame sqrt G C inp st) inputs)
    with (s := initial_state r) as (st & E & _ & Hg).
  - intros st inp Hin [Hst Hg]. rewrite List.Forall_forall in Hpool.
    apply main_frame_returns_no_mask; auto.
  - split; [now apply initial_state_ok | reflexivity].
  - eauto.
Qed.

Lemma no_mask_run_returns_witness :
  exists st : MainState,
    run_frames sqrt_upper initial_globals star_catalog
      [bright_frame 0; bright_frame 0.05] (initial_state scene_tape) = Ret st /\
    excitation_grid st = ∅.
Proof.
  apply (no_mask_run_returns sqrt_upper initial_globals star_catalog
           [bright_frame 0; bright_frame 0.05] scene_tape).
  - reflexivity.
  - exact sqrt_upper_ok.
  - repeat constructor.
  - exact scene_tape_unit.
Defined.
